(** * harbourbridge: the PostgreSQL dump front end ([sources/postgres/pgdump.go])

    A shallow embedding of the pg_dump statement processor and of the parts of
    the conversion state it works on, followed by the properties of the
    schema assembler, the chunk reader, the copy-block decoder, the statement
    dispatcher and the primary-key finalizer. *)

From Stdlib Require Import ZArith Ascii.
From stdpp Require Import gmap strings list fin_maps pretty.

Open Scope Z_scope.
Set Warnings "-register-all".

(** ** Results of Go code that may panic *)

Inductive outcome (A : Type) : Type :=
| Returns (a : A)
| Panics.
Arguments Returns {A} a.
Arguments Panics {A}.

Definition obind {A B : Type} (o : outcome A) (k : A -> outcome B) : outcome B :=
  match o with
  | Returns a => k a
  | Panics => Panics
  end.

Notation "x <-! o ;; k" := (obind o (fun x => k))
  (at level 100, o at next level, right associativity).

(** ** The schema package: tables, columns, keys *)

Module schema.

(** [schema.Type]: type name, numeric/length modifiers, array bounds. *)
Record Type_ : Type := mkType {
  TypeName : string;
  Mods : list Z;
  ArrayBounds : list Z
}.

(** [schema.Column]; of the [Ignored] sub-record only [Default] is written
    by the dump processor. *)
Record Column : Type := mkColumn {
  ColName : string;
  ColType : Type_;
  NotNull : bool;
  IgnoredDefault : bool
}.

Record Key : Type := mkKey {
  KeyColumn : string;
  Desc : bool
}.

Record ForeignKey : Type := mkForeignKey {
  FkName : string;
  Columns : list string;
  ReferTable : string;
  ReferColumns : list string
}.

Record Index : Type := mkIndex {
  IdxName : string;
  Unique : bool;
  Keys : list Key
}.

(** [schema.Table].  [ColDefs] is a Go map: [None] is the nil map (what the
    zero [Table] holds), which can be read but not written. *)
Record Table : Type := mkTable {
  Name : string;
  ColNames : list string;
  ColDefs : option (gmap string Column);
  PrimaryKeys : list Key;
  ForeignKeys : list ForeignKey;
  Indexes : list Index
}.

Definition zeroType : Type_ := mkType "" [] [].
Definition zeroColumn : Column := mkColumn "" zeroType false false.
Definition zeroTable : Table := mkTable "" [] None [] [] [].

Definition setNotNull (cd : Column) : Column :=
  mkColumn (ColName cd) (ColType cd) true (IgnoredDefault cd).
Definition setIgnoredDefault (cd : Column) : Column :=
  mkColumn (ColName cd) (ColType cd) (NotNull cd) true.

Definition setColDefs (t : Table) (cds : option (gmap string Column)) : Table :=
  mkTable (Name t) (ColNames t) cds (PrimaryKeys t) (ForeignKeys t) (Indexes t).
Definition setPrimaryKeys (t : Table) (pk : list Key) : Table :=
  mkTable (Name t) (ColNames t) (ColDefs t) pk (ForeignKeys t) (Indexes t).
Definition setForeignKeys (t : Table) (fks : list ForeignKey) : Table :=
  mkTable (Name t) (ColNames t) (ColDefs t) (PrimaryKeys t) fks (Indexes t).
Definition setIndexes (t : Table) (ixs : list Index) : Table :=
  mkTable (Name t) (ColNames t) (ColDefs t) (PrimaryKeys t) (ForeignKeys t) ixs.

(** Reading a Go map: the zero value when the key (or the map) is missing. *)
Definition colDefAt (cds : option (gmap string Column)) (c : string) : Column :=
  match cds with
  | Some m => default zeroColumn (m !! c)
  | None => zeroColumn
  end.

End schema.

(** ** The target schema (package [spanner/ddl]), as the finalizer sees it *)

Module ddl.

Definition Int64 : string := "INT64".
Definition Float64 : string := "FLOAT64".

Record Type_ : Type := mkType { TypeName : string }.

Record ColumnDef : Type := mkColumnDef {
  ColName : string;
  T : Type_
}.

Record IndexKey : Type := mkIndexKey {
  Col : string;
  Desc : bool
}.

Record CreateTable : Type := mkCreateTable {
  Name : string;
  ColNames : list string;
  ColDefs : gmap string ColumnDef;
  Pks : list IndexKey
}.

End ddl.

Record SyntheticPKey : Type := mkSyntheticPKey {
  SynthCol : string;
  Sequence : Z
}.

(** ** The conversion state [internal.Conv] *)

(** Modelled from the spec: the mode of [Conv] (package [internal], not
    among the sources), "mode ∈ {schema, data}", with the two tests
    [SchemaMode] and [DataMode] that are exclusive of each other (see
    [TestSetSchemaMode] and [TestSetDataMode]). *)
Inductive Mode : Type := schemaOnly | dataOnly.

(** The methods of [Conv] that the dump processor calls live in package
    [internal]; the state keeps the sequence of these calls, in program
    order, next to the fields that [pgdump.go] reads and writes itself
    ([SrcSchema], [Stats.Reparsed], and the mode behind [SchemaMode] and
    [DataMode]); the calls are counters, logs and the row converter, which
    leave these fields alone.  [ProcessDataRow] is the row converter of the
    package's [data.go].  The state also keeps, in [verbose], the messages
    handed to [internal.VerbosePrintf], which prints them when the tool runs
    verbose. *)

(** A [*time.Location], held by its name ([loc.String()]): [UTC] for the
    location that [time.LoadLocation] returns for the empty name. *)
Definition Location : Type := string.

Inductive Call : Type :=
| CallUnexpected (u : string)
| CallStatsAddRow (srcTable : string) (b : bool)
| CallStatsAddBadRow (srcTable : string) (b : bool)
| CallSchemaStatement (stmtType : string)
| CallDataStatement (stmtType : string)
| CallSkipStatement (stmtType : string)
| CallErrorInStatement (stmtType : string)
| CallSetLocation (loc : Location)
| CallProcessDataRow (srcTable : string) (srcCols vals : list string).

Record Conv : Type := mkConv {
  mode : Mode;
  SrcSchema : gmap string schema.Table;
  Reparsed : Z;
  calls : list Call;
  verbose : list string;
  SpSchema : gmap string ddl.CreateTable;
  SyntheticPKeys : gmap string SyntheticPKey
}.

Definition SchemaMode (conv : Conv) : bool :=
  match mode conv with schemaOnly => true | dataOnly => false end.
Definition DataMode (conv : Conv) : bool :=
  match mode conv with schemaOnly => false | dataOnly => true end.

Definition call (c : Call) (conv : Conv) : Conv :=
  mkConv (mode conv) (SrcSchema conv) (Reparsed conv) (calls conv ++ [c])
    (verbose conv) (SpSchema conv) (SyntheticPKeys conv).

Definition VerbosePrintf (msg : string) (conv : Conv) : Conv :=
  mkConv (mode conv) (SrcSchema conv) (Reparsed conv) (calls conv)
    (verbose conv ++ [msg]) (SpSchema conv) (SyntheticPKeys conv).

Definition Unexpected (u : string) : Conv -> Conv := call (CallUnexpected u).
Definition StatsAddRow (t : string) (b : bool) : Conv -> Conv :=
  call (CallStatsAddRow t b).
Definition StatsAddBadRow (t : string) (b : bool) : Conv -> Conv :=
  call (CallStatsAddBadRow t b).
Definition SchemaStatement (s : string) : Conv -> Conv := call (CallSchemaStatement s).
Definition DataStatement (s : string) : Conv -> Conv := call (CallDataStatement s).
Definition SkipStatement (s : string) : Conv -> Conv := call (CallSkipStatement s).
Definition ErrorInStatement (s : string) : Conv -> Conv :=
  call (CallErrorInStatement s).
Definition SetLocation (loc : Location) : Conv -> Conv := call (CallSetLocation loc).
Definition ProcessDataRow (t : string) (cols vals : list string) : Conv -> Conv :=
  call (CallProcessDataRow t cols vals).

(** [conv.SrcSchema[table]]: the zero table when the name is unknown. *)
Definition srcTable (conv : Conv) (table : string) : schema.Table :=
  default schema.zeroTable (SrcSchema conv !! table).

(** [conv.SrcSchema[table] = ct] *)
Definition setSrcTable (table : string) (ct : schema.Table) (conv : Conv) : Conv :=
  mkConv (mode conv) (<[table := ct]> (SrcSchema conv)) (Reparsed conv) (calls conv)
    (verbose conv) (SpSchema conv) (SyntheticPKeys conv).

(** The diagnostics ("unexpected" conditions) among a sequence of calls. *)
Definition isUnexpected (c : Call) : bool :=
  match c with CallUnexpected _ => true | _ => false end.
Definition diagnostics (cs : list Call) : list Call := List.filter isUnexpected cs.

(** ** Constraints ([pg_query.ConstrType] and the [constraint] struct) *)

Inductive ConstrType : Type :=
| CONSTR_TYPE_UNDEFINED | CONSTR_NULL | CONSTR_NOTNULL | CONSTR_DEFAULT
| CONSTR_IDENTITY | CONSTR_GENERATED | CONSTR_CHECK | CONSTR_PRIMARY
| CONSTR_UNIQUE | CONSTR_EXCLUSION | CONSTR_FOREIGN
| CONSTR_ATTR_DEFERRABLE | CONSTR_ATTR_NOT_DEFERRABLE
| CONSTR_ATTR_DEFERRED | CONSTR_ATTR_IMMEDIATE.

Record constraint : Type := mkConstraint {
  ct : ConstrType;
  cols : list string;
  name : string;
  referCols : list string;
  referTable : string
}.

(** ** Constraint resolution *)

Definition checkEmpty (conv : Conv) (pkeys : list schema.Key) (stmtType : string) : Conv :=
  if decide (length pkeys ≠ 0%nat)
  then Unexpected (stmtType +:+ " statement is adding a second primary key") conv
  else conv.

Definition toSchemaKeys (s : list string) : list schema.Key :=
  map (fun k => schema.mkKey k false) s.

Definition toForeignKeys (fk : constraint) : schema.ForeignKey :=
  schema.mkForeignKey (name fk) (cols fk) (referTable fk) (referCols fk).

(** The body of the loop of [updateCols] on one column definition. *)
Definition applyConstr (ct : ConstrType) (cd : schema.Column) : schema.Column :=
  match ct with
  | CONSTR_NOTNULL => schema.setNotNull cd
  | CONSTR_DEFAULT => schema.setIgnoredDefault cd
  | _ => cd
  end.

(** [updateCols] writes [colDef[c]] for every listed column; writing to the
    nil map panics. *)
Fixpoint updateCols (ct : ConstrType) (colNames : list string)
    (colDef : option (gmap string schema.Column))
  : outcome (option (gmap string schema.Column)) :=
  match colNames with
  | [] => Returns colDef
  | c :: rest =>
      match colDef with
      | None => Panics
      | Some m =>
          updateCols ct rest
            (Some (<[c := applyConstr ct (schema.colDefAt colDef c)]> m))
      end
  end.

Definition updateSchema1 (table stmtType : string) (conv : Conv) (c : constraint)
  : outcome Conv :=
  match ct c with
  | CONSTR_PRIMARY =>
      let t := srcTable conv table in
      let conv := checkEmpty conv (schema.PrimaryKeys t) stmtType in
      let t := schema.setPrimaryKeys t (toSchemaKeys (cols c)) in
      cds <-! updateCols CONSTR_NOTNULL (cols c) (schema.ColDefs t) ;;
      Returns (setSrcTable table (schema.setColDefs t cds) conv)
  | CONSTR_FOREIGN =>
      let t := srcTable conv table in
      let t := schema.setForeignKeys t (schema.ForeignKeys t ++ [toForeignKeys c]) in
      Returns (setSrcTable table t conv)
  | CONSTR_UNIQUE =>
      let t := srcTable conv table in
      let ix := schema.mkIndex (name c) true (toSchemaKeys (cols c)) in
      let t := schema.setIndexes t (schema.Indexes t ++ [ix]) in
      Returns (setSrcTable table t conv)
  | _ =>
      let t := srcTable conv table in
      cds <-! updateCols (ct c) (cols c) (schema.ColDefs t) ;;
      Returns (setSrcTable table (schema.setColDefs t cds) conv)
  end.

Fixpoint updateSchema (conv : Conv) (table : string) (cs : list constraint)
    (stmtType : string) : outcome Conv :=
  match cs with
  | [] => Returns conv
  | c :: rest =>
      conv' <-! updateSchema1 table stmtType conv c ;;
      updateSchema conv' table rest stmtType
  end.

(** ** Sample states used to exercise the statements below *)

Module Sample.

Definition int8 : schema.Type_ := schema.mkType "int8" [] [].

Definition cartCols : gmap string schema.Column :=
  <["id" := schema.mkColumn "id" int8 false false]>
    (<["qty" := schema.mkColumn "qty" int8 false false]> ∅).

(** A table [cart(id, qty)] whose primary key is [qty]. *)
Definition cart : schema.Table :=
  schema.mkTable "cart" ["id"; "qty"] (Some cartCols)
    [schema.mkKey "qty" false] [] [].

Definition conv0 : Conv := mkConv schemaOnly (<["cart" := cart]> ∅) 0 [] [] ∅ ∅.

(** The same table before any key was declared. *)
Definition cartNoKey : schema.Table :=
  schema.mkTable "cart" ["id"; "qty"] (Some cartCols) [] [] [].

Definition conv1 : Conv := mkConv schemaOnly (<["cart" := cartNoKey]> ∅) 0 [] [] ∅ ∅.

Definition pkId : constraint := mkConstraint CONSTR_PRIMARY ["id"] "" [] "".
Definition pkQty : constraint := mkConstraint CONSTR_PRIMARY ["qty"] "" [] "".

(** [UNIQUE (id)] without a constraint name. *)
Definition uniqueId : constraint := mkConstraint CONSTR_UNIQUE ["id"] "" [] "".

End Sample.

(** ** Go strings and integers *)

(** [int64] arithmetic wraps around. *)
Definition int64 (z : Z) : Z := (z + 2 ^ 63) mod 2 ^ 64 - 2 ^ 63.

Definition LF : ascii := "010"%char.
Definition CR : ascii := "013"%char.
Definition TAB : ascii := "009"%char.
Definition backslash : ascii := "092"%char.
Definition semicolon : ascii := "059"%char.
Definition dquote : ascii := "034"%char.

Module gostrings.

(** [strings.Contains(s, sub)] for a one-byte [sub]. *)
Fixpoint Contains (s : string) (c : ascii) : bool :=
  match s with
  | EmptyString => false
  | String d rest => if decide (d = c) then true else Contains rest c
  end.

(** [strings.ReplaceAll(s, old, repl)] for a two-byte [old] made of the bytes
    [a] and [b]: the occurrences are found from the left and do not overlap. *)
Fixpoint ReplaceAll (s : string) (a b : ascii) (repl : string) : string :=
  match s with
  | EmptyString => EmptyString
  | String c rest =>
      match rest with
      | EmptyString => String c EmptyString
      | String d rest' =>
          if decide (c = a ∧ d = b)
          then repl +:+ ReplaceAll rest' a b repl
          else String c (ReplaceAll rest a b repl)
      end
  end.

Fixpoint TrimLeft (s : string) (cutset : list ascii) : string :=
  match s with
  | EmptyString => EmptyString
  | String c rest => if decide (c ∈ cutset) then TrimLeft rest cutset else s
  end.

Fixpoint TrimRight (s : string) (cutset : list ascii) : string :=
  match s with
  | EmptyString => EmptyString
  | String c rest =>
      match TrimRight rest cutset with
      | EmptyString => if decide (c ∈ cutset) then EmptyString else String c EmptyString
      | r => String c r
      end
  end.

(** [strings.Trim(s, cutset)]: all leading and trailing bytes of the cutset. *)
Definition Trim (s : string) (cutset : list ascii) : string :=
  TrimRight (TrimLeft s cutset) cutset.

(** [strings.Split(s, sep)] for a one-byte [sep]; the result is never empty. *)
Fixpoint Split (s : string) (sep : ascii) : list string :=
  match s with
  | EmptyString => [EmptyString]
  | String c rest =>
      if decide (c = sep) then EmptyString :: Split rest sep
      else match Split rest sep with
           | h :: t => String c h :: t
           | [] => [String c EmptyString]
           end
  end.

Fixpoint Join (elems : list string) (sep : string) : string :=
  match elems with
  | [] => EmptyString
  | [e] => e
  | e :: rest => e +:+ sep +:+ Join rest sep
  end.

Fixpoint hasPrefix (s prefix : string) : option string :=
  match prefix, s with
  | EmptyString, _ => Some s
  | String p prefix', String c rest =>
      if decide (c = p) then hasPrefix rest prefix' else None
  | String _ _, EmptyString => None
  end.

Definition TrimPrefix (s prefix : string) : string :=
  default s (hasPrefix s prefix).

(** The concatenation of the lines of a chunk. *)
Definition concat (l : list string) : string := foldr String.append EmptyString l.

End gostrings.

(** ** The parse tree of [pg_query] *)

Module pg_query.

Inductive SortByDir : Type :=
| SORTBY_DIR_UNDEFINED | SORTBY_DEFAULT | SORTBY_ASC | SORTBY_DESC | SORTBY_USING.

(** Of the sub-commands of ALTER TABLE the processor tells two apart; the
    others keep their enum number. *)
Inductive AlterTableType : Type :=
| AT_SetNotNull
| AT_AddConstraint
| AT_other (code : Z).

Record RangeVar : Type := mkRangeVar {
  Catalogname : string;
  Schemaname : string;
  Relname : string
}.

(** A non-nil [*pg_query.Node].  [Node_String_] holds the text that
    [String()] renders for the node; [Node_other] stands for every node kind
    the processor has no case for and holds its Go type name without the
    [Node_] prefix. *)
Inductive Node : Type :=
| Node_String_ (rendered : string)
| Node_Integer (Ival : Z)
| Node_AConst (Val : Node)
| Node_ResTarget (Name : string)
| Node_List (Items : list Node)
| Node_IndexElem (Name : string) (Ordering : SortByDir)
| Node_Constraint (c : Constraint)
| Node_ColumnDef (c : ColumnDef)
| Node_AlterTableCmd (c : AlterTableCmd)
| Node_SelectStmt (ValuesLists : list Node)
| Node_other (goType : string)
with Constraint : Type :=
| mkConstraintNode (Contype : ConstrType) (Conname : string)
    (Keys FkAttrs PkAttrs : list Node) (Pktable : option RangeVar)
with ColumnDef : Type :=
| mkColumnDef (Colname : string) (TypeName : option TypeName)
    (Constraints : list Node)
with TypeName : Type :=
| mkTypeName (Names Typmods ArrayBounds : list Node)
with AlterTableCmd : Type :=
| mkAlterTableCmd (Subtype : AlterTableType) (Name : string) (Def : option Node).

Definition Contype (c : Constraint) : ConstrType :=
  match c with mkConstraintNode t _ _ _ _ _ => t end.
Definition Conname (c : Constraint) : string :=
  match c with mkConstraintNode _ n _ _ _ _ => n end.
Definition Keys (c : Constraint) : list Node :=
  match c with mkConstraintNode _ _ k _ _ _ => k end.
Definition FkAttrs (c : Constraint) : list Node :=
  match c with mkConstraintNode _ _ _ f _ _ => f end.
Definition PkAttrs (c : Constraint) : list Node :=
  match c with mkConstraintNode _ _ _ _ p _ => p end.
Definition Pktable (c : Constraint) : option RangeVar :=
  match c with mkConstraintNode _ _ _ _ _ t => t end.

Definition Colname (c : ColumnDef) : string :=
  match c with mkColumnDef n _ _ => n end.
Definition ColTypeName (c : ColumnDef) : option TypeName :=
  match c with mkColumnDef _ t _ => t end.
Definition Constraints (c : ColumnDef) : list Node :=
  match c with mkColumnDef _ _ cs => cs end.

Definition Names (t : TypeName) : list Node :=
  match t with mkTypeName n _ _ => n end.
Definition Typmods (t : TypeName) : list Node :=
  match t with mkTypeName _ m _ => m end.
Definition ArrayBounds (t : TypeName) : list Node :=
  match t with mkTypeName _ _ b => b end.

Definition Subtype (a : AlterTableCmd) : AlterTableType :=
  match a with mkAlterTableCmd s _ _ => s end.
Definition CmdName (a : AlterTableCmd) : string :=
  match a with mkAlterTableCmd _ n _ => n end.
Definition Def (a : AlterTableCmd) : option Node :=
  match a with mkAlterTableCmd _ _ d => d end.

Record AlterTableStmt : Type := mkAlterTableStmt {
  AlterRelation : option RangeVar;
  Cmds : list Node
}.

Record CopyStmt : Type := mkCopyStmt {
  CopyRelation : option RangeVar;
  Attlist : list Node
}.

Record CreateStmt : Type := mkCreateStmt {
  CreateRelation : option RangeVar;
  InhRelations : list Node;
  TableElts : list Node
}.

(** [SelectStmt] is nil for INSERT ... DEFAULT VALUES. *)
Record InsertStmt : Type := mkInsertStmt {
  InsertRelation : option RangeVar;
  Cols : list Node;
  SelectStmt : option Node
}.

Record VariableSetStmt : Type := mkVariableSetStmt {
  VarName : string;
  Args : list Node
}.

Record IndexStmt : Type := mkIndexStmt {
  IndexRelation : option RangeVar;
  Idxname : string;
  IdxUnique : bool;
  IndexParams : list Node
}.

(** [RawStmt.Stmt], by the cases of the dispatcher; [Stmt_other] holds the Go
    type name of any other statement node. *)
Inductive RawStmt : Type :=
| Node_AlterTableStmt (n : AlterTableStmt)
| Node_CopyStmt (n : CopyStmt)
| Node_CreateStmt (n : CreateStmt)
| Node_InsertStmt (n : InsertStmt)
| Node_VariableSetStmt (n : VariableSetStmt)
| Node_IndexStmt (n : IndexStmt)
| Stmt_other (goType : string).

End pg_query.

(** [printNodeType] of the value held by a node (its Go type name without
    the [*pg_query.] and [Node_] prefixes). *)
Definition printNodeType (n : pg_query.Node) : string :=
  match n with
  | pg_query.Node_String_ _ => "String_"
  | pg_query.Node_Integer _ => "Integer"
  | pg_query.Node_AConst _ => "AConst"
  | pg_query.Node_ResTarget _ => "ResTarget"
  | pg_query.Node_List _ => "List"
  | pg_query.Node_IndexElem _ _ => "IndexElem"
  | pg_query.Node_Constraint _ => "Constraint"
  | pg_query.Node_ColumnDef _ => "ColumnDef"
  | pg_query.Node_AlterTableCmd _ => "AlterTableCmd"
  | pg_query.Node_SelectStmt _ => "SelectStmt"
  | pg_query.Node_other ty => ty
  end.

(** [printNodeType] of a [*pg_query.Node] itself. *)
Definition printNodeType_Node : string := "Node".

(** ** The line reader [internal.Reader] *)

(** Modelled from the spec: the Reader of package [internal] (not among the
    sources), "a line-oriented streaming cursor over a dump byte source" that
    "tracks line number, byte offset, end-of-stream".  The bytes still to be
    read are held as the complete lines [pending] (each ends with its line
    feed) followed by the bytes [fragment] after the last line feed.
    [ReadLine] hands out the next line; when none is left it hands out the
    fragment and raises [EOF]. *)
Record Reader : Type := mkReader {
  pending : list string;
  fragment : string;
  LineNumber : Z;
  Offset : Z;
  EOF : bool
}.

Definition ReadLine (r : Reader) : string * Reader :=
  match pending r with
  | b :: rest =>
      (b, mkReader rest (fragment r) (int64 (LineNumber r + 1))
            (int64 (Offset r + Z.of_nat (String.length b))) (EOF r))
  | [] =>
      (fragment r,
       mkReader [] EmptyString (int64 (LineNumber r + 1))
         (int64 (Offset r + Z.of_nat (String.length (fragment r)))) true)
  end.

(** The lines of a byte source: the complete lines and the rest. *)
Fixpoint splitLines (s : string) : list string * string :=
  match s with
  | EmptyString => ([], EmptyString)
  | String c rest =>
      let '(ls, frag) := splitLines rest in
      if decide (c = LF) then (String c EmptyString :: ls, frag)
      else match ls with
           | l :: ls' => (String c l :: ls', frag)
           | [] => ([], String c frag)
           end
  end.

Definition NewReader (input : string) : Reader :=
  let '(ls, frag) := splitLines input in mkReader ls frag 0 0 false.

(** ** Leaves of the statement processor *)

Import pg_query.

(** A Go [(value, error)] pair: the value, or the error's message. *)
Definition errorOr (A : Type) : Type := A + string.

Definition trimEscapeChars (s : string) : string :=
  gostrings.ReplaceAll s backslash "n" (String LF EmptyString).

(** [s[:len(s)-1]] when the last byte is a double quote. *)
Fixpoint trimLastQuote (s : string) : string :=
  match s with
  | EmptyString => EmptyString
  | String c EmptyString => if decide (c = dquote) then EmptyString else s
  | String c rest => String c (trimLastQuote rest)
  end.

Definition trimQuote (s : string) : string :=
  let s :=
    match s with
    | String c rest => if decide (c = dquote) then rest else s
    | EmptyString => s
    end in
  trimLastQuote s.

(** [trimString] of a string node, from the text [String()] renders. *)
Definition trimString (rendered : string) : string :=
  trimQuote (trimEscapeChars (gostrings.TrimPrefix rendered "str:")).

Definition getString (node : Node) : errorOr string :=
  match node with
  | Node_String_ s => inl (trimString s)
  | n => inr ("node " +:+ printNodeType n +:+ " is a not String node")
  end.

Definition logStmtError (nodeType err : string) (conv : Conv) : Conv :=
  ErrorInStatement nodeType
    (Unexpected ("Processing " +:+ nodeType +:+ " statement: " +:+ err) conv).

Definition getTableName (n : RangeVar) : errorOr string :=
  let l := if decide (Catalogname n ≠ EmptyString) then [Catalogname n] else [] in
  let l :=
    if decide (Schemaname n ≠ EmptyString ∧ Schemaname n ≠ "public")
    then l ++ [Schemaname n] else l in
  if decide (Relname n = EmptyString)
  then inr "relname is empty: can't build table name"
  else inl (gostrings.Join (l ++ [Relname n]) ".").

Fixpoint getTypeMods (conv : Conv) (t : list Node) (l : list Z) : Conv * list Z :=
  match t with
  | [] => (conv, l)
  | x :: rest =>
      match x with
      | Node_AConst (Node_Integer i) => getTypeMods conv rest (l ++ [i])
      | Node_AConst t2 =>
          getTypeMods
            (Unexpected ("Found " +:+ printNodeType t2 +:+ " node while processing Typmods") conv)
            rest l
      | t1 =>
          getTypeMods
            (Unexpected ("Found " +:+ printNodeType t1 +:+ " node while processing Typmods") conv)
            rest l
      end
  end.

Fixpoint getArrayBounds (conv : Conv) (t : list Node) (l : list Z) : Conv * list Z :=
  match t with
  | [] => (conv, l)
  | x :: rest =>
      match x with
      | Node_Integer i => getArrayBounds conv rest (l ++ [i])
      | _ =>
          getArrayBounds
            (Unexpected ("Found " +:+ printNodeType_Node +:+ " node while processing ArrayBounds") conv)
            rest l
      end
  end.

Fixpoint getTypeID_ids (nodes : list Node) (ids : list string) : errorOr (list string) :=
  match nodes with
  | [] => inl ids
  | node :: rest =>
      match getString node with
      | inr err => inr err
      | inl s => getTypeID_ids rest (ids ++ [s])
      end
  end.

Definition getTypeID (nodes : list Node) : errorOr string :=
  match getTypeID_ids nodes [] with
  | inr err => inr err
  | inl ids =>
      let ids :=
        match ids with
        | first :: (_ :: _) as others =>
            if decide (first = "pg_catalog") then others else ids
        | _ => ids
        end in
      inl (gostrings.Join ids ".")
  end.

(** The three loops of [extractConstraints] that collect the string nodes of
    a key list; a node that is no string is reported and left out. *)
Fixpoint collectKeys (errType what : string) (conv : Conv) (attrs : list Node)
    (acc : list string) : Conv * list string :=
  match attrs with
  | [] => (conv, acc)
  | attr :: rest =>
      match getString attr with
      | inr err =>
          collectKeys errType what
            (ErrorInStatement errType
               (Unexpected ("Processing " +:+ what +:+
                            " statement: error processing constraints: " +:+ err) conv))
            rest acc
      | inl k => collectKeys errType what conv rest (acc ++ [k])
      end
  end.

Fixpoint extractConstraints (conv : Conv) (stmtType table : string) (l : list Node)
    (cs : list constraint) : outcome (Conv * list constraint) :=
  match l with
  | [] => Returns (conv, cs)
  | i :: rest =>
      match i with
      | Node_Constraint c =>
          match Contype c with
          | CONSTR_FOREIGN =>
              match Pktable c with
              | None => Panics
              | Some pk =>
                  match getTableName pk with
                  | inr err =>
                      extractConstraints
                        (ErrorInStatement "Constraint"
                           (Unexpected ("Processing Constraint statement: " +:+
                                        "error processing constraints: " +:+ err) conv))
                        stmtType table rest cs
                  | inl t =>
                      let '(conv, cols) :=
                        collectKeys "Constraint" "Constraint" conv (FkAttrs c) [] in
                      let '(conv, referCols) :=
                        collectKeys "Constraint" "Constraint" conv (PkAttrs c) [] in
                      extractConstraints conv stmtType table rest
                        (cs ++ [mkConstraint (Contype c) cols (Conname c) referCols t])
                  end
              end
          | _ =>
              let '(conv, cols) :=
                collectKeys (printNodeType_Node +:+ "." +:+ "Constraint") "Constraint"
                  conv (Keys c) [] in
              extractConstraints conv stmtType table rest
                (cs ++ [mkConstraint (Contype c) cols (Conname c) [] EmptyString])
          end
      | d =>
          extractConstraints
            (Unexpected ("Processing " +:+ stmtType +:+ " statement: found " +:+
                         printNodeType d +:+ " node while processing constraints" +:+
                         String LF EmptyString) conv)
            stmtType table rest cs
      end
  end.

Fixpoint analyzeColDefConstraints_loop (conv : Conv) (extracted : list constraint)
    (pgCol : string) (cs : list constraint) : Conv * list constraint :=
  match extracted with
  | [] => (conv, cs)
  | c :: rest =>
      let conv :=
        if decide (length (cols c) ≠ 0%nat)
        then Unexpected "ColumnDef constraint has keys" conv else conv in
      analyzeColDefConstraints_loop conv rest pgCol
        (cs ++ [mkConstraint (ct c) [pgCol] (name c) (referCols c) (referTable c)])
  end.

Definition analyzeColDefConstraints (conv : Conv) (stmtType table : string)
    (l : list Node) (pgCol : string) : outcome (Conv * list constraint) :=
  r <-! extractConstraints conv stmtType table l [] ;;
  Returns (analyzeColDefConstraints_loop r.1 r.2 pgCol []).

Definition processColumn (conv : Conv) (n : ColumnDef) (table : string)
  : outcome (Conv * errorOr (string * schema.Column * list constraint)) :=
  match ColTypeName n with
  | None => Panics
  | Some tn =>
      let '(conv, mods) := getTypeMods conv (Typmods tn) [] in
      if decide (Colname n = EmptyString)
      then Returns (conv, inr "colname is empty string")
      else
        let name := Colname n in
        match getTypeID (Names tn) with
        | inr err =>
            Returns (conv, inr ("can't get type id for " +:+ name +:+ ": " +:+ err))
        | inl tid =>
            let '(conv, bounds) := getArrayBounds conv (ArrayBounds tn) [] in
            let ty := schema.mkType tid mods bounds in
            r <-! analyzeColDefConstraints conv "ColumnDef" table (Constraints n) name ;;
            Returns (r.1, inl (name, schema.mkColumn name ty false false, r.2))
        end
  end.

Fixpoint toIndexKeys (conv : Conv) (idxName : string) (s : list Node)
    (l : list schema.Key) : Conv * list schema.Key :=
  match s with
  | [] => (conv, l)
  | k :: rest =>
      match k with
      | Node_IndexElem nm ord =>
          if decide (nm = EmptyString)
          then toIndexKeys
                 (Unexpected ("Failed to process index " +:+ idxName +:+
                              ": empty index column name") conv)
                 idxName rest l
          else
            let desc := match ord with SORTBY_DESC => true | _ => false end in
            toIndexKeys conv idxName rest (l ++ [schema.mkKey nm desc])
      | _ => toIndexKeys conv idxName rest l
      end
  end.

Fixpoint getCols (nodes : list Node) (cols : list string) : errorOr (list string) :=
  match nodes with
  | [] => inl cols
  | n :: rest =>
      match n with
      | Node_ResTarget nm =>
          getCols rest (if decide (nm ≠ EmptyString) then cols ++ [nm] else cols)
      | r =>
          inr ("expecting ResTarget node but got " +:+ printNodeType r +:+
               " node while processing Cols")
      end
  end.

(** [strconv.FormatInt(int64(i), 10)] *)
Definition FormatInt (i : Z) : string := pretty i.

Fixpoint getRows_values (conv : Conv) (items : list Node) (values : list string)
  : Conv * list string :=
  match items with
  | [] => (conv, values)
  | v :: rest =>
      match v with
      | Node_AConst (Node_String_ s) =>
          getRows_values conv rest (values ++ [trimString s])
      | Node_AConst (Node_Integer i) =>
          getRows_values conv rest (values ++ [FormatInt i])
      | Node_AConst c =>
          getRows_values
            (Unexpected ("Processing InsertStmt statement: found " +:+ printNodeType c +:+
                         " node for A_Const Val") conv)
            rest values
      | val =>
          getRows_values
            (Unexpected ("Processing InsertStmt statement: found " +:+ printNodeType val +:+
                         " node for ValuesList.Val") conv)
            rest values
      end
  end.

Fixpoint getRows (conv : Conv) (vll : list Node) (rows : list (list string))
  : Conv * list (list string) :=
  match vll with
  | [] => (conv, rows)
  | vl :: rest =>
      let '(conv, values) :=
        match vl with
        | Node_List items => getRows_values conv items []
        | vals =>
            (Unexpected ("Processing InsertStmt statement: found " +:+ printNodeType vals +:+
                         " in ValuesList") conv, [])
        end in
      getRows conv rest (rows ++ [values])
  end.

(** ** Statement handlers *)

Inductive stmtType : Type := copyFrom | insert.

Record copyOrInsert : Type := mkCopyOrInsert {
  stmt : stmtType;
  table : string;
  ci_cols : list string;
  rows : list (list string)
}.

(** The loop of [processCreateStmt] over the table elements; [None] when a
    column could not be processed (the statement is then abandoned). *)
Fixpoint processCreateStmt_elts (conv : Conv) (table : string) (elts : list Node)
    (colNames : list string) (colDef : gmap string schema.Column)
    (constraints : list constraint)
  : outcome (Conv * option (list string * gmap string schema.Column * list constraint)) :=
  match elts with
  | [] => Returns (conv, Some (colNames, colDef, constraints))
  | te :: rest =>
      match te with
      | Node_ColumnDef cd =>
          r <-! processColumn conv cd table ;;
          match r.2 with
          | inr err => Returns (logStmtError "CreateStmt" err r.1, None)
          | inl (name, col, cdConstraints) =>
              processCreateStmt_elts r.1 table rest (colNames ++ [name])
                (<[name := col]> colDef) (constraints ++ cdConstraints)
          end
      | Node_Constraint _ =>
          r <-! extractConstraints conv "CreateStmt" table [te] [] ;;
          processCreateStmt_elts r.1 table rest colNames colDef (constraints ++ r.2)
      | _ =>
          processCreateStmt_elts
            (Unexpected ("Found " +:+ printNodeType_Node +:+
                         " node while processing CreateStmt TableElts") conv)
            table rest colNames colDef constraints
      end
  end.

Definition processCreateStmt (conv : Conv) (n : CreateStmt) : outcome Conv :=
  match CreateRelation n with
  | None => Returns (logStmtError "CreateStmt" "relation is nil" conv)
  | Some rel =>
      match getTableName rel with
      | inr err =>
          Returns (logStmtError "CreateStmt" ("can't get table name: " +:+ err) conv)
      | inl table =>
          if decide (0 < length (InhRelations n))%nat
          then
            Returns
              (VerbosePrintf ("Processing CreateStmt statement: table " +:+ table +:+
                              " is inherited table")
                 (Unexpected ("Found inherited table " +:+ table +:+
                              " -- we do not currently handle inherited tables")
                    (SkipStatement "CreateStmt" conv)))
          else
            r <-! processCreateStmt_elts conv table (TableElts n) [] ∅ [] ;;
            match r.2 with
            | None => Returns r.1
            | Some (colNames, colDef, constraints) =>
                let conv := SchemaStatement "CreateStmt" r.1 in
                let conv :=
                  setSrcTable table
                    (schema.mkTable table colNames (Some colDef) [] [] []) conv in
                updateSchema conv table constraints "CREATE TABLE"
            end
      end
  end.

(** One sub-command of ALTER TABLE on a table of the source schema. *)
Definition processAlterTableCmd (conv : Conv) (table : string) (i : Node)
  : outcome Conv :=
  match i with
  | Node_AlterTableCmd a =>
      match Subtype a, Def a with
      | AT_SetNotNull, _ =>
          if decide (CmdName a ≠ EmptyString)
          then
            let c := mkConstraint CONSTR_NOTNULL [CmdName a] EmptyString [] EmptyString in
            conv <-! updateSchema conv table [c] "ALTER TABLE" ;;
            Returns (SchemaStatement
                       (gostrings.Join ["AlterTableStmt"; "AlterTableCmd"] ".") conv)
          else
            Returns (SkipStatement
                       (gostrings.Join ["AlterTableStmt"; "AlterTableCmd"] ".") conv)
      | AT_AddConstraint, Some def =>
          match def with
          | Node_Constraint _ =>
              r <-! extractConstraints conv "AlterTableStmt" table [def] [] ;;
              conv <-! updateSchema r.1 table r.2 "ALTER TABLE" ;;
              Returns (SchemaStatement
                         (gostrings.Join
                            ["AlterTableStmt"; "AlterTableCmd"; "Constraint"] ".") conv)
          | at_ =>
              Returns (SkipStatement
                         (gostrings.Join
                            ["AlterTableStmt"; "AlterTableCmd"; printNodeType at_] ".") conv)
          end
      | _, _ =>
          Returns (SkipStatement
                     (gostrings.Join ["AlterTableStmt"; "AlterTableCmd"] ".") conv)
      end
  | t =>
      Returns (SkipStatement
                 (gostrings.Join ["AlterTableStmt"; printNodeType t] ".") conv)
  end.

Fixpoint processAlterTableCmds (conv : Conv) (table : string) (cmds : list Node)
  : outcome Conv :=
  match cmds with
  | [] => Returns conv
  | i :: rest =>
      conv <-! processAlterTableCmd conv table i ;;
      processAlterTableCmds conv table rest
  end.

Definition processAlterTableStmt (conv : Conv) (n : AlterTableStmt) : outcome Conv :=
  match AlterRelation n with
  | None => Returns (logStmtError "AlterTableStmt" "relation is nil" conv)
  | Some rel =>
      match getTableName rel with
      | inr err =>
          Returns (logStmtError "AlterTableStmt" ("can't get table name: " +:+ err) conv)
      | inl table =>
          match SrcSchema conv !! table with
          | Some _ => processAlterTableCmds conv table (Cmds n)
          | None =>
              Returns
                (VerbosePrintf ("Processing AlterTableStmt statement: table " +:+
                                table +:+ " not found")
                   (SkipStatement "AlterTableStmt" conv))
          end
      end
  end.

Definition processIndexStmt (conv : Conv) (n : IndexStmt) : Conv :=
  match IndexRelation n with
  | None =>
      logStmtError "IndexStmt" "cannot process index statement with nil relation" conv
  | Some rel =>
      match getTableName rel with
      | inr err => logStmtError "IndexStmt" ("can't get table name: " +:+ err) conv
      | inl tableName =>
          match SrcSchema conv !! tableName with
          | Some ctable =>
              let '(conv, keys) := toIndexKeys conv (Idxname n) (IndexParams n) [] in
              setSrcTable tableName
                (schema.setIndexes ctable
                   (schema.Indexes ctable ++
                    [schema.mkIndex (Idxname n) (IdxUnique n) keys]))
                conv
          | None =>
              SkipStatement "IndexStmt"
                (Unexpected ("Table " +:+ tableName +:+
                             " not found while processing index statement") conv)
          end
      end
  end.

Definition processInsertStmt (conv : Conv) (n : InsertStmt)
  : outcome (Conv * option copyOrInsert) :=
  match InsertRelation n with
  | None => Returns (logStmtError "InsertStmt" "relation is nil" conv, None)
  | Some rel =>
      match getTableName rel with
      | inr err =>
          Returns (logStmtError "InsertStmt" ("can't get table name: " +:+ err) conv, None)
      | inl table =>
          match SrcSchema conv !! table with
          | None =>
              Returns
                (VerbosePrintf ("Processing InsertStmt statement: table " +:+
                                table +:+ " not found")
                   (SkipStatement "InsertStmt" conv), None)
          | Some _ =>
              let conv := StatsAddRow table (SchemaMode conv) conv in
              match getCols (Cols n) [] with
              | inr err =>
                  let conv :=
                    logStmtError "InsertStmt" ("can't get col name: " +:+ err) conv in
                  Returns (StatsAddBadRow table (SchemaMode conv) conv, None)
              | inl colNames =>
                  match SelectStmt n with
                  | None => Panics
                  | Some (Node_SelectStmt valuesLists) =>
                      let '(conv, rows) := getRows conv valuesLists [] in
                      let conv := DataStatement "SelectStmt" conv in
                      if DataMode conv
                      then Returns (conv, Some (mkCopyOrInsert insert table colNames rows))
                      else Returns (conv, None)
                  | Some sel =>
                      Returns
                        (Unexpected ("Found " +:+ printNodeType sel +:+
                                     " node while processing InsertStmt SelectStmt") conv,
                         None)
                  end
              end
          end
      end
  end.

Fixpoint processCopyStmt_attlist (conv : Conv) (attlist : list Node)
    (cols : list string) : Conv * list string :=
  match attlist with
  | [] => (conv, cols)
  | a :: rest =>
      match getString a with
      | inr err =>
          processCopyStmt_attlist
            (Unexpected ("Processing CopyStmt statement Attlist: " +:+ err) conv)
            rest (cols ++ ["BOGUS_COPY_FROM_COLUMN"])
      | inl s => processCopyStmt_attlist conv rest (cols ++ [s])
      end
  end.

Definition processCopyStmt (conv : Conv) (n : CopyStmt) : Conv * copyOrInsert :=
  let '(conv, table) :=
    match CopyRelation n with
    | Some rel =>
        match getTableName rel with
        | inr err =>
            (Unexpected ("Processing CopyStmt statement: " +:+ err) conv, EmptyString)
        | inl table => (conv, table)
        end
    | None => (logStmtError "CopyStmt" "relation is nil" conv, "BOGUS_COPY_FROM_TABLE")
    end in
  match SrcSchema conv !! table with
  | None =>
      (VerbosePrintf ("Processing CopyStmt statement: table " +:+ table +:+ " not found")
         (SkipStatement "CopyStmt" conv),
       mkCopyOrInsert copyFrom table [] [])
  | Some _ =>
      let '(conv, cols) := processCopyStmt_attlist conv (Attlist n) [] in
      (DataStatement "CopyStmt" conv, mkCopyOrInsert copyFrom table cols [])
  end.

Section StatementProcessor.

(** [time.LoadLocation]: the location that the name loads, or the error. *)
Variable LoadLocation : string -> errorOr Location.

(** [pg_query.Parse]: the statements of the text, [None] on a parse error. *)
Variable Parse : string -> option (list RawStmt).

Definition processVariableSetStmt (conv : Conv) (n : VariableSetStmt) : Conv :=
  if decide (VarName n = "timezone")
  then
    match Args n with
    | [arg] =>
        match arg with
        | Node_AConst val =>
            match getString val with
            | inr err => logStmtError "AConst" ("can't get Arg: " +:+ err) conv
            | inl tz =>
                match LoadLocation tz with
                | inr err => logStmtError "AConst" err conv
                | inl loc => SetLocation loc conv
                end
            end
        | c =>
            logStmtError printNodeType_Node
              ("found " +:+ printNodeType c +:+ " node in Arg") conv
        end
    | _ => conv
    end
  else conv.

(** [processStatements]; the list argument is the rest of the batch, so the
    test [i != len(rawStmts)-1] reads "the rest after this statement is not
    empty". *)
Fixpoint processStatements (conv : Conv) (rawStmts : list RawStmt)
  : outcome (Conv * option copyOrInsert) :=
  match rawStmts with
  | [] => Returns (conv, None)
  | rawStmt :: rest =>
      match rawStmt with
      | Node_AlterTableStmt n =>
          if SchemaMode conv
          then conv <-! processAlterTableStmt conv n ;; processStatements conv rest
          else processStatements conv rest
      | Node_CopyStmt n =>
          let conv :=
            match rest with
            | [] => conv
            | _ :: _ =>
                ErrorInStatement "CopyStmt"
                  (Unexpected ("CopyFrom is not the last statement in batch: " +:+
                               "ignoring following statements") conv)
            end in
          let '(conv, ci) := processCopyStmt conv n in
          Returns (conv, Some ci)
      | Node_CreateStmt n =>
          if SchemaMode conv
          then conv <-! processCreateStmt conv n ;; processStatements conv rest
          else processStatements conv rest
      | Node_InsertStmt n => processInsertStmt conv n
      | Node_VariableSetStmt n =>
          if SchemaMode conv
          then processStatements (processVariableSetStmt conv n) rest
          else processStatements conv rest
      | Node_IndexStmt n =>
          if SchemaMode conv
          then processStatements (processIndexStmt conv n) rest
          else processStatements conv rest
      | Stmt_other ty => processStatements (SkipStatement ty conv) rest
      end
  end.

(** ** Chunks and copy blocks *)

(** What [readAndParseChunk] returns: the bytes and the statements, or the
    error. *)
Inductive chunk : Type :=
| Parsed (s : string) (stmts : list RawStmt)
| ParseError (msg : string).

Definition incReparsed (conv : Conv) : Conv :=
  mkConv (mode conv) (SrcSchema conv) (int64 (Reparsed conv + 1)) (calls conv)
    (verbose conv) (SpSchema conv) (SyntheticPKeys conv).

(** The loop of [readAndParseChunk], [l] being the lines read so far.  Every
    round reads a line; [fuel] bounds the rounds ([None] when it runs out). *)
Fixpoint readAndParseChunk_loop (fuel : nat) (conv : Conv) (r : Reader)
    (l : list string) : option (Conv * Reader * chunk) :=
  match fuel with
  | O => None
  | S fuel' =>
      let '(b, r) := ReadLine r in
      let l := l ++ [b] in
      let attempt :=
        if gostrings.Contains b semicolon || EOF r
        then
          let s := gostrings.concat l in
          match Parse s with
          | Some stmts => inl (Parsed s stmts)
          | None => inr (incReparsed conv)
          end
        else inr conv in
      match attempt with
      | inl res => Some (conv, r, res)
      | inr conv =>
          if EOF r
          then Some (conv, r,
                     ParseError ("error parsing last " +:+ pretty (length l) +:+
                                 " line(s) of input"))
          else readAndParseChunk_loop fuel' conv r l
      end
  end.

Definition readAndParseChunk (conv : Conv) (r : Reader)
  : option (Conv * Reader * chunk) :=
  readAndParseChunk_loop (S (length (pending r))) conv r [].

Definition endOfCopy (b : string) : bool :=
  bool_decide (b = "\." +:+ String LF EmptyString
               ∨ b = "\." +:+ String CR (String LF EmptyString)).

(** The values of a copy-block line. *)
Definition copyBlockValues (b : string) : list string :=
  let s := gostrings.ReplaceAll b backslash backslash (String backslash EmptyString) in
  gostrings.Split (gostrings.Trim s [CR; LF]) TAB.

Fixpoint processCopyBlock_loop (fuel : nat) (conv : Conv) (srcTable : string)
    (srcCols : list string) (r : Reader) : option (Conv * Reader) :=
  match fuel with
  | O => None
  | S fuel' =>
      let '(b, r) := ReadLine r in
      if endOfCopy b
      then Some (VerbosePrintf
                   ("Parsed COPY-FROM stdin block ending at line=" +:+
                    pretty (LineNumber r) +:+ "/fpos=" +:+ pretty (Offset r) +:+
                    String LF EmptyString) conv, r)
      else if EOF r
      then Some (Unexpected "Reached eof while parsing copy-block" conv, r)
      else
        let conv := StatsAddRow srcTable (SchemaMode conv) conv in
        if negb (DataMode conv)
        then processCopyBlock_loop fuel' conv srcTable srcCols r
        else
          processCopyBlock_loop fuel'
            (ProcessDataRow srcTable srcCols (copyBlockValues b) conv)
            srcTable srcCols r
  end.

Definition processCopyBlock (conv : Conv) (srcTable : string) (srcCols : list string)
    (r : Reader) : option (Conv * Reader) :=
  processCopyBlock_loop (S (length (pending r)))
    (VerbosePrintf
       ("Parsing COPY-FROM stdin block starting at line=" +:+
        pretty (LineNumber r) +:+ "/fpos=" +:+ pretty (Offset r) +:+
        String LF EmptyString) conv)
    srcTable srcCols r.

(** ** The driver *)

Fixpoint processInsertRows (conv : Conv) (ci : copyOrInsert)
    (rows : list (list string)) : Conv :=
  match rows with
  | [] => conv
  | vals :: rest =>
      let conv :=
        if decide (length (ci_cols ci) = 0%nat)
        then ProcessDataRow (table ci)
               (schema.ColNames (srcTable conv (table ci))) vals conv
        else ProcessDataRow (table ci) (ci_cols ci) vals conv in
      processInsertRows conv ci rest
  end.

(** What [processPgDump] does with the result of [processStatements]. *)
Definition processCopyOrInsert (conv : Conv) (ci : option copyOrInsert) (r : Reader)
  : option (Conv * Reader) :=
  match ci with
  | None => Some (conv, r)
  | Some ci =>
      match stmt ci with
      | copyFrom => processCopyBlock conv (table ci) (ci_cols ci) r
      | insert => Some (processInsertRows conv ci (rows ci), r)
      end
  end.

(** The outcome of a run: finished, stopped by a parse error, or crashed. *)
Inductive run : Type :=
| Finished (conv : Conv) (r : Reader)
| Failed (conv : Conv) (r : Reader) (err : string)
| Crashed.

Fixpoint processPgDump_loop (fuel : nat) (conv : Conv) (r : Reader) : option run :=
  match fuel with
  | O => None
  | S fuel' =>
      let startLine := LineNumber r in
      let startOffset := Offset r in
      match readAndParseChunk conv r with
      | None => None
      | Some (conv, r, ParseError err) => Some (Failed conv r err)
      | Some (conv, r, Parsed b stmts) =>
          match processStatements conv stmts with
          | Panics => Some Crashed
          | Returns (conv, ci) =>
              let conv :=
                VerbosePrintf
                  ("Parsed SQL command at line=" +:+ pretty startLine +:+
                   "/fpos=" +:+ pretty startOffset +:+ ": " +:+
                   pretty (length stmts) +:+ " stmts (" +:+
                   pretty (int64 (LineNumber r - startLine)) +:+ " lines, " +:+
                   pretty (String.length b) +:+ " bytes) ci=" +:+
                   match ci with Some _ => "true" | None => "false" end +:+
                   String LF EmptyString)
                  conv in
              match processCopyOrInsert conv ci r with
              | None => None
              | Some (conv, r) =>
                  if EOF r then Some (Finished conv r)
                  else processPgDump_loop fuel' conv r
              end
          end
      end
  end.

Definition processPgDump (conv : Conv) (r : Reader) : option run :=
  processPgDump_loop (S (length (pending r))) conv r.

End StatementProcessor.

(** ** Reading ahead: what a loop over the reader sees *)

(** [n] successive [ReadLine]s: the lines, each with the end-of-stream flag
    that the reader shows after it, and the reader that is left. *)
Fixpoint readLines (n : nat) (r : Reader) : list (string * bool) * Reader :=
  match n with
  | O => ([], r)
  | S n' =>
      let '(b, r1) := ReadLine r in
      let '(rest, r2) := readLines n' r1 in
      ((b, EOF r1) :: rest, r2)
  end.

Section ParseAttempts.

Variable Parse : string -> option (list RawStmt).

(** A parse is attempted after a line that holds a semicolon or ends the
    stream; [failedParses l reads] counts the attempts that fail while the
    lines of [reads] are added one by one to the buffer [l]. *)
Fixpoint failedParses (l : list string) (reads : list (string * bool)) : nat :=
  match reads with
  | [] => O
  | (b, eof) :: rest =>
      let l := l ++ [b] in
      ((if (gostrings.Contains b semicolon || eof)
           && bool_decide (Parse (gostrings.concat l) = None)
        then 1 else 0) + failedParses l rest)%nat
  end.

End ParseAttempts.

(** ** Reading the call log *)

(** A state with further calls logged. *)
Definition logCalls (cs : list Call) (conv : Conv) : Conv :=
  mkConv (mode conv) (SrcSchema conv) (Reparsed conv) (calls conv ++ cs)
    (verbose conv) (SpSchema conv) (SyntheticPKeys conv).

(** The calls that [processCopyBlock] makes for the data lines [lines] of a
    block: the row is counted, and in data mode its values are converted. *)
Definition copyBlockCalls (conv : Conv) (srcTable : string) (srcCols : list string)
    (lines : list string) : list Call :=
  flat_map
    (λ b, CallStatsAddRow srcTable (SchemaMode conv) ::
          (if DataMode conv
           then [CallProcessDataRow srcTable srcCols (copyBlockValues b)]
           else []))
    lines.

(** Modelled from the spec: the per-table row counter of [Conv], which
    [StatsAddRow] (package [internal], not among the sources) maintains.
    Following section 4.5, "every line read increments the destination
    table's row counter regardless of mode": each [StatsAddRow] call for the
    table counts one row, whatever flag it carries. *)
Definition isStatsAddRow (t : string) (c : Call) : bool :=
  match c with
  | CallStatsAddRow t' _ => bool_decide (t' = t)
  | _ => false
  end.
Definition rowsCounted (t : string) (cs : list Call) : nat :=
  length (List.filter (isStatsAddRow t) cs).

(** Calls that are all [Unexpected] diagnostics. *)
Definition diagnosticsOnly (cs : list Call) : Prop :=
  Forall (λ c, isUnexpected c = true) cs.

(** The rows handed to the data-row converter, in order. *)
Definition isProcessDataRow (c : Call) : bool :=
  match c with CallProcessDataRow _ _ _ => true | _ => false end.
Definition rowsConverted (cs : list Call) : list Call :=
  List.filter isProcessDataRow cs.

(** ** The text format of a copy block *)

(** How a copy block writes a value: every backslash is doubled (see the
    comment in [processCopyBlock]). *)
Fixpoint escapeBackslash (s : string) : string :=
  match s with
  | EmptyString => EmptyString
  | String c rest =>
      if decide (c = backslash)
      then String backslash (String backslash (escapeBackslash rest))
      else String c (escapeBackslash rest)
  end.

(** No byte of [s] is in [cut]. *)
Fixpoint avoids (s : string) (cut : list ascii) : bool :=
  match s with
  | EmptyString => true
  | String c rest => negb (bool_decide (c ∈ cut)) && avoids rest cut
  end.

(** Every byte of [s] is in [cut]. *)
Fixpoint onlyOf (s : string) (cut : list ascii) : bool :=
  match s with
  | EmptyString => true
  | String c rest => bool_decide (c ∈ cut) && onlyOf rest cut
  end.

Fixpoint lastByte (s : string) : option ascii :=
  match s with
  | EmptyString => None
  | String c EmptyString => Some c
  | String _ rest => lastByte rest
  end.

(** [s] neither begins nor ends with a byte of [cut]. *)
Definition startsOutside (s : string) (cut : list ascii) : Prop :=
  match s with
  | EmptyString => True
  | String c _ => c ∉ cut
  end.
Definition endsOutside (s : string) (cut : list ascii) : Prop :=
  match lastByte s with
  | None => True
  | Some c => c ∉ cut
  end.

(** The line that carries the values [fields], ended by [term]. *)
Definition copyBlockLine (fields : list string) (term : string) : string :=
  gostrings.Join (map escapeBackslash fields) (String TAB EmptyString) +:+ term.

Module SampleLines.

(** A line whose first value begins with a carriage return. *)
Definition crBody : string := String CR "x".
Definition crLine : string := crBody +:+ String LF EmptyString.

(** Two values: one with a backslash, one with spaces around it. *)
Definition fields : list string := ["a\b"; " c "].
Definition line : string := copyBlockLine fields (String LF EmptyString).

Definition dataConv : Conv := mkConv dataOnly ∅ 0 [] [] ∅ ∅.
Definition schemaConv : Conv := mkConv schemaOnly ∅ 0 [] [] ∅ ∅.

(** A reader at the start of a block of two data lines. *)
Definition block : Reader :=
  mkReader [line; crLine; "\." +:+ String LF EmptyString; "COMMIT;"] EmptyString 0 0 false.

(** The same block cut short by the end of the stream. *)
Definition cutBlock : Reader := mkReader [line; crLine] EmptyString 0 0 false.

End SampleLines.

(** ** Batches *)

Definition isCopyOrInsert (s : RawStmt) : bool :=
  match s with
  | Node_CopyStmt _ | Node_InsertStmt _ => true
  | _ => false
  end.

(** What [processStatements] records when a COPY is followed by further
    statements. *)
Definition copyNotLast (conv : Conv) : Conv :=
  ErrorInStatement "CopyStmt"
    (Unexpected ("CopyFrom is not the last statement in batch: " +:+
                 "ignoring following statements") conv).

Module SampleBatch.

Definition cartRel : RangeVar := mkRangeVar EmptyString "public" "cart".
Definition logRel : RangeVar := mkRangeVar EmptyString EmptyString "audit_log".

Definition str (s : string) : Node := Node_String_ ("str:" +:+ String dquote (s +:+ String dquote EmptyString)).

(** [INSERT INTO cart VALUES (7, 'x')] *)
Definition insertCart : InsertStmt :=
  mkInsertStmt (Some cartRel) []
    (Some (Node_SelectStmt [Node_List [Node_AConst (Node_Integer 7);
                                       Node_AConst (str "x")]])).

(** [INSERT INTO cart (qty, id) VALUES (1, 2), (3, 4)] *)
Definition insertCartCols : InsertStmt :=
  mkInsertStmt (Some cartRel) [Node_ResTarget "qty"; Node_ResTarget "id"]
    (Some (Node_SelectStmt
             [Node_List [Node_AConst (Node_Integer 1); Node_AConst (Node_Integer 2)];
              Node_List [Node_AConst (Node_Integer 3); Node_AConst (Node_Integer 4)]])).

(** [COPY cart (id, qty) FROM stdin] *)
Definition copyCart : CopyStmt := mkCopyStmt (Some cartRel) [str "id"; str "qty"].

(** [CREATE TABLE audit_log () INHERITS (log)] and statements on it. *)
Definition createLog : CreateStmt :=
  mkCreateStmt (Some logRel) [Node_other "RangeVar"] [].
Definition alterLog : AlterTableStmt :=
  mkAlterTableStmt (Some logRel)
    [Node_AlterTableCmd (mkAlterTableCmd AT_SetNotNull "at" None)].
Definition insertLog : InsertStmt :=
  mkInsertStmt (Some logRel) [] (Some (Node_SelectStmt [])).
Definition copyLog : CopyStmt := mkCopyStmt (Some logRel) [].

(** A [time.LoadLocation] without a zone database: it knows [UTC], which is
    also what the empty name loads, and nothing else. *)
Definition noZone (tz : string) : errorOr Location :=
  if decide (tz = EmptyString ∨ tz = "UTC") then inl "UTC"
  else inr ("unknown time zone " +:+ tz).

Definition dataConv : Conv := mkConv dataOnly (<["cart" := Sample.cart]> ∅) 0 [] [] ∅ ∅.

End SampleBatch.

(** ** The primary-key finalizer *)

(** Modelled from the spec: [Conv.AddPrimaryKeys] and its helper
    [buildPrimaryKey] (package [internal], of which only the test
    [TestAddPrimaryKeys] is among the sources).  Section 4.7: for every table
    of the target schema that lacks a primary key, a synthetic integer
    column is allocated, "named from a fixed base name disambiguated against
    existing column names in that table", appended to the column order and
    set as the table's sole primary key, and a per-table sequence counter
    starting at zero is registered.  The base name is the [synth_id] of the
    test; a taken name is disambiguated by a decimal counter after it. *)
Definition synthName (k : nat) : string :=
  match k with
  | O => "synth_id"
  | S j => "synth_id" +:+ pretty j
  end.

(** The first candidate from the [k]-th on that is no column of the table;
    a table with [n] columns cannot hold all of the first [n + 1]
    candidates, which bounds the search. *)
Fixpoint buildPrimaryKey_from (fuel k : nat) (names : list string) : string :=
  if decide (synthName k ∈ names)
  then match fuel with
       | O => synthName k
       | S fuel' => buildPrimaryKey_from fuel' (S k) names
       end
  else synthName k.

(** Modelled from the spec: [buildPrimaryKey] (package [internal], not among
    the sources), the synthetic column name "disambiguated against existing
    column names in that table". *)
Definition buildPrimaryKey (names : list string) : string :=
  buildPrimaryKey_from (length names) 0 names.

(** The table with its synthetic key column. *)
Definition withSyntheticKey (ct : ddl.CreateTable) (k : string) : ddl.CreateTable :=
  ddl.mkCreateTable (ddl.Name ct) (ddl.ColNames ct ++ [k])
    (<[k := ddl.mkColumnDef k (ddl.mkType ddl.Int64)]> (ddl.ColDefs ct))
    [ddl.mkIndexKey k false].

Definition lacksKey (ct : ddl.CreateTable) : bool :=
  bool_decide (length (ddl.Pks ct) = 0%nat).

(** Modelled from the spec: [Conv.AddPrimaryKeys] (package [internal], not
    among the sources), section 4.7: every table of the target schema
    without a primary key gets the synthetic column as its last column and
    sole primary key, and its sequence counter is registered at zero. *)
Definition AddPrimaryKeys (conv : Conv) : Conv :=
  let finalize (ct : ddl.CreateTable) :=
    if lacksKey ct then withSyntheticKey ct (buildPrimaryKey (ddl.ColNames ct)) else ct in
  let register (ct : ddl.CreateTable) :=
    if lacksKey ct
    then Some (mkSyntheticPKey (buildPrimaryKey (ddl.ColNames ct)) 0)
    else None in
  mkConv (mode conv) (SrcSchema conv) (Reparsed conv) (calls conv) (verbose conv)
    (finalize <$> SpSchema conv)
    (omap register (SpSchema conv) ∪ SyntheticPKeys conv).

Module SampleTarget.

(** The state of [TestAddPrimaryKeys]. *)
Definition tableAB : ddl.CreateTable :=
  ddl.mkCreateTable "table" ["a"; "b"]
    (<["a" := ddl.mkColumnDef "a" (ddl.mkType ddl.Int64)]>
       (<["b" := ddl.mkColumnDef "b" (ddl.mkType ddl.Float64)]> ∅))
    [].

Definition conv : Conv := mkConv schemaOnly ∅ 0 [] [] (<["table" := tableAB]> ∅) ∅.

(** What the test expects. *)
Definition expected : ddl.CreateTable :=
  ddl.mkCreateTable "table" ["a"; "b"; "synth_id"]
    (<["a" := ddl.mkColumnDef "a" (ddl.mkType ddl.Int64)]>
       (<["b" := ddl.mkColumnDef "b" (ddl.mkType ddl.Float64)]>
          (<["synth_id" := ddl.mkColumnDef "synth_id" (ddl.mkType ddl.Int64)]> ∅)))
    [ddl.mkIndexKey "synth_id" false].

End SampleTarget.

Module SampleChunk.

Fixpoint quotes (s : string) : nat :=
  match s with
  | EmptyString => O
  | String c rest => ((if decide (c = "'"%char) then 1 else 0) + quotes rest)%nat
  end.

(** A stand-in for the parser: a text parses when its quotes are balanced. *)
Definition parse (s : string) : option (list RawStmt) :=
  if Nat.even (quotes s) then Some [Stmt_other "SelectStmt"] else None.

(** A statement with a semicolon inside a string constant, on two lines. *)
Definition line1 : string := "SELECT 'a;" +:+ String LF EmptyString.
Definition line2 : string := "b';" +:+ String LF EmptyString.
Definition reader : Reader := mkReader [line1; line2] EmptyString 0 0 false.

End SampleChunk.

Module SampleDump.

Definition nl : string := String LF EmptyString.
Definition tab : string := String TAB EmptyString.

Definition copyLine : string := "COPY cart (id, qty) FROM stdin;" +:+ nl.

(** A dump with one copy block of two rows. *)
Definition dump : string :=
  copyLine +:+ "1" +:+ tab +:+ "2" +:+ nl +:+ "3" +:+ tab +:+ " x " +:+ nl +:+ "\." +:+ nl.

(** A stand-in for the parser that knows the statement of [dump]. *)
Definition parse (s : string) : option (list RawStmt) :=
  if decide (s = copyLine) then Some [Node_CopyStmt SampleBatch.copyCart]
  else if decide (s = EmptyString) then Some []
  else None.

End SampleDump.

(** ** Reading parse-tree nodes *)

(** What the extractors take from a node, when it has the expected kind. *)
Definition resTargetName (n : Node) : option string :=
  match n with Node_ResTarget nm => Some nm | _ => None end.

Definition stringText (n : Node) : option string :=
  match n with Node_String_ s => Some (trimString s) | _ => None end.

Definition constText (v : Node) : option string :=
  match v with
  | Node_AConst (Node_String_ s) => Some (trimString s)
  | Node_AConst (Node_Integer i) => Some (FormatInt i)
  | _ => None
  end.

(** The row of a VALUES list: its constants, in order. *)
Definition rowOf (vl : Node) : list string :=
  match vl with
  | Node_List items => omap constText items
  | _ => []
  end.

Module SampleNodes.

Definition qualified : RangeVar := mkRangeVar "shop" "sales" "cart".

(** [pg_catalog.int4] and a node list with something that is no string. *)
Definition int4 : list Node := [SampleBatch.str "pg_catalog"; SampleBatch.str "int4"].
Definition notAType : list Node := [SampleBatch.str "int4"; Node_Integer 4].

(** [(1, 'x', DEFAULT)], where DEFAULT is no constant. *)
Definition values : Node :=
  Node_List [Node_AConst (Node_Integer 1);
             Node_AConst (SampleBatch.str "x");
             Node_other "SetToDefault"].

(** [PRIMARY KEY REFERENCES other (id)] as the constraints of a column. *)
Definition colConstraints : list Node :=
  [Node_Constraint (mkConstraintNode CONSTR_PRIMARY EmptyString [] [] [] None);
   Node_Constraint
     (mkConstraintNode CONSTR_FOREIGN "fk" [] [] [SampleBatch.str "id"]
        (Some (mkRangeVar EmptyString EmptyString "other")))].

End SampleNodes.

(** ** Functions that only write to the log *)

(** The outcome of a function that does nothing to the state but log the
    calls [cs], and returns [v]; [None] stands for a panic. *)
Definition logged {A : Type} (r : option (list Call * A)) (conv : Conv)
  : outcome (Conv * A) :=
  match r with
  | Some (cs, v) => Returns (logCalls cs conv, v)
  | None => Panics
  end.

(** The calls that report a problem, and those that count a statement as
    converted or skipped. *)
Definition isProblem (c : Call) : bool :=
  match c with CallUnexpected _ | CallErrorInStatement _ => true | _ => false end.
Definition isSchemaOrSkip (c : Call) : bool :=
  match c with CallSchemaStatement _ | CallSkipStatement _ => true | _ => false end.

(** The constraint that [extractConstraints] makes of a constraint node
    that is no foreign key: the keys that are strings, the name as given. *)
Definition plainConstraint (c : Constraint) : constraint :=
  mkConstraint (Contype c) (omap stringText (Keys c)) (Conname c) [] EmptyString.

(** ** What a list of constraints does to a table

    Readers of the effect of [updateSchema] on one table, used to state what
    a whole list of constraints leaves behind. *)

Definition isPrimary (c : constraint) : bool :=
  match ct c with CONSTR_PRIMARY => true | _ => false end.
Definition isForeign (c : constraint) : bool :=
  match ct c with CONSTR_FOREIGN => true | _ => false end.
Definition isUnique (c : constraint) : bool :=
  match ct c with CONSTR_UNIQUE => true | _ => false end.

(** The columns whose definitions a constraint writes, and the kind of mark
    it hands to [updateCols]. *)
Definition touched (c : constraint) : list string :=
  match ct c with
  | CONSTR_FOREIGN | CONSTR_UNIQUE => []
  | _ => cols c
  end.

Definition markOf (c : constraint) : ConstrType :=
  match ct c with
  | CONSTR_PRIMARY => CONSTR_NOTNULL
  | k => k
  end.

Definition markCol (cs : list constraint) (k : string) (col : schema.Column)
  : schema.Column :=
  fold_left
    (fun col c => if bool_decide (k ∈ touched c) then applyConstr (markOf c) col else col)
    cs col.

Definition uniqueIndex (c : constraint) : schema.Index :=
  schema.mkIndex (name c) true (toSchemaKeys (cols c)).

Definition lastPrimaryKey (pk : list schema.Key) (cs : list constraint)
  : list schema.Key :=
  fold_left (fun pk c => if isPrimary c then toSchemaKeys (cols c) else pk) cs pk.

Definition secondPrimaryKey (stmtType : string) : Call :=
  CallUnexpected (stmtType +:+ " statement is adding a second primary key").

Definition madeNotNull (k : string) (c : constraint) : bool :=
  bool_decide (k ∈ cols c)
  && match ct c with CONSTR_NOTNULL | CONSTR_PRIMARY => true | _ => false end.

Definition madeDefault (k : string) (c : constraint) : bool :=
  bool_decide (k ∈ cols c)
  && match ct c with CONSTR_DEFAULT => true | _ => false end.

Module SampleConstraints.

(** [FOREIGN KEY (id) REFERENCES nowhere (key)], [NOT NULL] on [id] and on a
    column [ghost] the table does not have, and a default on [qty]. *)
Definition fkNowhere : constraint :=
  mkConstraint CONSTR_FOREIGN ["id"] "fk_nowhere" ["key"] "nowhere".
Definition notNullId : constraint := mkConstraint CONSTR_NOTNULL ["id"] "" [] "".
Definition notNullGhost : constraint := mkConstraint CONSTR_NOTNULL ["ghost"] "" [] "".
Definition defaultQty : constraint := mkConstraint CONSTR_DEFAULT ["qty"] "" [] "".

Definition mixed : list constraint :=
  [fkNowhere; notNullId; Sample.uniqueId; defaultQty; notNullGhost].

End SampleConstraints.

(** Readers of the sub-commands of an ALTER TABLE statement: those that add
    a constraint, and those that set the column [k] not null. *)
Definition addsConstraint (i : Node) : bool :=
  match i with
  | Node_AlterTableCmd a =>
      match Subtype a, Def a with
      | AT_AddConstraint, Some (Node_Constraint _) => true
      | _, _ => false
      end
  | _ => false
  end.

Definition setsNotNull (k : string) (i : Node) : bool :=
  match i with
  | Node_AlterTableCmd a =>
      match Subtype a with
      | AT_SetNotNull => bool_decide (CmdName a ≠ EmptyString ∧ CmdName a = k)
      | _ => false
      end
  | _ => false
  end.

Module SampleAlter.

(** [ALTER TABLE cart ALTER COLUMN id SET NOT NULL, ALTER COLUMN ghost SET
    NOT NULL, <a sub-command of another kind>] *)
Definition alterCart : AlterTableStmt :=
  mkAlterTableStmt (Some SampleBatch.cartRel)
    [Node_AlterTableCmd (mkAlterTableCmd AT_SetNotNull "id" None);
     Node_AlterTableCmd (mkAlterTableCmd AT_SetNotNull "ghost" None);
     Node_AlterTableCmd (mkAlterTableCmd (AT_other 28) "id" None)].

(** [ALTER TABLE cart ADD CONSTRAINT u UNIQUE (id)] *)
Definition addUnique : AlterTableStmt :=
  mkAlterTableStmt (Some SampleBatch.cartRel)
    [Node_AlterTableCmd
       (mkAlterTableCmd AT_AddConstraint EmptyString
          (Some (Node_Constraint
                   (mkConstraintNode CONSTR_UNIQUE "u" [SampleBatch.str "id"] [] []
                      None))))].

End SampleAlter.

(** Readers of the elements of an index: the key an element gives, and the
    elements that are left out for want of a column name. *)
Definition indexKey (k : Node) : option schema.Key :=
  match k with
  | Node_IndexElem nm ord =>
      if decide (nm = EmptyString) then None
      else Some (schema.mkKey nm match ord with SORTBY_DESC => true | _ => false end)
  | _ => None
  end.

Definition unnamedElem (k : Node) : bool :=
  match k with
  | Node_IndexElem nm _ => bool_decide (nm = EmptyString)
  | _ => false
  end.

Module SampleIndex.

(** [CREATE UNIQUE INDEX by_qty ON cart (qty DESC, <expression>, id)], the
    expression being an element without a column name. *)
Definition byQty : IndexStmt :=
  mkIndexStmt (Some SampleBatch.cartRel) "by_qty" true
    [Node_IndexElem "qty" SORTBY_DESC; Node_IndexElem EmptyString SORTBY_DEFAULT;
     Node_IndexElem "id" SORTBY_DEFAULT].

End SampleIndex.

(** Readers of the elements of a CREATE TABLE statement: its column
    definitions, whether one of them can be taken (it has a name, and its
    type has an id), and the map that the definitions taken leave. *)
Definition columnDefs (elts : list Node) : list ColumnDef :=
  omap (fun te => match te with Node_ColumnDef cd => Some cd | _ => None end) elts.

Definition wellFormed (cd : ColumnDef) : bool :=
  bool_decide (Colname cd ≠ EmptyString)
  && match ColTypeName cd with
     | Some tn => match getTypeID (Names tn) with inl _ => true | inr _ => false end
     | None => true
     end.

Definition storeColumns (defs : list (string * schema.Column))
    (colDef : gmap string schema.Column) : gmap string schema.Column :=
  fold_left (fun m d => <[d.1 := d.2]> m) defs colDef.

Module SampleCreate.

Definition typeOf (s : string) : option TypeName :=
  Some (mkTypeName [SampleBatch.str "pg_catalog"; SampleBatch.str s] [] []).

(** [CREATE TABLE cart (sku text PRIMARY KEY, note text, UNIQUE (note))], a
    second definition of the table [cart]. *)
Definition createCart : CreateStmt :=
  mkCreateStmt (Some SampleBatch.cartRel) []
    [Node_ColumnDef
       (mkColumnDef "sku" (typeOf "text")
          [Node_Constraint (mkConstraintNode CONSTR_PRIMARY EmptyString [] [] [] None)]);
     Node_ColumnDef (mkColumnDef "note" (typeOf "text") []);
     Node_Constraint
       (mkConstraintNode CONSTR_UNIQUE "u_note" [SampleBatch.str "note"] [] [] None)].

End SampleCreate.

(** ** What a mode keeps

    Two relations between the state before and after a piece of the run: the
    source schema and the mode are kept; the mode is kept and no row is
    handed to the row converter. *)
Definition keepsSchema (conv conv' : Conv) : Prop :=
  SrcSchema conv' = SrcSchema conv ∧ mode conv' = mode conv.

Definition convertsNoRow (conv conv' : Conv) : Prop :=
  mode conv' = mode conv
  ∧ ∃ log, calls conv' = calls conv ++ log
           ∧ Forall (fun c => isProcessDataRow c = false) log.

(** The [SkipStatement] record of a statement that the dispatcher does not
    know. *)
Definition skipOf (s : RawStmt) : option Call :=
  match s with Stmt_other ty => Some (CallSkipStatement ty) | _ => None end.

(** The number of occurrences of a byte in a string. *)
Fixpoint countByte (s : string) (c : ascii) : nat :=
  match s with
  | EmptyString => O
  | String d rest => ((if decide (d = c) then 1 else 0) + countByte rest c)%nat
  end.

(** The column that [processCopyStmt] records for an entry of the column
    list of a COPY, and the table it names. *)
Definition copyColumn (a : Node) : string :=
  match getString a with inl s => s | inr _ => "BOGUS_COPY_FROM_COLUMN" end.

Definition copyTable (n : CopyStmt) : string :=
  match CopyRelation n with
  | None => "BOGUS_COPY_FROM_TABLE"
  | Some rel => match getTableName rel with inl t => t | inr _ => EmptyString end
  end.

(** The bad rows recorded for a table among a sequence of calls. *)
Definition isStatsAddBadRow (t : string) (c : Call) : bool :=
  match c with
  | CallStatsAddBadRow t' _ => bool_decide (t' = t)
  | _ => false
  end.
Definition badRowsCounted (t : string) (cs : list Call) : nat :=
  length (List.filter (isStatsAddBadRow t) cs).

Module SampleInsert.

(** [INSERT INTO cart DEFAULT VALUES], which has no SELECT part, and
    [INSERT INTO cart (<not a column target>) VALUES (1)]. *)
Definition defaultValues : InsertStmt := mkInsertStmt (Some SampleBatch.cartRel) [] None.
Definition badColumns : InsertStmt :=
  mkInsertStmt (Some SampleBatch.cartRel) [Node_Integer 1]
    (Some (Node_SelectStmt [Node_List [Node_AConst (Node_Integer 1)]])).

End SampleInsert.

(** ** Well-formed schemas and complete parse trees

    A table of the source schema is well formed when it is stored under its
    own name, its column map is allocated, and every column it lists has a
    definition that carries the column's name. *)
Definition wellFormedTable (k : string) (t : schema.Table) : Prop :=
  schema.Name t = k
  ∧ ∃ m, schema.ColDefs t = Some m
         ∧ ∀ c, c ∈ schema.ColNames t →
                ∃ col, m !! c = Some col ∧ schema.ColName col = c.

Definition wellFormedSchema (conv : Conv) : Prop :=
  ∀ k t, SrcSchema conv !! k = Some t → wellFormedTable k t.

(** The parts of a parse tree that the processor reads without testing them
    for nil: the referenced table of a foreign key, the type of a column
    definition, the SELECT part of an INSERT.  A tree is complete when they
    are there. *)
Definition completeConstraint (n : Node) : bool :=
  match n with
  | Node_Constraint c =>
      match Contype c, Pktable c with
      | CONSTR_FOREIGN, None => false
      | _, _ => true
      end
  | _ => true
  end.

Definition completeColumn (cd : ColumnDef) : bool :=
  match ColTypeName cd with Some _ => true | None => false end
  && forallb completeConstraint (Constraints cd).

Definition completeElt (te : Node) : bool :=
  match te with
  | Node_ColumnDef cd => completeColumn cd
  | n => completeConstraint n
  end.

Definition completeCmd (i : Node) : bool :=
  match i with
  | Node_AlterTableCmd a =>
      match Def a with Some d => completeConstraint d | None => true end
  | _ => true
  end.

Definition completeStmt (s : RawStmt) : bool :=
  match s with
  | Node_CreateStmt n => forallb completeElt (TableElts n)
  | Node_AlterTableStmt n => forallb completeCmd (Cmds n)
  | Node_InsertStmt n => match SelectStmt n with Some _ => true | None => false end
  | _ => true
  end.

Definition emptyConv (m : Mode) : Conv := mkConv m ∅ 0 [] [] ∅ ∅.

(** Readers of a type name: the modifier and the array bound that a node
    gives. *)
Definition typeMod (x : Node) : option Z :=
  match x with Node_AConst (Node_Integer i) => Some i | _ => None end.

Definition arrayBound (x : Node) : option Z :=
  match x with Node_Integer i => Some i | _ => None end.

Module SampleColumn.

(** [price numeric(10, 2)[3] NOT NULL], with a type modifier that is no
    integer constant thrown in. *)
Definition price : ColumnDef :=
  mkColumnDef "price"
    (Some (mkTypeName [SampleBatch.str "pg_catalog"; SampleBatch.str "numeric"]
             [Node_AConst (Node_Integer 10); Node_other "ColumnRef";
              Node_AConst (Node_Integer 2)]
             [Node_Integer 3]))
    [Node_Constraint (mkConstraintNode CONSTR_NOTNULL EmptyString [] [] [] None)].

(** [SET timezone = 'UTC'], [SET timezone = ''] and a zone that does not
    load. *)
Definition setZone : VariableSetStmt :=
  mkVariableSetStmt "timezone" [Node_AConst (SampleBatch.str "UTC")].
Definition setEmptyZone : VariableSetStmt :=
  mkVariableSetStmt "timezone" [Node_AConst (SampleBatch.str EmptyString)].
Definition setUnknownZone : VariableSetStmt :=
  mkVariableSetStmt "timezone" [Node_AConst (SampleBatch.str "Mars/Olympus")].

End SampleColumn.

(** ** What a CREATE TABLE statement says

    The table that a statement's elements describe, read off the parse tree
    without any state: the constraint of a constraint node, the column and
    the constraints of a column definition, and with them the columns and
    the constraints of the whole list of elements. *)
Definition constraintOf (n : Node) : option constraint :=
  match n with
  | Node_Constraint c =>
      match Contype c with
      | CONSTR_FOREIGN =>
          match Pktable c with
          | Some pk =>
              match getTableName pk with
              | inl t =>
                  Some (mkConstraint CONSTR_FOREIGN (omap stringText (FkAttrs c))
                          (Conname c) (omap stringText (PkAttrs c)) t)
              | inr _ => None
              end
          | None => None
          end
      | _ => Some (plainConstraint c)
      end
  | _ => None
  end.

Definition columnConstraints (cd : ColumnDef) : list constraint :=
  map (fun c => mkConstraint (ct c) [Colname cd] (name c) (referCols c) (referTable c))
    (omap constraintOf (Constraints cd)).

Definition columnOf (cd : ColumnDef) : schema.Column :=
  match ColTypeName cd with
  | Some tn =>
      match getTypeID (Names tn) with
      | inl tid =>
          schema.mkColumn (Colname cd)
            (schema.mkType tid (omap typeMod (Typmods tn))
               (omap arrayBound (ArrayBounds tn)))
            false false
      | inr _ => schema.zeroColumn
      end
  | None => schema.zeroColumn
  end.

Definition tableColumns (elts : list Node) : list (string * schema.Column) :=
  map (fun cd => (Colname cd, columnOf cd)) (columnDefs elts).

Definition tableConstraints (elts : list Node) : list constraint :=
  flat_map
    (fun te =>
       match te with
       | Node_ColumnDef cd => columnConstraints cd
       | n => match constraintOf n with Some c => [c] | None => [] end
       end)
    elts.

(** The entry that a column map holds for [k] once the constraints [cs] are
    applied to the map [m]. *)
Definition markedEntry (cs : list constraint) (m : gmap string schema.Column)
    (k : string) : option schema.Column :=
  match m !! k with
  | Some col => Some (markCol cs k col)
  | None =>
      if existsb (fun c => bool_decide (k ∈ touched c)) cs
      then Some (markCol cs k schema.zeroColumn)
      else None
  end.

(** * Verified properties *)

(** ** Constraint resolution *)

Section ConstraintResolution.

Import schema.

Lemma applyConstr_idem ct cd :
  applyConstr ct (applyConstr ct cd) = applyConstr ct cd.
Proof. by destruct ct, cd. Qed.

Lemma applyConstr_notnull cd : NotNull (applyConstr CONSTR_NOTNULL cd) = true.
Proof. done. Qed.

(** On an allocated map [updateCols] never panics; it rewrites exactly the
    listed entries. *)
Lemma updateCols_allocated ct (names : list string) (m : gmap string Column) :
  ∃ m', updateCols ct names (Some m) = Returns (Some m')
     ∧ (∀ c, c ∈ names →
          m' !! c = Some (applyConstr ct (default zeroColumn (m !! c))))
     ∧ (∀ c, c ∉ names → m' !! c = m !! c).
Proof.
  revert m. induction names as [|c0 rest IH]; intros m.
  - exists m. split; [done|]. split; [|done].
    intros c Hc. by apply elem_of_nil in Hc.
  - simpl.
    destruct (IH (<[c0 := applyConstr ct (default zeroColumn (m !! c0))]> m))
      as (m' & Hrun & Hin & Hout).
    exists m'. split; [exact Hrun|]. split.
    + intros c Hc. destruct (decide (c ∈ rest)) as [Hr|Hr].
      * rewrite (Hin c Hr). destruct (decide (c0 = c)) as [->|Hne].
        -- rewrite lookup_insert_eq. simpl. by rewrite applyConstr_idem.
        -- by rewrite lookup_insert_ne.
      * apply elem_of_cons in Hc as [->|Hc]; [|done].
        rewrite (Hout c0 Hr). by rewrite lookup_insert_eq.
    + intros c Hc. apply not_elem_of_cons in Hc as [Hne Hr].
      rewrite (Hout c Hr). by rewrite lookup_insert_ne.
Qed.

Lemma srcTable_known conv table t :
  SrcSchema conv !! table = Some t → srcTable conv table = t.
Proof. intros H. unfold srcTable. by rewrite H. Qed.

Lemma checkEmpty_calls conv pkeys stmtType :
  calls (checkEmpty conv pkeys stmtType) =
  calls conv ++
    match pkeys with
    | [] => []
    | _ :: _ =>
        [CallUnexpected (stmtType +:+ " statement is adding a second primary key")]
    end.
Proof.
  unfold checkEmpty. destruct pkeys; simpl.
  - by rewrite app_nil_r.
  - done.
Qed.

Lemma checkEmpty_schema conv pkeys stmtType :
  SrcSchema (checkEmpty conv pkeys stmtType) = SrcSchema conv.
Proof. unfold checkEmpty. by case_decide. Qed.

(** One primary-key constraint on a known table. *)
Lemma updateSchema1_primary conv table t m c stmtType :
  SrcSchema conv !! table = Some t →
  ColDefs t = Some m →
  ct c = CONSTR_PRIMARY →
  ∃ conv' m',
    updateSchema1 table stmtType conv c = Returns conv'
    ∧ SrcSchema conv' =
        <[table := setColDefs (setPrimaryKeys t (toSchemaKeys (cols c))) (Some m')]>
          (SrcSchema conv)
    ∧ (∀ k, k ∈ cols c →
         m' !! k = Some (setNotNull (default zeroColumn (m !! k))))
    ∧ (∀ k, k ∉ cols c → m' !! k = m !! k)
    ∧ calls conv' = calls conv ++
        match PrimaryKeys t with
        | [] => []
        | _ :: _ =>
            [CallUnexpected (stmtType +:+ " statement is adding a second primary key")]
        end
    ∧ mode conv' = mode conv.
Proof.
  intros Ht Hm Hc. unfold updateSchema1. rewrite Hc.
  rewrite (srcTable_known _ _ _ Ht). simpl. rewrite Hm.
  destruct (updateCols_allocated CONSTR_NOTNULL (cols c) m) as (m' & Hrun & Hin & Hout).
  rewrite Hrun. simpl. eexists _, m'. split; [reflexivity|].
  simpl. rewrite checkEmpty_schema, checkEmpty_calls.
  repeat split; try done.
  unfold checkEmpty. by case_decide.
Qed.

Lemma updateSchema_cons conv table c rest stmtType :
  updateSchema conv table (c :: rest) stmtType =
  (conv' <-! updateSchema1 table stmtType conv c ;;
   updateSchema conv' table rest stmtType).
Proof. done. Qed.

(** C1.  A primary-key constraint applied by [updateSchema] to a table of
    the source schema replaces whatever primary key the table had by the
    keys of the constraint (it neither rejects nor merges), reports the
    replacement with exactly one [Unexpected] diagnostic when the table
    already had a primary key and with none otherwise, and leaves every
    column listed in the constraint marked not-null.  Two primary-key
    constraints applied in sequence to a table without a key leave the
    second key in place and exactly one diagnostic. *)
Theorem updateSchema_primary_key_overwrites conv table t m c stmtType :
  SrcSchema conv !! table = Some t →
  ColDefs t = Some m →
  ct c = CONSTR_PRIMARY →
  (∃ conv' t' m',
     updateSchema conv table [c] stmtType = Returns conv'
     ∧ SrcSchema conv' !! table = Some t'
     ∧ PrimaryKeys t' = toSchemaKeys (cols c)
     ∧ ColDefs t' = Some m'
     ∧ (∀ k, k ∈ cols c → ∃ cd, m' !! k = Some cd ∧ NotNull cd = true)
     ∧ (PrimaryKeys t = [] → calls conv' = calls conv)
     ∧ (PrimaryKeys t ≠ [] →
          calls conv' = calls conv ++
            [CallUnexpected (stmtType +:+ " statement is adding a second primary key")]))
  ∧ (∀ c2, ct c2 = CONSTR_PRIMARY → PrimaryKeys t = [] → cols c ≠ [] →
       ∃ conv'' t'',
         updateSchema conv table [c; c2] stmtType = Returns conv''
         ∧ SrcSchema conv'' !! table = Some t''
         ∧ PrimaryKeys t'' = toSchemaKeys (cols c2)
         ∧ length (diagnostics (calls conv'')) =
             S (length (diagnostics (calls conv)))).
Proof.
  intros Ht Hm Hc.
  destruct (updateSchema1_primary conv table t m c stmtType Ht Hm Hc)
    as (conv' & m' & Hrun & Hsch & Hin & Hout & Hcalls & Hmode).
  split.
  - exists conv', (setColDefs (setPrimaryKeys t (toSchemaKeys (cols c))) (Some m')), m'.
    rewrite updateSchema_cons, Hrun. simpl.
    split; [done|]. rewrite Hsch, lookup_insert_eq.
    split; [done|]. split; [done|]. split; [done|]. split.
    + intros k Hk. eexists. split; [by apply Hin|done].
    + rewrite Hcalls. destruct (PrimaryKeys t); split; intros; try done.
      by rewrite app_nil_r.
  - intros c2 Hc2 Hnokey Hcols.
    assert (Ht' : SrcSchema conv' !! table =
                  Some (setColDefs (setPrimaryKeys t (toSchemaKeys (cols c))) (Some m')))
      by (by rewrite Hsch, lookup_insert_eq).
    destruct (updateSchema1_primary conv' table _ m' c2 stmtType Ht' eq_refl Hc2)
      as (conv'' & m'' & Hrun2 & Hsch2 & _ & _ & Hcalls2 & _).
    exists conv'', (setColDefs (setPrimaryKeys
      (setColDefs (setPrimaryKeys t (toSchemaKeys (cols c))) (Some m'))
      (toSchemaKeys (cols c2))) (Some m'')).
    rewrite !updateSchema_cons, Hrun. simpl. rewrite Hrun2. simpl.
    split; [done|]. rewrite Hsch2, lookup_insert_eq.
    split; [done|]. split; [done|].
    rewrite Hcalls2, Hcalls, Hnokey. simpl.
    destruct (cols c) as [|k ks]; [done|]. simpl.
    unfold diagnostics. rewrite app_nil_r, List.filter_app, length_app. simpl. lia.
Qed.

Lemma updateSchema_primary_key_overwrites_witness :
  (∃ conv' t' m',
     updateSchema Sample.conv0 "cart" [Sample.pkId] "ALTER TABLE" = Returns conv'
     ∧ SrcSchema conv' !! "cart" = Some t'
     ∧ PrimaryKeys t' = [mkKey "id" false]
     ∧ ColDefs t' = Some m'
     ∧ (∀ k, k ∈ ["id"] → ∃ cd, m' !! k = Some cd ∧ NotNull cd = true)
     ∧ (PrimaryKeys Sample.cart = [] → calls conv' = [])
     ∧ (PrimaryKeys Sample.cart ≠ [] →
          calls conv' =
            [CallUnexpected "ALTER TABLE statement is adding a second primary key"]))
  ∧ (∃ conv'' t'',
       updateSchema Sample.conv1 "cart" [Sample.pkId; Sample.pkQty] "CREATE TABLE" =
       Returns conv''
       ∧ SrcSchema conv'' !! "cart" = Some t''
       ∧ PrimaryKeys t'' = [mkKey "qty" false]
       ∧ length (diagnostics (calls conv'')) = 1%nat).
Proof.
  split.
  - apply (updateSchema_primary_key_overwrites
             Sample.conv0 "cart" Sample.cart Sample.cartCols Sample.pkId "ALTER TABLE");
      reflexivity.
  - apply (proj2 (updateSchema_primary_key_overwrites
                    Sample.conv1 "cart" Sample.cartNoKey Sample.cartCols Sample.pkId
                    "CREATE TABLE" eq_refl eq_refl eq_refl) Sample.pkQty);
      done.
Defined.

(** The amended C8.  A unique constraint applied by [updateSchema] to a
    table of the source schema appends one index to the table's index list:
    its [Unique] flag is set, its keys are the constrained columns in order,
    and its name is the constraint's name as given, empty when the
    constraint had none.  Nothing else changes and nothing is logged. *)
Theorem updateSchema_unique_appends_index conv table t c stmtType :
  SrcSchema conv !! table = Some t →
  ct c = CONSTR_UNIQUE →
  updateSchema conv table [c] stmtType =
  Returns (setSrcTable table
             (setIndexes t
                (Indexes t ++ [mkIndex (name c) true (toSchemaKeys (cols c))]))
             conv).
Proof.
  intros Ht Hc. simpl. unfold updateSchema1. rewrite Hc.
  by rewrite (srcTable_known _ _ _ Ht).
Qed.

Lemma updateSchema_unique_appends_index_witness :
  updateSchema Sample.conv0 "cart" [Sample.uniqueId] "CREATE TABLE" =
  Returns (setSrcTable "cart"
             (setIndexes Sample.cart [mkIndex "" true [mkKey "id" false]])
             Sample.conv0).
Proof.
  apply (updateSchema_unique_appends_index
           Sample.conv0 "cart" Sample.cart Sample.uniqueId "CREATE TABLE");
    reflexivity.
Defined.

(** C8 as stated fails: for a unique constraint without a name
    [updateSchema] does not make one up, the appended index is unnamed. *)
Lemma updateSchema_unique_no_name_synthesized :
  ¬ (∃ conv' t' ix,
       updateSchema Sample.conv0 "cart" [Sample.uniqueId] "CREATE TABLE" = Returns conv'
       ∧ SrcSchema conv' !! "cart" = Some t'
       ∧ last (Indexes t') = Some ix
       ∧ Unique ix = true
       ∧ IdxName ix ≠ "").
Proof.
  intros (conv' & t' & ix & Hrun & Ht' & Hlast & _ & Hname).
  vm_compute in Hrun. injection Hrun as <-.
  vm_compute in Ht'. injection Ht' as <-.
  simpl in Hlast. injection Hlast as <-. by apply Hname.
Qed.

End ConstraintResolution.

(** ** The chunk reader *)

Section ChunkReader.

Variable Parse : string -> option (list RawStmt).

Lemma ReadLine_more r b r1 :
  ReadLine r = (b, r1) → EOF r1 = false →
  ∃ rest, pending r = b :: rest ∧ pending r1 = rest.
Proof.
  unfold ReadLine. destruct (pending r) as [|b0 rest]; intros [= <- <-]; [done|].
  intros _. by exists rest.
Qed.

(** The loop returns for every reader, given one round of fuel per pending
    line and one more; it leaves the schema and the call log alone. *)
Lemma readAndParseChunk_loop_spec fuel conv r l :
  (length (pending r) < fuel)%nat →
  ∃ conv' r' res n reads,
    readAndParseChunk_loop Parse fuel conv r l = Some (conv', r', res)
    ∧ readLines (S n) r = (reads, r')
    ∧ Reparsed conv' =
        Nat.iter (failedParses Parse l reads) (λ x, int64 (x + 1)) (Reparsed conv)
    ∧ calls conv' = calls conv
    ∧ SrcSchema conv' = SrcSchema conv
    ∧ mode conv' = mode conv
    ∧ match res with
      | Parsed s stmts =>
          s = gostrings.concat (l ++ reads.*1) ∧ Parse s = Some stmts
      | ParseError msg =>
          EOF r' = true ∧ Parse (gostrings.concat (l ++ reads.*1)) = None
      end.
Proof.
  revert conv r l. induction fuel as [|fuel IH]; intros conv r l Hfuel; [lia|].
  cbn [readAndParseChunk_loop readLines].
  destruct (ReadLine r) as [b r1] eqn:Hread.
  destruct (gostrings.Contains b semicolon || EOF r1) eqn:Htrig.
  - destruct (Parse (gostrings.concat (l ++ [b]))) as [stmts|] eqn:Hparse.
    + exists conv, r1, (Parsed (gostrings.concat (l ++ [b])) stmts), 0%nat, [(b, EOF r1)].
      cbn. rewrite Htrig, Hparse. by rewrite bool_decide_eq_false_2.
    + destruct (EOF r1) eqn:Heof.
      * eexists (incReparsed conv), r1, (ParseError _), 0%nat, [(b, true)].
        cbn. rewrite orb_true_r, Hparse. by rewrite bool_decide_eq_true_2.
      * destruct (ReadLine_more _ _ _ Hread Heof) as (rest & Hp & Hp1).
        destruct (IH (incReparsed conv) r1 (l ++ [b])) as
          (conv' & r' & res & n & reads & Hrun & Hreads & Hrep & Hcalls & Hsch & Hmode & Hres).
        { rewrite Hp1. rewrite Hp in Hfuel. simpl in Hfuel. lia. }
        exists conv', r', res, (S n), ((b, false) :: reads).
        split; [exact Hrun|]. rewrite Hreads. split; [done|].
        cbn [failedParses]. rewrite Htrig, Hparse, bool_decide_eq_true_2 by done.
        cbn [andb Nat.add]. rewrite Nat.iter_succ_r.
        split; [exact Hrep|]. repeat (split; [done|]).
        destruct res; rewrite fmap_cons, cons_middle, app_assoc; exact Hres.
  - apply orb_false_iff in Htrig as [Hsemi Heof]. rewrite Heof.
    destruct (ReadLine_more _ _ _ Hread Heof) as (rest & Hp & Hp1).
    destruct (IH conv r1 (l ++ [b])) as
      (conv' & r' & res & n & reads & Hrun & Hreads & Hrep & Hcalls & Hsch & Hmode & Hres).
    { rewrite Hp1. rewrite Hp in Hfuel. simpl in Hfuel. lia. }
    exists conv', r', res, (S n), ((b, false) :: reads).
    split; [exact Hrun|]. rewrite Hreads. split; [done|].
    cbn [failedParses]. rewrite Hsemi. cbn [orb andb Nat.add].
    split; [exact Hrep|]. repeat (split; [done|]).
    destruct res; rewrite fmap_cons, cons_middle, app_assoc; exact Hres.
Qed.

(** C2.  A parse failure of the accumulated buffer does not end
    [readAndParseChunk] while the reader has more input: the failure is
    counted in [Reparsed] and the loop goes on with one more line added to
    the buffer.  The call returns for every reader; it has read at least one
    line, [Reparsed] has grown by the number of failed attempts, and the
    result is an error exactly when the reader is at end of stream and the
    whole buffer read by the call does not parse. *)
Theorem readAndParseChunk_reparses_until_eof conv r :
  (∀ fuel l b r1,
     ReadLine r = (b, r1) → EOF r1 = false →
     gostrings.Contains b semicolon = true →
     Parse (gostrings.concat (l ++ [b])) = None →
     readAndParseChunk_loop Parse (S fuel) conv r l =
     readAndParseChunk_loop Parse fuel (incReparsed conv) r1 (l ++ [b])
     ∧ Reparsed (incReparsed conv) = int64 (Reparsed conv + 1))
  ∧ ∃ conv' r' res n reads,
      readAndParseChunk Parse conv r = Some (conv', r', res)
      ∧ readLines (S n) r = (reads, r')
      ∧ Reparsed conv' =
          Nat.iter (failedParses Parse [] reads) (λ x, int64 (x + 1)) (Reparsed conv)
      ∧ (∀ s stmts, res = Parsed s stmts →
           s = gostrings.concat reads.*1 ∧ Parse s = Some stmts)
      ∧ ((∃ msg, res = ParseError msg) ↔
           EOF r' = true ∧ Parse (gostrings.concat reads.*1) = None).
Proof.
  split.
  - intros fuel l b r1 Hread Heof Hsemi Hparse. split; [|done].
    cbn [readAndParseChunk_loop]. by rewrite Hread, Hsemi, Hparse, Heof.
  - destruct (readAndParseChunk_loop_spec (S (length (pending r))) conv r [])
      as (conv' & r' & res & n & reads & Hrun & Hreads & Hrep & _ & _ & _ & Hres); [lia|].
    exists conv', r', res, n, reads. rewrite app_nil_l in Hres.
    split; [exact Hrun|]. split; [exact Hreads|]. split; [exact Hrep|]. split.
    + intros s stmts ->. exact Hres.
    + split.
      * intros [msg ->]. exact Hres.
      * intros [Heof Hfail]. destruct res as [s stmts|msg]; [|by eexists].
        destruct Hres as [-> Hok]. congruence.
Qed.

End ChunkReader.


Lemma readAndParseChunk_reparses_until_eof_witness :
  readAndParseChunk_loop SampleChunk.parse 2 Sample.conv0 SampleChunk.reader [] =
  readAndParseChunk_loop SampleChunk.parse 1 (incReparsed Sample.conv0)
    (ReadLine SampleChunk.reader).2 [SampleChunk.line1]
  ∧ Reparsed (incReparsed Sample.conv0) = int64 (Reparsed Sample.conv0 + 1).
Proof.
  apply (proj1 (readAndParseChunk_reparses_until_eof
                  SampleChunk.parse Sample.conv0 SampleChunk.reader)
           1%nat [] SampleChunk.line1 (ReadLine SampleChunk.reader).2);
    reflexivity.
Defined.

(** ** The copy-block decoder *)

Section CopyBlock.

Lemma logCalls_nil conv : logCalls [] conv = conv.
Proof. destruct conv. unfold logCalls. simpl. by rewrite app_nil_r. Qed.

Lemma logCalls_app cs1 cs2 conv :
  logCalls cs2 (logCalls cs1 conv) = logCalls (cs1 ++ cs2) conv.
Proof. unfold logCalls. simpl. by rewrite app_assoc. Qed.

Lemma call_logCalls c conv : call c conv = logCalls [c] conv.
Proof. done. Qed.

Lemma endOfCopy_spec b :
  endOfCopy b = true ↔
  b = "\." +:+ String LF EmptyString ∨ b = "\." +:+ String CR (String LF EmptyString).
Proof. unfold endOfCopy. by rewrite bool_decide_eq_true. Qed.

(** One data line: counted in either mode, converted in data mode only. *)
Lemma processCopyBlock_loop_line fuel conv t cs r b rest :
  pending r = b :: rest → EOF r = false → endOfCopy b = false →
  ∃ r1, pending r1 = rest ∧ fragment r1 = fragment r ∧ EOF r1 = false
      ∧ processCopyBlock_loop (S fuel) conv t cs r =
        processCopyBlock_loop fuel (logCalls (copyBlockCalls conv t cs [b]) conv) t cs r1.
Proof.
  intros Hp Heof Hb. exists (ReadLine r).2.
  cbn [processCopyBlock_loop]. unfold ReadLine.
  rewrite Hp, Hb. cbn [EOF pending fragment snd]. rewrite Heof.
  split; [done|]. split; [done|]. split; [done|].
  unfold copyBlockCalls, StatsAddRow, ProcessDataRow. simpl.
  rewrite !call_logCalls. unfold DataMode, SchemaMode. simpl.
  destruct (mode conv); simpl; [done|]. by rewrite logCalls_app.
Qed.

Lemma copyBlockCalls_cons conv t cs b lines :
  copyBlockCalls conv t cs (b :: lines) =
  copyBlockCalls conv t cs [b] ++ copyBlockCalls conv t cs lines.
Proof. unfold copyBlockCalls. simpl. by rewrite app_nil_r. Qed.

Lemma copyBlockCalls_logCalls cs0 conv t cs lines :
  copyBlockCalls (logCalls cs0 conv) t cs lines = copyBlockCalls conv t cs lines.
Proof. done. Qed.

(** The data lines of a block, one after the other. *)
Lemma processCopyBlock_loop_lines lines fuel conv t cs r rest :
  pending r = lines ++ rest → EOF r = false →
  Forall (λ b, endOfCopy b = false) lines →
  ∃ r1, pending r1 = rest ∧ fragment r1 = fragment r ∧ EOF r1 = false
      ∧ processCopyBlock_loop (length lines + fuel) conv t cs r =
        processCopyBlock_loop fuel (logCalls (copyBlockCalls conv t cs lines) conv) t cs r1.
Proof.
  revert conv r. induction lines as [|b lines IH]; intros conv r Hp Heof Hall.
  - exists r. by rewrite logCalls_nil.
  - apply Forall_cons in Hall as [Hb Hall].
    destruct (processCopyBlock_loop_line (length lines + fuel) conv t cs r b
                (lines ++ rest) Hp Heof Hb) as (r1 & Hp1 & Hf1 & Heof1 & Hstep).
    destruct (IH (logCalls (copyBlockCalls conv t cs [b]) conv) r1 Hp1 Heof1 Hall)
      as (r2 & Hp2 & Hf2 & Heof2 & Hrun).
    exists r2. split; [done|]. split; [congruence|]. split; [done|].
    cbn [length Nat.add]. rewrite Hstep, Hrun.
    by rewrite copyBlockCalls_logCalls, logCalls_app, <- copyBlockCalls_cons.
Qed.

Lemma rowsCounted_app t cs1 cs2 :
  rowsCounted t (cs1 ++ cs2) = (rowsCounted t cs1 + rowsCounted t cs2)%nat.
Proof. unfold rowsCounted. by rewrite List.filter_app, length_app. Qed.

Lemma rowsCounted_copyBlockCalls conv t cs lines :
  rowsCounted t (copyBlockCalls conv t cs lines) = length lines.
Proof.
  induction lines as [|b lines IH]; [done|].
  rewrite copyBlockCalls_cons, rowsCounted_app, IH.
  unfold copyBlockCalls, rowsCounted. simpl.
  rewrite bool_decide_eq_true_2 by done. simpl.
  by destruct (DataMode conv).
Qed.

Lemma rowsConverted_copyBlockCalls conv t cs lines :
  rowsConverted (copyBlockCalls conv t cs lines) =
  if DataMode conv
  then map (λ b, CallProcessDataRow t cs (copyBlockValues b)) lines
  else [].
Proof.
  induction lines as [|b lines IH].
  - by destruct (DataMode conv).
  - rewrite copyBlockCalls_cons. unfold rowsConverted in *.
    rewrite List.filter_app, IH. unfold copyBlockCalls. simpl.
    by destruct (DataMode conv).
Qed.

(** A block up to its end marker, and a block cut short by the end of the
    stream. *)
Lemma processCopyBlock_to_marker conv t cs r lines marker rest :
  EOF r = false →
  Forall (λ b, endOfCopy b = false) lines →
  pending r = lines ++ marker :: rest →
  endOfCopy marker = true →
  ∃ conv' r',
    processCopyBlock conv t cs r = Some (conv', r')
    ∧ pending r' = rest ∧ EOF r' = false
    ∧ calls conv' = calls conv ++ copyBlockCalls conv t cs lines
    ∧ SrcSchema conv' = SrcSchema conv ∧ mode conv' = mode conv.
Proof.
  intros Heof Hall Hp Hmarker.
  unfold processCopyBlock. rewrite Hp, length_app. cbn [length].
  replace (S (length lines + S (length rest)))
    with (length lines + S (S (length rest)))%nat by lia.
  match goal with |- context [processCopyBlock_loop _ ?c _ _ _] => set (conv0 := c) end.
  destruct (processCopyBlock_loop_lines lines (S (S (length rest))) conv0 t cs r
              (marker :: rest) Hp Heof Hall) as (r2 & Hp2 & Hf2 & Heof2 & Hrun2).
  rewrite Hrun2. cbn [processCopyBlock_loop]. unfold ReadLine. rewrite Hp2, Hmarker.
  eexists _, _. split; [reflexivity|].
  cbn [logCalls VerbosePrintf calls pending EOF]. by rewrite Heof2.
Qed.

Lemma processCopyBlock_to_eof conv t cs r lines :
  EOF r = false →
  Forall (λ b, endOfCopy b = false) lines →
  pending r = lines →
  endOfCopy (fragment r) = false →
  ∃ conv' r',
    processCopyBlock conv t cs r = Some (conv', r')
    ∧ EOF r' = true
    ∧ calls conv' = calls conv ++ copyBlockCalls conv t cs lines ++
                    [CallUnexpected "Reached eof while parsing copy-block"].
Proof.
  intros Heof Hall Hp Hfrag.
  unfold processCopyBlock. rewrite Hp.
  match goal with |- context [processCopyBlock_loop _ ?c _ _ _] => set (conv0 := c) end.
  destruct (processCopyBlock_loop_lines lines 1 conv0 t cs r [] ) as
    (r1 & Hp1 & Hfr & Heof1 & Hrun); [by rewrite app_nil_r|done|done|].
  replace (S (length lines)) with (length lines + 1)%nat by lia.
  rewrite Hrun. cbn [processCopyBlock_loop]. unfold ReadLine. rewrite Hp1, Hfr, Hfrag.
  cbn [EOF]. eexists _, _. split; [reflexivity|].
  unfold Unexpected. rewrite call_logCalls, logCalls_app.
  by cbn [logCalls VerbosePrintf calls pending EOF].
Qed.

(** C5.  In schema mode and in data mode alike, [processCopyBlock] counts
    every line it reads before the end of the block with one [StatsAddRow]
    call for the destination table.  The block ends at the first line equal
    to the end marker, with a line feed or with a carriage return and a line
    feed after it, and the lines after the marker stay in the reader.  When
    the stream ends inside the block, the call still returns, having logged
    one [Unexpected] diagnostic after the counted lines. *)
Theorem processCopyBlock_counts_rows conv t cs r lines :
  EOF r = false →
  Forall (λ b, b ≠ "\." +:+ String LF EmptyString
             ∧ b ≠ "\." +:+ String CR (String LF EmptyString)) lines →
  (∀ marker rest,
     pending r = lines ++ marker :: rest →
     marker = "\." +:+ String LF EmptyString
     ∨ marker = "\." +:+ String CR (String LF EmptyString) →
     ∃ conv' r',
       processCopyBlock conv t cs r = Some (conv', r')
       ∧ pending r' = rest ∧ EOF r' = false
       ∧ calls conv' = calls conv ++ copyBlockCalls conv t cs lines
       ∧ rowsCounted t (calls conv') = (rowsCounted t (calls conv) + length lines)%nat)
  ∧ (pending r = lines →
     fragment r ≠ "\." +:+ String LF EmptyString →
     fragment r ≠ "\." +:+ String CR (String LF EmptyString) →
     ∃ conv' r',
       processCopyBlock conv t cs r = Some (conv', r')
       ∧ EOF r' = true
       ∧ calls conv' = calls conv ++ copyBlockCalls conv t cs lines ++
                       [CallUnexpected "Reached eof while parsing copy-block"]
       ∧ rowsCounted t (calls conv') = (rowsCounted t (calls conv) + length lines)%nat).
Proof.
  intros Heof Hlines.
  assert (Hall : Forall (λ b, endOfCopy b = false) lines).
  { eapply Forall_impl; [exact Hlines|]. intros b [H1 H2].
    apply not_true_is_false. rewrite endOfCopy_spec. tauto. }
  split.
  - intros marker rest Hp Hmarker. apply endOfCopy_spec in Hmarker.
    destruct (processCopyBlock_to_marker conv t cs r lines marker rest Heof Hall Hp Hmarker)
      as (conv' & r' & Hrun & Hp' & Heof' & Hcalls & _).
    exists conv', r'. repeat (split; [done|]).
    by rewrite Hcalls, rowsCounted_app, rowsCounted_copyBlockCalls.
  - intros Hp Hf1 Hf2.
    assert (Hfrag : endOfCopy (fragment r) = false).
    { apply not_true_is_false. rewrite endOfCopy_spec. tauto. }
    destruct (processCopyBlock_to_eof conv t cs r lines Heof Hall Hp Hfrag)
      as (conv' & r' & Hrun & Heof' & Hcalls).
    exists conv', r'. repeat (split; [done|]).
    rewrite Hcalls, !rowsCounted_app, rowsCounted_copyBlockCalls.
    unfold rowsCounted. simpl. lia.
Qed.

End CopyBlock.


Lemma processCopyBlock_counts_rows_witness :
  ∃ conv' r',
    processCopyBlock SampleLines.dataConv "cart" ["id"; "qty"] SampleLines.block =
    Some (conv', r')
    ∧ pending r' = ["COMMIT;"] ∧ EOF r' = false
    ∧ calls conv' =
        calls SampleLines.dataConv ++
        copyBlockCalls SampleLines.dataConv "cart" ["id"; "qty"]
          [SampleLines.line; SampleLines.crLine]
    ∧ rowsCounted "cart" (calls conv') =
        (rowsCounted "cart" (calls SampleLines.dataConv) + 2)%nat.
Proof.
  apply (proj1 (processCopyBlock_counts_rows SampleLines.dataConv "cart" ["id"; "qty"]
                  SampleLines.block [SampleLines.line; SampleLines.crLine] eq_refl
                  ltac:(repeat constructor; intros H; vm_compute in H; discriminate H))
           ("\." +:+ String LF EmptyString) ["COMMIT;"]).
  - reflexivity.
  - by left.
Defined.

(** ** Decoding the lines of a copy block *)

Section CopyBlockValues.

Local Abbreviation collapse s :=
  (gostrings.ReplaceAll s backslash backslash (String backslash EmptyString)).

(** Induction over a string two bytes at a time, as [ReplaceAll] recurses. *)
Lemma string_ind2 (P : string → Prop) :
  P EmptyString →
  (∀ c, P (String c EmptyString)) →
  (∀ c d s, P s → P (String d s) → P (String c (String d s))) →
  ∀ s, P s.
Proof.
  intros H0 H1 H2 s.
  assert (H : P s ∧ ∀ c, P (String c s)); [|by destruct H].
  induction s as [|d s [IHs IHc]]; [by split|]. split; [apply IHc|].
  intros c. by apply H2.
Qed.

Lemma append_cons c (s t : string) : String c s +:+ t = String c (s +:+ t).
Proof. done. Qed.

Lemma append_nil_r (s : string) : s +:+ EmptyString = s.
Proof. induction s as [|c s IH]; [done|]. by rewrite append_cons, IH. Qed.

Lemma avoids_app s t cut :
  avoids (s +:+ t) cut = avoids s cut && avoids t cut.
Proof.
  induction s as [|c s IH]; [done|].
  rewrite append_cons. cbn [avoids]. by rewrite IH, andb_assoc.
Qed.

Lemma collapse_unfold c d s :
  collapse (String c (String d s)) =
  if decide (c = backslash ∧ d = backslash)
  then String backslash (collapse s)
  else String c (collapse (String d s)).
Proof. done. Qed.

Lemma collapse_cons_ne c s :
  c ≠ backslash → collapse (String c s) = String c (collapse s).
Proof.
  intros Hc. destruct s as [|d s]; [done|]. rewrite collapse_unfold.
  case_decide as H; [by destruct H|done].
Qed.

Lemma collapse_pair s :
  collapse (String backslash (String backslash s)) = String backslash (collapse s).
Proof. rewrite collapse_unfold. by rewrite decide_True. Qed.

(** A tail without backslashes is left as it is. *)
Lemma collapse_plain t : avoids t [backslash] = true → collapse t = t.
Proof.
  induction t as [|c t IH]; [done|]. cbn [avoids]. intros [Hc Ht]%andb_true_iff.
  apply negb_true_iff, bool_decide_eq_false in Hc.
  rewrite collapse_cons_ne, IH; [done..|]. set_solver.
Qed.

Lemma collapse_app_plain s t :
  avoids t [backslash] = true → collapse (s +:+ t) = collapse s +:+ t.
Proof.
  intros Ht. induction s as [|c|c d s IH1 IH2] using string_ind2.
  - by apply collapse_plain.
  - destruct (decide (c = backslash)) as [->|Hc].
    + destruct t as [|e t]; [done|]. cbn [avoids] in Ht.
      apply andb_true_iff in Ht as [He Ht].
      apply negb_true_iff, bool_decide_eq_false in He.
      change (String backslash EmptyString +:+ String e t)
        with (String backslash (String e t)).
      rewrite collapse_unfold, decide_False by (intros [_ ->]; set_solver).
      rewrite collapse_cons_ne by set_solver.
      by rewrite collapse_plain.
    + change (String c EmptyString +:+ t) with (String c t).
      rewrite collapse_cons_ne by done. by rewrite collapse_plain.
  - change (String c (String d s) +:+ t) with (String c (String d (s +:+ t))).
    destruct (decide (c = backslash ∧ d = backslash)) as [[-> ->]|Hne].
    + by rewrite !collapse_pair, IH1.
    + rewrite !collapse_unfold, !decide_False by done.
      change (String d (s +:+ t)) with (String d s +:+ t). by rewrite IH2.
Qed.

(** Collapsing undoes the doubling, whatever follows. *)
Lemma collapse_escape_app s t :
  collapse (escapeBackslash s +:+ t) = s +:+ collapse t.
Proof.
  induction s as [|c s IH]; [done|]. cbn [escapeBackslash].
  destruct (decide (c = backslash)) as [->|Hc].
  - rewrite !append_cons. by rewrite collapse_pair, IH.
  - rewrite !append_cons. by rewrite collapse_cons_ne, IH.
Qed.

Lemma collapse_avoids s cut :
  avoids s cut = true → avoids (collapse s) cut = true.
Proof.
  induction s as [|c|c d s IH1 IH2] using string_ind2; [done..|].
  intros Hs. rewrite collapse_unfold. case_decide as Hp.
  - destruct Hp as [-> ->]. cbn [avoids] in Hs.
    apply andb_true_iff in Hs as [Hb [_ Hs]%andb_true_iff].
    cbn [avoids]. by rewrite Hb, IH1.
  - cbn [avoids] in Hs. apply andb_true_iff in Hs as [Hc Hs].
    cbn [avoids]. rewrite Hc. by apply IH2.
Qed.

Lemma escapeBackslash_avoids s cut :
  avoids s cut = true → avoids (escapeBackslash s) cut = true.
Proof.
  induction s as [|c s IH]; [done|]. cbn [avoids escapeBackslash].
  intros [Hc Hs]%andb_true_iff. destruct (decide (c = backslash)) as [->|Hb].
  - cbn [avoids]. by rewrite Hc, IH.
  - cbn [avoids]. by rewrite Hc, IH.
Qed.

Lemma avoids_sub s cut cut' :
  cut' ⊆ cut → avoids s cut = true → avoids s cut' = true.
Proof.
  intros Hsub. induction s as [|c s IH]; [done|]. cbn [avoids].
  intros [Hc Hs]%andb_true_iff. rewrite IH by done.
  apply negb_true_iff, bool_decide_eq_false in Hc.
  rewrite bool_decide_eq_false_2; [done|]. set_solver.
Qed.

(** Trimming a terminator made of bytes of the cutset off a body that has
    none of them gives the body back. *)
Lemma TrimRight_body s term cut :
  avoids s cut = true →
  gostrings.TrimRight term cut = EmptyString →
  gostrings.TrimRight (s +:+ term) cut = s.
Proof.
  intros Hs Hterm. induction s as [|c s IH]; [done|].
  cbn [avoids] in Hs. apply andb_true_iff in Hs as [Hc Hs].
  apply negb_true_iff, bool_decide_eq_false in Hc.
  change (String c s +:+ term) with (String c (s +:+ term)).
  cbn [gostrings.TrimRight]. rewrite IH by done.
  destruct s; [by rewrite decide_False|done].
Qed.

Lemma Trim_body s term cut :
  avoids s cut = true →
  gostrings.TrimRight term cut = EmptyString →
  gostrings.TrimLeft term cut = EmptyString →
  gostrings.Trim (s +:+ term) cut = s.
Proof.
  intros Hs Hr Hl. unfold gostrings.Trim. destruct s as [|c s].
  - change (EmptyString +:+ term) with term. by rewrite Hl.
  - assert (Hc : c ∉ cut).
    { cbn [avoids] in Hs. apply andb_true_iff in Hs as [Hc _].
      by apply negb_true_iff, bool_decide_eq_false in Hc. }
    change (String c s +:+ term) with (String c (s +:+ term)).
    cbn [gostrings.TrimLeft]. rewrite decide_False by done.
    change (String c (s +:+ term)) with (String c s +:+ term).
    by apply TrimRight_body.
Qed.

(** What [strings.Trim] computes: the text between the longest runs of
    cutset bytes at the two ends. *)
Lemma TrimLeft_spec s cut :
  ∃ pre, s = pre +:+ gostrings.TrimLeft s cut
       ∧ onlyOf pre cut = true
       ∧ startsOutside (gostrings.TrimLeft s cut) cut.
Proof.
  induction s as [|c s (pre & Heq & Hpre & Hstart)]; [by exists EmptyString|].
  cbn [gostrings.TrimLeft]. case_decide as Hc.
  - exists (String c pre). rewrite append_cons, <- Heq. split; [done|].
    cbn [onlyOf]. by rewrite bool_decide_eq_true_2, Hpre.
  - by exists EmptyString.
Qed.

Lemma TrimRight_spec s cut :
  ∃ post, s = gostrings.TrimRight s cut +:+ post
        ∧ onlyOf post cut = true
        ∧ endsOutside (gostrings.TrimRight s cut) cut.
Proof.
  induction s as [|c s (post & Heq & Hpost & Hend)]; [by exists EmptyString|].
  cbn [gostrings.TrimRight].
  destruct (gostrings.TrimRight s cut) as [|d r] eqn:Htrim.
  - change (EmptyString +:+ post) with post in Heq. subst s. case_decide as Hc.
    + exists (String c post). split; [done|]. cbn [onlyOf].
      by rewrite bool_decide_eq_true_2, Hpost.
    + exists post. by rewrite append_cons.
  - exists post. by rewrite append_cons, <- Heq.
Qed.

Lemma TrimRight_starts s cut :
  startsOutside s cut → startsOutside (gostrings.TrimRight s cut) cut.
Proof.
  destruct s as [|c s]; [done|]. cbn [gostrings.TrimRight startsOutside]. intros Hc.
  destruct (gostrings.TrimRight s cut); [by rewrite decide_False|done].
Qed.

Lemma Trim_spec s cut :
  ∃ pre post,
    s = pre +:+ gostrings.Trim s cut +:+ post
    ∧ onlyOf pre cut = true ∧ onlyOf post cut = true
    ∧ startsOutside (gostrings.Trim s cut) cut
    ∧ endsOutside (gostrings.Trim s cut) cut.
Proof.
  destruct (TrimLeft_spec s cut) as (pre & Heq & Hpre & Hstart).
  destruct (TrimRight_spec (gostrings.TrimLeft s cut) cut) as (post & Heq' & Hpost & Hend).
  exists pre, post. unfold gostrings.Trim. rewrite <- Heq', <- Heq.
  split; [done|]. split; [done|]. split; [done|]. split; [|done].
  by apply TrimRight_starts.
Qed.

Lemma Split_plain f sep :
  avoids f [sep] = true → gostrings.Split f sep = [f].
Proof.
  induction f as [|c f IH]; [done|]. cbn [avoids].
  intros [Hc Hf]%andb_true_iff. apply negb_true_iff, bool_decide_eq_false in Hc.
  cbn [gostrings.Split]. rewrite decide_False by set_solver. by rewrite IH.
Qed.

Lemma Split_field f rest sep :
  avoids f [sep] = true →
  gostrings.Split (f +:+ String sep rest) sep = f :: gostrings.Split rest sep.
Proof.
  induction f as [|c f IH].
  - intros _. change (EmptyString +:+ String sep rest) with (String sep rest).
    cbn [gostrings.Split]. by rewrite decide_True.
  - cbn [avoids]. intros [Hc Hf]%andb_true_iff.
    apply negb_true_iff, bool_decide_eq_false in Hc.
    change (String c f +:+ String sep rest) with (String c (f +:+ String sep rest)).
    cbn [gostrings.Split]. rewrite decide_False by set_solver. by rewrite IH.
Qed.

Lemma Join_cons2 e e' rest sep :
  gostrings.Join (e :: e' :: rest) sep = e +:+ sep +:+ gostrings.Join (e' :: rest) sep.
Proof. done. Qed.

Lemma Split_Join fields sep :
  fields ≠ [] →
  Forall (λ f, avoids f [sep] = true) fields →
  gostrings.Split (gostrings.Join fields (String sep EmptyString)) sep = fields.
Proof.
  intros Hne Hall. induction Hall as [|f fields Hf Hall IH]; [done|].
  destruct fields as [|f' fields].
  - by apply Split_plain.
  - rewrite Join_cons2.
    change (String sep EmptyString +:+ ?x) with (String sep x).
    rewrite Split_field by done. by rewrite IH.
Qed.

Lemma collapse_Join_escape fields :
  collapse (gostrings.Join (map escapeBackslash fields) (String TAB EmptyString)) =
  gostrings.Join fields (String TAB EmptyString).
Proof.
  induction fields as [|f fields IH]; [done|].
  destruct fields as [|f' fields].
  - cbn [map gostrings.Join].
    rewrite <- (append_nil_r (escapeBackslash f)), collapse_escape_app.
    apply append_nil_r.
  - cbn [map]. rewrite !Join_cons2, collapse_escape_app.
    change (String TAB EmptyString +:+ ?x) with (String TAB x).
    rewrite collapse_cons_ne by done. by rewrite <- IH.
Qed.

Lemma Join_avoids fields sep cut :
  Forall (λ f, avoids f cut = true) fields →
  avoids sep cut = true →
  avoids (gostrings.Join fields sep) cut = true.
Proof.
  intros Hall Hsep. induction Hall as [|f fields Hf Hall IH]; [done|].
  destruct fields as [|f' fields]; [done|].
  rewrite Join_cons2, !avoids_app, Hf, Hsep. exact IH.
Qed.

Lemma terminator_trims term :
  term = String LF EmptyString ∨ term = String CR (String LF EmptyString) →
  avoids term [backslash] = true
  ∧ gostrings.TrimRight term [CR; LF] = EmptyString
  ∧ gostrings.TrimLeft term [CR; LF] = EmptyString.
Proof. by intros [-> | ->]. Qed.

(** Any line whose body holds no carriage return and no line feed. *)
Lemma copyBlockValues_line body term :
  avoids body [CR; LF] = true →
  term = String LF EmptyString ∨ term = String CR (String LF EmptyString) →
  copyBlockValues (body +:+ term) = gostrings.Split (collapse body) TAB.
Proof.
  intros Hbody Hterm. destruct (terminator_trims term Hterm) as (Hplain & Hr & Hl).
  unfold copyBlockValues. rewrite collapse_app_plain by done.
  rewrite Trim_body; [done| |done..]. by apply collapse_avoids.
Qed.

(** The amended C3.  In data mode every data line of a copy block reaches
    the row converter as the values that [copyBlockValues] computes: the
    doubled backslashes are collapsed to single ones, the carriage returns
    and line feeds at the two ends of the line are stripped, and what is
    left (the content between the longest runs of such bytes at the two
    ends) is split at the tabs.  For a line whose content holds no carriage
    return and no line feed this removes exactly the line terminator; in
    particular values written with their backslashes doubled come back as
    the originals, spaces at their ends included. *)
Theorem copyBlockValues_decodes :
  (∀ fuel conv t cs r b rest,
     DataMode conv = true → EOF r = false →
     pending r = b :: rest → endOfCopy b = false →
     ∃ r1, pending r1 = rest ∧ EOF r1 = false
         ∧ processCopyBlock_loop (S fuel) conv t cs r =
           processCopyBlock_loop fuel
             (logCalls [CallStatsAddRow t false;
                        CallProcessDataRow t cs (copyBlockValues b)] conv)
             t cs r1)
  ∧ (∀ b, ∃ pre content post,
          collapse b = pre +:+ content +:+ post
          ∧ onlyOf pre [CR; LF] = true ∧ onlyOf post [CR; LF] = true
          ∧ startsOutside content [CR; LF] ∧ endsOutside content [CR; LF]
          ∧ copyBlockValues b = gostrings.Split content TAB)
  ∧ (∀ body term,
       avoids body [CR; LF] = true →
       term = String LF EmptyString ∨ term = String CR (String LF EmptyString) →
       copyBlockValues (body +:+ term) = gostrings.Split (collapse body) TAB)
  ∧ (∀ fields term,
       fields ≠ [] →
       Forall (λ f, avoids f [TAB; CR; LF] = true) fields →
       term = String LF EmptyString ∨ term = String CR (String LF EmptyString) →
       copyBlockValues (copyBlockLine fields term) = fields).
Proof.
  split; [|split; [|split]].
  - intros fuel conv t cs r b rest Hdata Heof Hp Hb.
    destruct (processCopyBlock_loop_line fuel conv t cs r b rest Hp Heof Hb)
      as (r1 & Hp1 & _ & Heof1 & Hrun).
    exists r1. split; [done|]. split; [done|]. rewrite Hrun.
    unfold copyBlockCalls. simpl. rewrite Hdata.
    unfold DataMode, SchemaMode in *. by destruct (mode conv).
  - intros b. destruct (Trim_spec (collapse b) [CR; LF])
      as (pre & post & Heq & Hpre & Hpost & Hstart & Hend).
    by exists pre, (gostrings.Trim (collapse b) [CR; LF]), post.
  - apply copyBlockValues_line.
  - intros fields term Hne Hall Hterm. unfold copyBlockLine.
    rewrite copyBlockValues_line; [|apply Join_avoids|done].
    + rewrite collapse_Join_escape. apply Split_Join; [done|].
      eapply Forall_impl; [exact Hall|]. intros f.
      apply avoids_sub. intros x ->%list_elem_of_singleton. constructor.
    + apply Forall_fmap. eapply Forall_impl; [exact Hall|]. intros f Hf. simpl.
      apply escapeBackslash_avoids. revert Hf. apply avoids_sub.
      by apply list_subseteq_cons.
    + done.
Qed.

Lemma copyBlockValues_decodes_witness :
  copyBlockValues SampleLines.line = ["a\b"; " c "].
Proof.
  apply (proj2 (proj2 (proj2 copyBlockValues_decodes))
           SampleLines.fields (String LF EmptyString)).
  - done.
  - repeat constructor.
  - by left.
Defined.

(** C3 as stated fails: a carriage return at the start of a line is not
    part of the line terminator, yet it is removed; the first value of the
    line loses it. *)
Lemma copyBlockValues_strips_leading_cr :
  copyBlockValues SampleLines.crLine = ["x"]
  ∧ copyBlockValues SampleLines.crLine ≠
    gostrings.Split (collapse SampleLines.crBody) TAB.
Proof. split; [done|]. vm_compute. discriminate. Qed.

End CopyBlockValues.

(** ** The statement dispatcher *)

Section Dispatcher.

Variable LoadLocation : string -> errorOr Location.




(** The column list of a COPY is read in the same way from every state. *)
Lemma processCopyStmt_attlist_writer attlist :
  ∃ us,
    diagnosticsOnly us
    ∧ ∀ conv cols0,
        processCopyStmt_attlist conv attlist cols0 =
        (logCalls us conv, cols0 ++ map copyColumn attlist).
Proof.
  induction attlist as [|a attlist (us & Hus & IH)].
  - exists []. split; [constructor|]. intros conv cols0.
    cbn [processCopyStmt_attlist map]. by rewrite logCalls_nil, app_nil_r.
  - cbn [processCopyStmt_attlist map].
    change (copyColumn a)
      with (match getString a with inl s => s | inr _ => "BOGUS_COPY_FROM_COLUMN" end).
    destruct (getString a) as [s|err].
    + exists us. split; [done|]. intros conv cols0. by rewrite IH, <- app_assoc.
    + exists (CallUnexpected ("Processing CopyStmt statement Attlist: " +:+ err) :: us).
      split; [by constructor|]. intros conv cols0.
      rewrite IH. unfold Unexpected. by rewrite call_logCalls, logCalls_app, <- app_assoc.
Qed.


(** An INSERT that has its SELECT part is processed without panic. *)
Lemma processInsertStmt_complete conv n :
  SelectStmt n ≠ None → processInsertStmt conv n ≠ Panics.
Proof.
  unfold processInsertStmt. intros Hsel.
  destruct (InsertRelation n) as [rel|]; [destruct (getTableName rel) as [table|err]|];
    [destruct (SrcSchema conv !! table) as [t|]| |]; try done.
  destruct (getCols (Cols n) []); [|done].
  destruct (SelectStmt n) as [sel|]; [|done].
  destruct sel; try done. destruct (getRows _ _ _). by destruct (DataMode _).
Qed.


End Dispatcher.


(** ** Inherited and unknown tables *)

Section UnknownTables.

(** C9.  A CREATE TABLE that declares inheritance is skipped: it is recorded
    with [SkipStatement] and an [Unexpected] diagnostic, and the source
    schema stays as it was, so the table gets no entry.  An ALTER TABLE, an
    INSERT or a COPY that names a table absent from the source schema is
    skipped likewise, with a [SkipStatement] record and a message for the
    verbose output; no statement error is recorded, the handler returns, and
    the schema is not touched. *)
Theorem inherited_and_unknown_tables_skipped conv rel table :
  getTableName rel = inl table →
  (∀ n, CreateRelation n = Some rel → InhRelations n ≠ [] →
     ∃ conv',
       processCreateStmt conv n = Returns conv'
       ∧ SrcSchema conv' = SrcSchema conv
       ∧ calls conv' = calls conv ++
           [CallSkipStatement "CreateStmt";
            CallUnexpected ("Found inherited table " +:+ table +:+
                            " -- we do not currently handle inherited tables")])
  ∧ (SrcSchema conv !! table = None →
     (∀ n, AlterRelation n = Some rel →
        ∃ conv',
          processAlterTableStmt conv n = Returns conv'
          ∧ SrcSchema conv' = SrcSchema conv
          ∧ calls conv' = calls conv ++ [CallSkipStatement "AlterTableStmt"]
          ∧ verbose conv' = verbose conv ++
              ["Processing AlterTableStmt statement: table " +:+ table +:+ " not found"])
     ∧ (∀ n, InsertRelation n = Some rel →
          ∃ conv',
            processInsertStmt conv n = Returns (conv', None)
            ∧ SrcSchema conv' = SrcSchema conv
            ∧ calls conv' = calls conv ++ [CallSkipStatement "InsertStmt"]
            ∧ verbose conv' = verbose conv ++
                ["Processing InsertStmt statement: table " +:+ table +:+ " not found"])
     ∧ (∀ n, CopyRelation n = Some rel →
          ∃ conv',
            processCopyStmt conv n = (conv', mkCopyOrInsert copyFrom table [] [])
            ∧ SrcSchema conv' = SrcSchema conv
            ∧ calls conv' = calls conv ++ [CallSkipStatement "CopyStmt"]
            ∧ verbose conv' = verbose conv ++
                ["Processing CopyStmt statement: table " +:+ table +:+ " not found"])).
Proof.
  intros Hname. split.
  - intros n Hrel Hinh. unfold processCreateStmt. rewrite Hrel, Hname.
    rewrite decide_True by (destruct (InhRelations n); [done|simpl; lia]).
    eexists. split; [reflexivity|]. split; [done|]. simpl. by rewrite <- app_assoc.
  - intros Hunknown. split; [|split].
    + intros n Hrel. unfold processAlterTableStmt. rewrite Hrel, Hname, Hunknown.
      by eexists.
    + intros n Hrel. unfold processInsertStmt. rewrite Hrel, Hname, Hunknown.
      by eexists.
    + intros n Hrel. unfold processCopyStmt. rewrite Hrel, Hname.
      cbn [SrcSchema]. rewrite Hunknown. by eexists.
Qed.

Lemma inherited_and_unknown_tables_skipped_witness :
  ∃ conv',
    processCreateStmt Sample.conv0 SampleBatch.createLog = Returns conv'
    ∧ SrcSchema conv' = SrcSchema Sample.conv0
    ∧ calls conv' = calls Sample.conv0 ++
        [CallSkipStatement "CreateStmt";
         CallUnexpected ("Found inherited table " +:+ "audit_log" +:+
                         " -- we do not currently handle inherited tables")].
Proof.
  apply (proj1 (inherited_and_unknown_tables_skipped
                  Sample.conv0 SampleBatch.logRel "audit_log" eq_refl)
           SampleBatch.createLog); done.
Defined.

End UnknownTables.

(** ** Rows of INSERT and COPY statements *)

Section Rows.

Variable LoadLocation : string -> errorOr Location.

Lemma diagnosticsOnly_rowsCounted t cs : diagnosticsOnly cs → rowsCounted t cs = 0%nat.
Proof.
  induction 1 as [|c cs Hc _ IH]; [done|]. unfold rowsCounted in *.
  destruct c; try discriminate Hc. exact IH.
Qed.

Lemma diagnosticsOnly_rowsConverted cs : diagnosticsOnly cs → rowsConverted cs = [].
Proof.
  induction 1 as [|c cs Hc _ IH]; [done|]. unfold rowsConverted in *.
  destruct c; try discriminate Hc. exact IH.
Qed.

Ltac log_step IH :=
  match goal with
  | |- ∃ us, _ ∧ (_ (Unexpected ?msg ?conv) _ _).1 = _ =>
      let us := fresh "us" in let Hus := fresh "Hus" in let Heq := fresh "Heq" in
      edestruct IH as (us & Hus & Heq);
      exists (CallUnexpected msg :: us); split;
      [by constructor
      |rewrite Heq; unfold Unexpected; by rewrite call_logCalls, logCalls_app]
  | |- _ => apply IH
  end.

Lemma getRows_values_logs conv items values :
  ∃ us, diagnosticsOnly us ∧ (getRows_values conv items values).1 = logCalls us conv.
Proof.
  revert conv values. induction items as [|v items IH]; intros conv values.
  - exists []. split; [constructor|]. by rewrite logCalls_nil.
  - destruct v as [| |val| | | | | | | |]; cbn [getRows_values];
      try destruct val; log_step IH.
Qed.

Lemma getRows_logs conv vll rows0 :
  ∃ us, diagnosticsOnly us ∧ (getRows conv vll rows0).1 = logCalls us conv.
Proof.
  revert conv rows0. induction vll as [|vl vll IH]; intros conv rows0.
  - exists []. split; [constructor|]. by rewrite logCalls_nil.
  - cbn [getRows].
    assert (∃ us conv1 values,
              diagnosticsOnly us ∧ conv1 = logCalls us conv
              ∧ match vl with
                | Node_List items => getRows_values conv items []
                | vals =>
                    (Unexpected ("Processing InsertStmt statement: found " +:+
                                 printNodeType vals +:+ " in ValuesList") conv, [])
                end = (conv1, values)) as (us & conv1 & values & Hus & -> & ->).
    { destruct vl as [?|?|?|?|items|? ?|?|?|?|?|?];
        try (eexists [_], _, _; (split; [|split; reflexivity]); by repeat constructor).
      destruct (getRows_values_logs conv items []) as (us & Hus & Heq).
      exists us. destruct (getRows_values conv items []) as [conv1 values].
      exists conv1, values. by simpl in Heq. }
    destruct (IH (logCalls us conv) (rows0 ++ [values])) as (us' & Hus' & Heq).
    exists (us ++ us'). split; [by apply Forall_app|].
    by rewrite Heq, logCalls_app.
Qed.

Lemma processCopyStmt_attlist_logs conv attlist cols0 :
  ∃ us, diagnosticsOnly us
      ∧ (processCopyStmt_attlist conv attlist cols0).1 = logCalls us conv.
Proof.
  revert conv cols0. induction attlist as [|a attlist IH]; intros conv cols0.
  - exists []. split; [constructor|]. by rewrite logCalls_nil.
  - cbn [processCopyStmt_attlist]. destruct (getString a); log_step IH.
Qed.

Lemma getCols_targets names cols0 :
  Forall (λ c, c ≠ EmptyString) names →
  getCols (map Node_ResTarget names) cols0 = inl (cols0 ++ names).
Proof.
  intros Hnames. revert cols0.
  induction Hnames as [|c names Hc _ IH]; intros cols0.
  - by rewrite app_nil_r.
  - cbn [map getCols]. rewrite decide_True by done.
    by rewrite IH, <- app_assoc.
Qed.

(** The rows of an INSERT go to the converter one by one. *)
Lemma processInsertRows_calls conv ci rs :
  processInsertRows conv ci rs =
  logCalls
    (map (λ vals,
            CallProcessDataRow (table ci)
              (if decide (length (ci_cols ci) = 0%nat)
               then schema.ColNames (srcTable conv (table ci))
               else ci_cols ci) vals) rs)
    conv.
Proof.
  revert conv. induction rs as [|vals rs IH]; intros conv.
  - by rewrite logCalls_nil.
  - cbn [processInsertRows map]. rewrite IH.
    case_decide; unfold ProcessDataRow; by rewrite call_logCalls, logCalls_app.
Qed.

(** An INSERT with a VALUES list into a table of the source schema. *)
Lemma processInsertStmt_known conv n rel tbl t names vls :
  InsertRelation n = Some rel → getTableName rel = inl tbl →
  SrcSchema conv !! tbl = Some t →
  Cols n = map Node_ResTarget names → Forall (λ c, c ≠ EmptyString) names →
  SelectStmt n = Some (Node_SelectStmt vls) →
  ∃ us,
    diagnosticsOnly us
    ∧ processInsertStmt conv n =
      Returns
        (logCalls ([CallStatsAddRow tbl (SchemaMode conv)] ++ us ++
                   [CallDataStatement "SelectStmt"]) conv,
         if DataMode conv
         then Some (mkCopyOrInsert insert tbl names
                      (getRows (StatsAddRow tbl (SchemaMode conv) conv) vls []).2)
         else None).
Proof.
  intros Hrel Hname Ht Hcols Hnames Hsel. unfold processInsertStmt.
  rewrite Hrel, Hname, Ht, Hcols, (getCols_targets _ _ Hnames), Hsel.
  destruct (getRows_logs (StatsAddRow tbl (SchemaMode conv) conv) vls [])
    as (us & Hus & Heq).
  exists us. split; [done|].
  destruct (getRows (StatsAddRow tbl (SchemaMode conv) conv) vls []) as [conv1 rs].
  simpl in Heq. subst conv1. cbn [snd app].
  unfold DataStatement, StatsAddRow. rewrite !call_logCalls, !logCalls_app.
  unfold DataMode. cbn [logCalls mode app]. by destruct (mode conv).
Qed.

Lemma rowsConverted_app cs1 cs2 :
  rowsConverted (cs1 ++ cs2) = rowsConverted cs1 ++ rowsConverted cs2.
Proof. unfold rowsConverted. by rewrite List.filter_app. Qed.

Lemma rowsCounted_converter t tbl cols (rs : list (list string)) :
  rowsCounted t (map (λ vals, CallProcessDataRow tbl cols vals) rs) = 0%nat.
Proof. by induction rs. Qed.

Lemma rowsConverted_converter tbl cols (rs : list (list string)) :
  rowsConverted (map (λ vals, CallProcessDataRow tbl cols vals) rs) =
  map (λ vals, CallProcessDataRow tbl cols vals) rs.
Proof. induction rs as [|vals rs IH]; [done|]. unfold rowsConverted in *. simpl. by rewrite IH. Qed.

Lemma getRows_length conv vll rows0 :
  length (getRows conv vll rows0).2 = (length rows0 + length vll)%nat.
Proof.
  revert conv rows0. induction vll as [|vl vll IH]; intros conv rows0.
  - simpl. lia.
  - cbn [getRows].
    match goal with |- context [let '(_, _) := ?x in _] => destruct x as [conv1 values] end.
    rewrite IH, length_app. simpl. lia.
Qed.

(** A COPY into a table of the source schema. *)
Lemma processCopyStmt_known conv n rel tbl t :
  CopyRelation n = Some rel → getTableName rel = inl tbl →
  SrcSchema conv !! tbl = Some t →
  ∃ us cols,
    diagnosticsOnly us
    ∧ processCopyStmt conv n =
      (logCalls (us ++ [CallDataStatement "CopyStmt"]) conv,
       mkCopyOrInsert copyFrom tbl cols []).
Proof.
  intros Hrel Hname Ht. unfold processCopyStmt. rewrite Hrel, Hname, Ht.
  destruct (processCopyStmt_attlist_logs conv (Attlist n) []) as (us & Hus & Heq).
  destruct (processCopyStmt_attlist conv (Attlist n) []) as [conv1 cols].
  simpl in Heq. subst conv1. exists us, cols. split; [done|].
  unfold DataStatement. by rewrite call_logCalls, logCalls_app.
Qed.

(** C7.  In data mode the rows of an INSERT into a table of the source
    schema reach the row converter, one [ProcessDataRow] call per VALUES
    list, with the column names of the statement in the order written; when
    the statement names no column, they come with the whole column order
    that the source schema holds for the table. *)
Theorem insert_rows_take_listed_or_schema_columns conv n rel tbl t names vls r :
  DataMode conv = true →
  InsertRelation n = Some rel → getTableName rel = inl tbl →
  SrcSchema conv !! tbl = Some t →
  Cols n = map Node_ResTarget names → Forall (λ c, c ≠ EmptyString) names →
  SelectStmt n = Some (Node_SelectStmt vls) →
  ∃ conv1 ci conv2,
    processStatements LoadLocation conv [Node_InsertStmt n] = Returns (conv1, Some ci)
    ∧ processCopyOrInsert conv1 (Some ci) r = Some (conv2, r)
    ∧ length (rows ci) = length vls
    ∧ calls conv2 = calls conv1 ++
        map (λ vals,
               CallProcessDataRow tbl
                 match names with
                 | [] => schema.ColNames t
                 | _ :: _ => names
                 end vals)
          (rows ci).
Proof.
  intros Hdata Hrel Hname Ht Hcols Hnames Hsel.
  destruct (processInsertStmt_known conv n rel tbl t names vls
              Hrel Hname Ht Hcols Hnames Hsel) as (us & Hus & Hrun).
  cbn [processStatements]. rewrite Hrun, Hdata.
  eexists _, _, _. split; [reflexivity|].
  unfold processCopyOrInsert. cbn [stmt rows].
  rewrite processInsertRows_calls. split; [reflexivity|].
  split; [by rewrite getRows_length|].
  cbn [logCalls calls table ci_cols]. f_equal. apply map_ext. intros vals.
  change (srcTable (logCalls ?cs conv) tbl) with (srcTable conv tbl).
  rewrite (srcTable_known _ _ _ Ht). by destruct names.
Qed.

Lemma getRows_values_spec conv items values :
  (getRows_values conv items values).2 = values ++ omap constText items.
Proof.
  revert conv values. induction items as [|v items IH]; intros conv values.
  - by rewrite app_nil_r.
  - destruct v as [?|?|val|?|?|? ?|?|?|?|?|?]; cbn [getRows_values omap constText];
      try apply IH.
    destruct val; cbn [omap constText]; rewrite IH; try done;
      by rewrite <- app_assoc.
Qed.

Lemma getRows_spec conv vll rows0 :
  (getRows conv vll rows0).2 = rows0 ++ map rowOf vll.
Proof.
  revert conv rows0. induction vll as [|vl vll IH]; intros conv rows0.
  - by rewrite app_nil_r.
  - cbn [getRows map].
    assert (∀ c, (match vl with
                  | Node_List items => getRows_values c items []
                  | vals =>
                      (Unexpected ("Processing InsertStmt statement: found " +:+
                                   printNodeType vals +:+ " in ValuesList") c, [])
                  end).2 = rowOf vl) as Hrow.
    { intros c. destruct vl; try done. by rewrite getRows_values_spec. }
    specialize (Hrow conv).
    match goal with |- context [let '(_, _) := ?x in _] => destruct x as [conv1 values] end.
    simpl in Hrow. subst values. by rewrite IH, <- app_assoc.
Qed.

(** C6.  An INSERT with a VALUES list and a COPY, each into a table of the
    source schema, are tallied whatever the mode: the INSERT with one
    [StatsAddRow] call and a [DataStatement] record, the COPY with a
    [DataStatement] record and one [StatsAddRow] call per line of its block.
    Their rows reach the row converter in data mode only: in schema mode no
    [ProcessDataRow] call is made and the INSERT returns nothing for the
    driver; in data mode there is one call per row, for the INSERT with the
    constants of each VALUES list under the columns of the statement (the
    table's own when it names none), for the COPY with the values of each
    line under the columns of its column list. *)
Theorem rows_tallied_in_both_modes_converted_in_data_mode conv rel tbl t :
  getTableName rel = inl tbl →
  SrcSchema conv !! tbl = Some t →
  (∀ n names vls r,
     InsertRelation n = Some rel →
     Cols n = map Node_ResTarget names → Forall (λ c, c ≠ EmptyString) names →
     SelectStmt n = Some (Node_SelectStmt vls) →
     ∃ conv1 conv2,
       processStatements LoadLocation conv [Node_InsertStmt n] =
         Returns (conv1,
                  if DataMode conv
                  then Some (mkCopyOrInsert insert tbl names (map rowOf vls))
                  else None)
       ∧ processCopyOrInsert conv1
           (if DataMode conv
            then Some (mkCopyOrInsert insert tbl names (map rowOf vls))
            else None) r = Some (conv2, r)
       ∧ rowsCounted tbl (calls conv2) = S (rowsCounted tbl (calls conv))
       ∧ last (calls conv1) = Some (CallDataStatement "SelectStmt")
       ∧ rowsConverted (calls conv2) =
           rowsConverted (calls conv) ++
           (if DataMode conv
            then map (λ vl,
                        CallProcessDataRow tbl
                          match names with
                          | [] => schema.ColNames t
                          | _ :: _ => names
                          end (rowOf vl)) vls
            else []))
  ∧ (∀ n r lines marker rest,
       CopyRelation n = Some rel →
       EOF r = false →
       pending r = lines ++ marker :: rest →
       Forall (λ b, endOfCopy b = false) lines →
       endOfCopy marker = true →
       ∃ conv1 conv2 r2,
         processStatements LoadLocation conv [Node_CopyStmt n] =
           Returns (conv1,
                    Some (mkCopyOrInsert copyFrom tbl (map copyColumn (Attlist n)) []))
         ∧ processCopyOrInsert conv1
             (Some (mkCopyOrInsert copyFrom tbl (map copyColumn (Attlist n)) [])) r =
           Some (conv2, r2)
         ∧ pending r2 = rest
         ∧ last (calls conv1) = Some (CallDataStatement "CopyStmt")
         ∧ rowsCounted tbl (calls conv2) =
             (rowsCounted tbl (calls conv) + length lines)%nat
         ∧ rowsConverted (calls conv2) =
             rowsConverted (calls conv) ++
             (if DataMode conv
              then map (λ b,
                          CallProcessDataRow tbl (map copyColumn (Attlist n))
                            (copyBlockValues b)) lines
              else [])).
Proof.
  intros Hname Ht. split.
  - intros n names vls r Hrel Hcols Hnames Hsel.
    destruct (processInsertStmt_known conv n rel tbl t names vls
                Hrel Hname Ht Hcols Hnames Hsel) as (us & Hus & Hrun).
    cbn [processStatements]. rewrite Hrun, getRows_spec.
    change ([] ++ map rowOf vls) with (map rowOf vls).
    set (cols := match names with [] => schema.ColNames t | _ :: _ => names end).
    set (tally := [CallStatsAddRow tbl (SchemaMode conv)] ++ us ++
                  [CallDataStatement "SelectStmt"]).
    assert (Hcount : rowsCounted tbl tally = 1%nat).
    { unfold tally. rewrite !rowsCounted_app, (diagnosticsOnly_rowsCounted _ _ Hus).
      unfold rowsCounted. simpl. by rewrite bool_decide_eq_true_2. }
    assert (Hconv : rowsConverted tally = []).
    { unfold tally. rewrite !rowsConverted_app.
      by rewrite (diagnosticsOnly_rowsConverted _ Hus). }
    assert (Hlast : last (calls conv ++ tally) = Some (CallDataStatement "SelectStmt")).
    { unfold tally. by rewrite !app_assoc, last_snoc. }
    destruct (DataMode conv) eqn:Hmode.
    + eexists _, _. split; [reflexivity|].
      unfold processCopyOrInsert. cbn [stmt rows]. rewrite processInsertRows_calls.
      split; [reflexivity|]. rewrite logCalls_app. cbn [logCalls calls table ci_cols].
      change (srcTable (logCalls ?cs conv) tbl) with (srcTable conv tbl).
      rewrite (srcTable_known _ _ _ Ht).
      assert (Hcols' : (if decide (length names = 0%nat)
                        then schema.ColNames t else names) = cols)
        by (by destruct names).
      rewrite Hcols', map_map.
      split; [|split; [done|]].
      * rewrite !rowsCounted_app, Hcount.
        rewrite <- (map_map rowOf (λ vals, CallProcessDataRow tbl cols vals)),
          rowsCounted_converter. lia.
      * rewrite !rowsConverted_app, Hconv.
        rewrite <- (map_map rowOf (λ vals, CallProcessDataRow tbl cols vals)),
          rowsConverted_converter. by rewrite map_map.
    + eexists _, _. split; [reflexivity|].
      cbn [processCopyOrInsert]. split; [reflexivity|]. cbn [logCalls calls].
      split; [|split; [done|]].
      * rewrite rowsCounted_app, Hcount. lia.
      * by rewrite rowsConverted_app, Hconv.
  - intros n r lines marker rest Hrel Heof Hp Hlines Hmarker.
    destruct (processCopyStmt_attlist_writer (Attlist n)) as (us & Hus & Hatt).
    cbn [processStatements]. unfold processCopyStmt. rewrite Hrel, Hname, Ht, Hatt.
    cbn [app]. set (cols := map copyColumn (Attlist n)).
    set (conv1 := DataStatement "CopyStmt" (logCalls us conv)).
    destruct (processCopyBlock_to_marker conv1 tbl cols r lines marker rest
                Heof Hlines Hp Hmarker) as (conv2 & r2 & Hblock & Hp2 & _ & Hcalls & _).
    exists conv1, conv2, r2.
    split; [done|]. split; [exact Hblock|]. split; [done|].
    split; [by unfold conv1, DataStatement; cbn [call logCalls calls]; rewrite last_snoc|].
    rewrite Hcalls. unfold conv1, DataStatement. rewrite call_logCalls, logCalls_app.
    cbn [logCalls calls]. rewrite copyBlockCalls_logCalls. split.
    + rewrite !rowsCounted_app, (diagnosticsOnly_rowsCounted _ _ Hus),
        rowsCounted_copyBlockCalls.
      unfold rowsCounted. simpl. lia.
    + rewrite !rowsConverted_app, (diagnosticsOnly_rowsConverted _ Hus),
        rowsConverted_copyBlockCalls.
      by rewrite app_nil_r.
Qed.

End Rows.

Lemma insert_rows_take_listed_or_schema_columns_witness :
  ∃ conv1 ci conv2,
    processStatements SampleBatch.noZone SampleBatch.dataConv
      [Node_InsertStmt SampleBatch.insertCart] = Returns (conv1, Some ci)
    ∧ processCopyOrInsert conv1 (Some ci) (NewReader EmptyString) =
      Some (conv2, NewReader EmptyString)
    ∧ length (rows ci) = 1%nat
    ∧ calls conv2 = calls conv1 ++
        map (λ vals, CallProcessDataRow "cart" ["id"; "qty"] vals) (rows ci).
Proof.
  exact (insert_rows_take_listed_or_schema_columns SampleBatch.noZone
           SampleBatch.dataConv SampleBatch.insertCart SampleBatch.cartRel "cart"
           Sample.cart []
           [Node_List [Node_AConst (Node_Integer 7); Node_AConst (SampleBatch.str "x")]]
           (NewReader EmptyString)
           eq_refl eq_refl eq_refl eq_refl eq_refl (List.Forall_nil _) eq_refl).
Defined.

Lemma rows_tallied_in_both_modes_converted_in_data_mode_witness :
  ∃ conv1 conv2,
    processStatements SampleBatch.noZone SampleBatch.dataConv
      [Node_InsertStmt SampleBatch.insertCartCols] =
      Returns (conv1,
               Some (mkCopyOrInsert insert "cart" ["qty"; "id"] [["1"; "2"]; ["3"; "4"]]))
    ∧ processCopyOrInsert conv1
        (Some (mkCopyOrInsert insert "cart" ["qty"; "id"] [["1"; "2"]; ["3"; "4"]]))
        (NewReader EmptyString) = Some (conv2, NewReader EmptyString)
    ∧ rowsCounted "cart" (calls conv2) = 1%nat
    ∧ last (calls conv1) = Some (CallDataStatement "SelectStmt")
    ∧ rowsConverted (calls conv2) =
        [CallProcessDataRow "cart" ["qty"; "id"] ["1"; "2"];
         CallProcessDataRow "cart" ["qty"; "id"] ["3"; "4"]].
Proof.
  exact (proj1 (rows_tallied_in_both_modes_converted_in_data_mode SampleBatch.noZone
                  SampleBatch.dataConv SampleBatch.cartRel "cart" Sample.cart
                  eq_refl eq_refl)
           SampleBatch.insertCartCols ["qty"; "id"]
           [Node_List [Node_AConst (Node_Integer 1); Node_AConst (Node_Integer 2)];
            Node_List [Node_AConst (Node_Integer 3); Node_AConst (Node_Integer 4)]]
           (NewReader EmptyString) eq_refl eq_refl
           ltac:(by repeat constructor) eq_refl).
Defined.

(** ** The primary-key finalizer *)

Section Finalizer.

Lemma append_inj_l (p a b : string) : p +:+ a = p +:+ b → a = b.
Proof.
  induction p as [|c p IH]; [done|]. rewrite !append_cons. intros [= H]. by apply IH.
Qed.

Lemma pretty_N_go_length x s :
  (String.length s ≤ String.length (pretty_N_go x s))%nat.
Proof.
  revert s. induction (N.lt_wf_0 x) as [x _ IH]; intros s.
  destruct (decide (x = 0)%N) as [->|Hx]; [by rewrite pretty_N_go_0|].
  rewrite pretty_N_go_step by lia.
  etrans; [|apply IH, N.div_lt; lia]. simpl. lia.
Qed.

Lemma pretty_nat_nonempty (j : nat) : pretty j ≠ EmptyString.
Proof.
  unfold pretty, pretty_nat, pretty, pretty_N. case_decide as Hj; [done|].
  rewrite pretty_N_go_step by lia. intros Hnil.
  pose proof (pretty_N_go_length (N.of_nat j `div` 10)
                (String (pretty_N_char (N.of_nat j `mod` 10)) EmptyString)) as Hlen.
  rewrite Hnil in Hlen. simpl in Hlen. lia.
Qed.

(** Different counters give different candidate names. *)
#[local] Instance synthName_inj : Inj (=) (=) synthName.
Proof.
  intros [|i] [|j] H; cbn [synthName] in H; [done|..].
  - exfalso. apply (pretty_nat_nonempty j).
    apply (append_inj_l "synth_id"). by rewrite append_nil_r.
  - exfalso. apply (pretty_nat_nonempty i).
    apply (append_inj_l "synth_id"). by rewrite append_nil_r.
  - apply append_inj_l in H. f_equal. by apply (inj pretty).
Qed.

(** A table cannot hold more candidates than it has columns. *)
Lemma candidates_bounded (names : list string) m :
  (∀ j, (j < m)%nat → synthName j ∈ names) → (m ≤ length names)%nat.
Proof.
  intros Hin.
  assert (Hsub : synthName <$> seq 0 m ⊆+ names).
  { apply NoDup_submseteq.
    - apply (NoDup_fmap_2 _), NoDup_seq.
    - intros x (j & -> & Hj)%list_elem_of_fmap. apply Hin.
      apply elem_of_seq in Hj. lia. }
  apply submseteq_length in Hsub. by rewrite length_fmap, length_seq in Hsub.
Qed.

Lemma buildPrimaryKey_from_fresh fuel k (names : list string) :
  (∀ j, (j < k)%nat → synthName j ∈ names) →
  (fuel + k = length names)%nat →
  buildPrimaryKey_from fuel k names ∉ names.
Proof.
  revert k. induction fuel as [|fuel IH]; intros k Htried Hfuel;
    cbn [buildPrimaryKey_from]; case_decide as Hk; try done.
  - exfalso. assert (S k ≤ length names)%nat; [|lia].
    apply candidates_bounded. intros j Hj.
    destruct (decide (j = k)) as [->|]; [done|]. apply Htried. lia.
  - apply IH; [|lia]. intros j Hj.
    destruct (decide (j = k)) as [->|]; [done|]. apply Htried. lia.
Qed.

Lemma buildPrimaryKey_fresh (names : list string) : buildPrimaryKey names ∉ names.
Proof. apply buildPrimaryKey_from_fresh; [lia..]. Qed.

(** The run of the test [TestAddPrimaryKeys]. *)
Example TestAddPrimaryKeys :
  SpSchema (AddPrimaryKeys SampleTarget.conv) !! "table" = Some SampleTarget.expected
  ∧ SyntheticPKeys (AddPrimaryKeys SampleTarget.conv) !! "table" =
    Some (mkSyntheticPKey "synth_id" 0).
Proof. split; by vm_compute. Qed.

(** C4.  After [AddPrimaryKeys], a table of the target schema that had no
    primary key has exactly one primary-key column.  The column is new: its
    name is none of the table's column names; it is the last in the column
    order, its definition is an INT64 column, and the table's sequence
    counter is registered with value zero.  Tables that had a primary key
    are left as they were. *)
Theorem AddPrimaryKeys_synthesizes_key conv t ct :
  SpSchema conv !! t = Some ct →
  (ddl.Pks ct = [] →
   ∃ k,
     (k ∉ ddl.ColNames ct)
     ∧ SpSchema (AddPrimaryKeys conv) !! t =
         Some (ddl.mkCreateTable (ddl.Name ct) (ddl.ColNames ct ++ [k])
                 (<[k := ddl.mkColumnDef k (ddl.mkType ddl.Int64)]> (ddl.ColDefs ct))
                 [ddl.mkIndexKey k false])
     ∧ SyntheticPKeys (AddPrimaryKeys conv) !! t = Some (mkSyntheticPKey k 0))
  ∧ (ddl.Pks ct ≠ [] →
     SpSchema (AddPrimaryKeys conv) !! t = Some ct
     ∧ SyntheticPKeys (AddPrimaryKeys conv) !! t = SyntheticPKeys conv !! t).
Proof.
  intros Ht. unfold AddPrimaryKeys. cbn [SpSchema SyntheticPKeys].
  rewrite lookup_fmap, Ht. cbn [fmap option_fmap option_map]. split.
  - intros Hpk. exists (buildPrimaryKey (ddl.ColNames ct)).
    split; [apply buildPrimaryKey_fresh|].
    unfold lacksKey. rewrite Hpk, bool_decide_eq_true_2 by done.
    split; [done|]. apply lookup_union_Some_l.
    rewrite lookup_omap, Ht. simpl. unfold lacksKey.
    by rewrite Hpk, bool_decide_eq_true_2.
  - intros Hpk. unfold lacksKey.
    rewrite bool_decide_eq_false_2 by (by destruct (ddl.Pks ct)).
    split; [done|]. apply lookup_union_r.
    rewrite lookup_omap, Ht. simpl. unfold lacksKey.
    by rewrite bool_decide_eq_false_2 by (by destruct (ddl.Pks ct)).
Qed.

Lemma AddPrimaryKeys_synthesizes_key_witness :
  ∃ k,
    (k ∉ ["a"; "b"])
    ∧ SpSchema (AddPrimaryKeys SampleTarget.conv) !! "table" =
        Some (ddl.mkCreateTable "table" (["a"; "b"] ++ [k])
                (<[k := ddl.mkColumnDef k (ddl.mkType ddl.Int64)]>
                   (ddl.ColDefs SampleTarget.tableAB))
                [ddl.mkIndexKey k false])
    ∧ SyntheticPKeys (AddPrimaryKeys SampleTarget.conv) !! "table" =
        Some (mkSyntheticPKey k 0).
Proof.
  apply (proj1 (AddPrimaryKeys_synthesizes_key
                  SampleTarget.conv "table" SampleTarget.tableAB eq_refl)).
  done.
Defined.

End Finalizer.

(** ** The driver returns *)

Section Driver.

Variable LoadLocation : string -> errorOr Location.
Variable Parse : string -> option (list RawStmt).

(** A read takes the first pending line, or else ends the stream. *)
Lemma ReadLine_cases r b r1 :
  ReadLine r = (b, r1) →
  (pending r = [] ∧ pending r1 = [] ∧ EOF r1 = true)
  ∨ (∃ rest, pending r = b :: rest ∧ pending r1 = rest ∧ EOF r1 = EOF r).
Proof.
  unfold ReadLine. destruct (pending r) as [|b0 rest]; intros [= <- <-].
  - by left.
  - right. by exists rest.
Qed.

Lemma readLines_progress n r reads r' :
  readLines (S n) r = (reads, r') →
  (EOF r' = true ∨ length (pending r') < length (pending r))%nat.
Proof.
  revert r reads. induction n as [|n IH]; intros r reads.
  - cbn [readLines]. destruct (ReadLine r) as [b r1] eqn:Hread. intros [= _ <-].
    destruct (ReadLine_cases _ _ _ Hread) as [(_ & _ & ?)|(rest & Hp & Hp1 & _)];
      [by left|]. right. rewrite Hp, Hp1. simpl. lia.
  - change (readLines (S (S n)) r)
      with (let '(b, r1) := ReadLine r in
            let '(rest, r2) := readLines (S n) r1 in ((b, EOF r1) :: rest, r2)).
    destruct (ReadLine r) as [b r1] eqn:Hread.
    destruct (readLines (S n) r1) as [rest r2] eqn:Hrest. intros [= _ <-].
    destruct (IH _ _ Hrest) as [?|Hlt]; [by left|]. right.
    destruct (ReadLine_cases _ _ _ Hread) as [(_ & Hp1 & _)|(rest' & Hp & Hp1 & _)].
    + rewrite Hp1 in Hlt. simpl in Hlt. lia.
    + rewrite Hp. rewrite Hp1 in Hlt. simpl. lia.
Qed.

(** A copy block is read to its end whatever the reader holds: the call
    returns, and the reader has moved on or is at end of stream. *)
Lemma processCopyBlock_loop_total fuel conv t cs r :
  (length (pending r) < fuel)%nat →
  ∃ conv' r',
    processCopyBlock_loop fuel conv t cs r = Some (conv', r')
    ∧ (length (pending r') ≤ length (pending r))%nat
    ∧ (EOF r' = true ∨ length (pending r') < length (pending r))%nat
    ∧ (EOF r = true → EOF r' = true).
Proof.
  revert conv r. induction fuel as [|fuel IH]; intros conv r Hfuel; [lia|].
  cbn [processCopyBlock_loop]. destruct (ReadLine r) as [b r1] eqn:Hread.
  assert (Hstep : (length (pending r1) ≤ length (pending r))%nat
                  ∧ (EOF r1 = true ∨ length (pending r1) < length (pending r))%nat
                  ∧ (EOF r = true → EOF r1 = true)).
  { destruct (ReadLine_cases _ _ _ Hread)
      as [(Hp & Hp1 & Heof)|(rest & Hp & Hp1 & Heof)]; rewrite Hp, Hp1.
    - by eauto.
    - simpl. split; [lia|]. split; [right; lia|]. by rewrite Heof. }
  destruct Hstep as (Hle & Hprog & Hmono).
  destruct (endOfCopy b); [by eauto 10|].
  destruct (EOF r1) eqn:Heof1; [by eauto 10|].
  destruct Hprog as [?|Hlt]; [done|].
  assert (Hfuel1 : (length (pending r1) < fuel)%nat) by lia.
  destruct (negb (DataMode (StatsAddRow t (SchemaMode conv) conv)));
    match goal with
    | |- context [processCopyBlock_loop fuel ?c t cs r1] =>
        destruct (IH c r1 Hfuel1) as (conv' & r' & Hrun & Hle' & _ & _)
    end;
    exists conv', r'; (split; [exact Hrun|]); (split; [lia|]);
      (split; [right; lia|]); intros Heof; by specialize (Hmono Heof).
Qed.

(** [processPgDump] returns for every state and every reader: it finishes,
    stops at a parse error, or crashes on a statement; the fuel is enough. *)
Lemma processPgDump_loop_total fuel conv r :
  (length (pending r) < fuel)%nat →
  ∃ res, processPgDump_loop LoadLocation Parse fuel conv r = Some res.
Proof.
  revert conv r. induction fuel as [|fuel IH]; intros conv r Hfuel; [lia|].
  cbn [processPgDump_loop].
  destruct (readAndParseChunk_loop_spec Parse (S (length (pending r))) conv r [])
    as (conv1 & r1 & res & n & reads & Hrun & Hreads & _); [lia|].
  unfold readAndParseChunk. rewrite Hrun.
  pose proof (readLines_progress _ _ _ _ Hreads) as Hprog.
  destruct res as [b stmts|err]; [|by eauto].
  destruct (processStatements LoadLocation conv1 stmts) as [[conv2 ci]|]; [|by eauto].
  match goal with
  | |- context [processCopyOrInsert ?c ci r1] => set (conv3 := c)
  end.
  assert (∃ conv4 r4,
            processCopyOrInsert conv3 ci r1 = Some (conv4, r4)
            ∧ (length (pending r4) ≤ length (pending r1))%nat
            ∧ (EOF r1 = true → EOF r4 = true))
    as (conv4 & r4 & Hci & Hle & Hmono).
  { destruct ci as [ci|]; [|by eauto]. unfold processCopyOrInsert.
    destruct (stmt ci); [|by eauto]. unfold processCopyBlock.
    match goal with
    | |- context [processCopyBlock_loop ?f ?c ?t ?cs r1] =>
        destruct (processCopyBlock_loop_total f c t cs r1)
          as (conv4 & r4 & Hblock & Hle & _ & Hmono); [lia|]
    end.
    by eauto. }
  rewrite Hci. destruct (EOF r4) eqn:Heof4; [by eauto|].
  apply IH. destruct Hprog as [Heof1|Hlt]; [|lia].
  by specialize (Hmono Heof1).
Qed.

Lemma processPgDump_total conv r :
  ∃ res, processPgDump LoadLocation Parse conv r = Some res.
Proof. apply processPgDump_loop_total. lia. Qed.

End Driver.

(** ** A run on a small dump *)

Example NewReader_lines :
  NewReader ("a;" +:+ SampleDump.nl +:+ "b") =
  mkReader ["a;" +:+ SampleDump.nl] "b" 0 0 false.
Proof. reflexivity. Qed.

(** In data mode the two rows of the block are counted and converted. *)
Example processPgDump_copy_block_data :
  ∃ conv' r',
    processPgDump SampleBatch.noZone SampleDump.parse SampleBatch.dataConv
      (NewReader SampleDump.dump) = Some (Finished conv' r')
    ∧ calls conv' =
        [CallDataStatement "CopyStmt";
         CallStatsAddRow "cart" false;
         CallProcessDataRow "cart" ["id"; "qty"] ["1"; "2"];
         CallStatsAddRow "cart" false;
         CallProcessDataRow "cart" ["id"; "qty"] ["3"; " x "]]
    ∧ EOF r' = true.
Proof. eexists _, _. split; [by vm_compute|]. by split. Qed.

(** In schema mode they are counted only. *)
Example processPgDump_copy_block_schema :
  ∃ conv' r',
    processPgDump SampleBatch.noZone SampleDump.parse Sample.conv0
      (NewReader SampleDump.dump) = Some (Finished conv' r')
    ∧ calls conv' =
        [CallDataStatement "CopyStmt";
         CallStatsAddRow "cart" true;
         CallStatsAddRow "cart" true].
Proof. eexists _, _. split; [by vm_compute|]. done. Qed.

(** * Further properties of the statement processor *)

Set Warnings "-clear-no-such-hyp".

(** ** Names *)

(** X1.  [getTableName] fails exactly when the relation name is empty.
    Otherwise the name is made of the catalog, the schema and the relation,
    in this order and joined by dots, a part that is empty being left out;
    the schema [public] counts as no schema, so that a relation in [public]
    has the same name as the unqualified one, while the catalog is kept
    whenever there is one. *)
Theorem getTableName_public_is_default n :
  (Relname n = EmptyString ↔ ∃ err, getTableName n = inr err)
  ∧ getTableName (mkRangeVar (Catalogname n) "public" (Relname n)) =
    getTableName (mkRangeVar (Catalogname n) EmptyString (Relname n))
  ∧ (Relname n ≠ EmptyString → Catalogname n = EmptyString →
     Schemaname n = EmptyString ∨ Schemaname n = "public" →
     getTableName n = inl (Relname n))
  ∧ (Relname n ≠ EmptyString → Catalogname n = EmptyString →
     Schemaname n ≠ EmptyString → Schemaname n ≠ "public" →
     getTableName n = inl (Schemaname n +:+ "." +:+ Relname n))
  ∧ (Relname n ≠ EmptyString → Catalogname n ≠ EmptyString →
     Schemaname n = EmptyString ∨ Schemaname n = "public" →
     getTableName n = inl (Catalogname n +:+ "." +:+ Relname n))
  ∧ (Relname n ≠ EmptyString → Catalogname n ≠ EmptyString →
     Schemaname n ≠ EmptyString → Schemaname n ≠ "public" →
     getTableName n =
     inl (Catalogname n +:+ "." +:+ Schemaname n +:+ "." +:+ Relname n)).
Proof.
  destruct n as [cat sch rel]. cbn [Catalogname Schemaname Relname].
  split; [|split; [|split; [|split; [|split]]]].
  - unfold getTableName. cbn [Catalogname Schemaname Relname]. split.
    + intros ->. by eexists.
    + intros [err Herr]. by destruct (decide (rel = EmptyString)).
  - unfold getTableName. cbn [Catalogname Schemaname Relname].
    repeat case_decide; try done; naive_solver.
  - intros Hrel -> Hsch. unfold getTableName. cbn [Catalogname Schemaname Relname].
    repeat case_decide; try done; naive_solver.
  - intros Hrel -> Hs1 Hs2. unfold getTableName. cbn [Catalogname Schemaname Relname].
    repeat case_decide; try done; naive_solver.
  - intros Hrel Hcat Hsch. unfold getTableName. cbn [Catalogname Schemaname Relname].
    repeat case_decide; try done; naive_solver.
  - intros Hrel Hcat Hs1 Hs2. unfold getTableName.
    cbn [Catalogname Schemaname Relname].
    repeat case_decide; try done; naive_solver.
Qed.

Lemma getTableName_public_is_default_witness :
  getTableName (mkRangeVar EmptyString "public" "cart") = inl "cart"
  ∧ getTableName SampleNodes.qualified = inl "shop.sales.cart"
  ∧ getTableName (mkRangeVar "shop" "public" "cart") = inl "shop.cart".
Proof.
  split; [|split].
  - apply (proj1 (proj2 (proj2 (getTableName_public_is_default
                                   (mkRangeVar EmptyString "public" "cart")))));
      [done|done|by right].
  - apply (proj2 (proj2 (proj2 (proj2 (proj2
             (getTableName_public_is_default SampleNodes.qualified)))))); done.
  - apply (proj1 (proj2 (proj2 (proj2 (proj2
             (getTableName_public_is_default (mkRangeVar "shop" "public" "cart")))))));
      [done|done|by right].
Defined.

Lemma getTypeID_ids_strings nodes ids acc :
  mapM stringText nodes = Some ids → getTypeID_ids nodes acc = inl (acc ++ ids).
Proof.
  revert ids acc. induction nodes as [|node nodes IH]; intros ids acc.
  - intros [= <-]. by rewrite app_nil_r.
  - cbn [mapM]. destruct node; try discriminate. cbn [stringText mbind option_bind].
    destruct (mapM stringText nodes) as [ids'|] eqn:Hrest; [|discriminate].
    intros [= <-]. cbn [getTypeID_ids getString].
    by rewrite (IH ids' _ eq_refl), <- app_assoc.
Qed.

Lemma getTypeID_ids_not_string nodes acc :
  mapM stringText nodes = None → ∃ err, getTypeID_ids nodes acc = inr err.
Proof.
  revert acc. induction nodes as [|node nodes IH]; intros acc; [done|].
  cbn [mapM getTypeID_ids].
  destruct node; cbn [stringText getString mbind option_bind]; try by eexists.
  destruct (mapM stringText nodes); [done|]. intros _. by apply IH.
Qed.

(** X2.  [getTypeID] joins the strings of a type name by dots and drops a
    leading [pg_catalog] only when something follows it, so that
    [pg_catalog.bool] and [bool] give the same type id while a type named
    just [pg_catalog] keeps its name.  A node that is no string makes the
    whole call fail. *)
Theorem getTypeID_strips_pg_catalog nodes :
  (∀ ids first, mapM stringText nodes = Some ids → ids ≠ [] →
     trimString first = "pg_catalog" →
     getTypeID (Node_String_ first :: nodes) = inl (gostrings.Join ids "."))
  ∧ (∀ ids, mapM stringText nodes = Some ids → head ids ≠ Some "pg_catalog" →
       getTypeID nodes = inl (gostrings.Join ids "."))
  ∧ (∀ only, nodes = [Node_String_ only] → getTypeID nodes = inl (trimString only))
  ∧ (mapM stringText nodes = None → ∃ err, getTypeID nodes = inr err).
Proof.
  split; [|split; [|split]].
  - intros ids first Hids Hne Hfirst. unfold getTypeID. cbn [getTypeID_ids getString].
    rewrite (getTypeID_ids_strings _ _ _ Hids). cbn [app]. rewrite Hfirst.
    destruct ids as [|id ids]; [done|]. by rewrite decide_True.
  - intros ids Hids Hhead. unfold getTypeID.
    rewrite (getTypeID_ids_strings _ _ [] Hids). cbn [app].
    destruct ids as [|id [|id' ids]]; [done..|].
    rewrite decide_False; [done|]. intros ->. by apply Hhead.
  - by intros only ->.
  - intros Hnone. unfold getTypeID.
    destruct (getTypeID_ids_not_string nodes [] Hnone) as [err ->]. by eexists.
Qed.

Lemma getTypeID_strips_pg_catalog_witness :
  getTypeID SampleNodes.int4 = inl "int4"
  ∧ ∃ err, getTypeID SampleNodes.notAType = inr err.
Proof.
  split.
  - apply (proj1 (getTypeID_strips_pg_catalog [SampleBatch.str "int4"]) ["int4"]); done.
  - apply (proj2 (proj2 (proj2 (getTypeID_strips_pg_catalog SampleNodes.notAType)))).
    done.
Defined.

(** ** Strings of the parse tree *)

Lemma trimLastQuote_cons c d r :
  trimLastQuote (String c (String d r)) = String c (trimLastQuote (String d r)).
Proof. done. Qed.

Lemma trimLastQuote_snoc s :
  trimLastQuote (s +:+ String dquote EmptyString) = s.
Proof.
  induction s as [|c s IH]; [done|]. rewrite append_cons.
  destruct s as [|d s]; [done|].
  rewrite append_cons in *. by rewrite trimLastQuote_cons, IH.
Qed.

Lemma trimLastQuote_plain s :
  avoids s [dquote] = true → trimLastQuote s = s.
Proof.
  induction s as [|c s IH]; [done|]. cbn [avoids]. intros [Hc Hs]%andb_true_iff.
  apply negb_true_iff, bool_decide_eq_false in Hc.
  destruct s as [|d s].
  - cbn [trimLastQuote]. rewrite decide_False; [done|].
    intros ->. apply Hc. constructor.
  - by rewrite trimLastQuote_cons, IH.
Qed.

Lemma ReplaceAll_unfold c d s a b repl :
  gostrings.ReplaceAll (String c (String d s)) a b repl =
  if decide (c = a ∧ d = b)
  then repl +:+ gostrings.ReplaceAll s a b repl
  else String c (gostrings.ReplaceAll (String d s) a b repl).
Proof. done. Qed.

Lemma ReplaceAll_plain s a b repl :
  avoids s [a] = true → gostrings.ReplaceAll s a b repl = s.
Proof.
  induction s as [|c s IH]; [done|]. cbn [avoids]. intros [Hc Hs]%andb_true_iff.
  apply negb_true_iff, bool_decide_eq_false in Hc.
  destruct s as [|d s]; [done|]. rewrite ReplaceAll_unfold.
  rewrite decide_False.
  - by rewrite IH.
  - intros [-> _]. apply Hc. constructor.
Qed.

(** X3.  [trimQuote] takes one double quote off each end of a string and
    nothing more: a text in double quotes comes back as it was, even when it
    begins or ends with a quote itself, and a text without any quote is not
    changed.  With it [trimString] gives back [s] for the text [str:"s"],
    the form in which a string node is rendered, when [s] holds no
    backslash. *)
Theorem trimQuote_unquotes s :
  trimQuote (String dquote (s +:+ String dquote EmptyString)) = s
  ∧ (avoids s [dquote] = true → trimQuote s = s)
  ∧ (avoids s [backslash] = true →
     trimString ("str:" +:+ String dquote (s +:+ String dquote EmptyString)) = s).
Proof.
  split; [|split].
  - unfold trimQuote. rewrite decide_True by done. apply trimLastQuote_snoc.
  - intros Hs. unfold trimQuote. destruct s as [|c s]; [done|].
    rewrite decide_False.
    + by apply trimLastQuote_plain.
    + intros ->. cbn [avoids] in Hs. by rewrite bool_decide_eq_true_2 in Hs by constructor.
  - intros Hs. unfold trimString, trimEscapeChars.
    change (gostrings.TrimPrefix ("str:" +:+ ?x) "str:") with x.
    rewrite ReplaceAll_plain.
    + unfold trimQuote. rewrite decide_True by done. apply trimLastQuote_snoc.
    + change (String dquote (s +:+ String dquote EmptyString))
        with (String dquote EmptyString +:+ s +:+ String dquote EmptyString).
      by rewrite !avoids_app, Hs.
Qed.

Lemma trimQuote_unquotes_witness :
  trimString ("str:" +:+ String dquote ("my table" +:+ String dquote EmptyString)) =
  "my table".
Proof. apply (proj2 (proj2 (trimQuote_unquotes "my table"))). done. Defined.

(** ** Columns and rows of an INSERT *)

Lemma getCols_spec nodes cols0 :
  match mapM resTargetName nodes with
  | Some names =>
      getCols nodes cols0 =
      inl (cols0 ++ List.filter (λ nm, bool_decide (nm ≠ EmptyString)) names)
  | None => ∃ err, getCols nodes cols0 = inr err
  end.
Proof.
  revert cols0. induction nodes as [|node nodes IH]; intros cols0.
  - cbn. by rewrite app_nil_r.
  - cbn [mapM].
    destruct node as [?|?|?|nm|?|? ?|?|?|?|?|?];
      cbn [resTargetName mbind option_bind getCols]; try by eexists.
    specialize (IH (if decide (nm ≠ EmptyString) then cols0 ++ [nm] else cols0)).
    destruct (mapM resTargetName nodes) as [names|]; [|exact IH].
    rewrite IH. simpl. case_decide.
    + by rewrite bool_decide_eq_true_2, <- app_assoc.
    + rewrite bool_decide_eq_false_2; [done|]. by intros Hne.
Qed.

(** X4.  [getCols] returns the names of the target columns of an INSERT in
    the order written, leaving out empty names, and fails as soon as one
    node of the list is no column target. *)
Theorem getCols_names_or_error nodes :
  (∀ names, mapM resTargetName nodes = Some names →
     getCols nodes [] = inl (List.filter (λ nm, bool_decide (nm ≠ EmptyString)) names))
  ∧ (mapM resTargetName nodes = None → ∃ err, getCols nodes [] = inr err).
Proof.
  pose proof (getCols_spec nodes []) as H. split.
  - intros names Hnames. by rewrite Hnames in H.
  - intros Hnone. by rewrite Hnone in H.
Qed.

Lemma getCols_names_or_error_witness :
  getCols [Node_ResTarget "qty"; Node_ResTarget EmptyString; Node_ResTarget "id"] [] =
  inl ["qty"; "id"]
  ∧ ∃ err, getCols [Node_ResTarget "qty"; Node_Integer 1] [] = inr err.
Proof.
  split.
  - apply (proj1 (getCols_names_or_error
                    [Node_ResTarget "qty"; Node_ResTarget EmptyString; Node_ResTarget "id"])
             ["qty"; EmptyString; "id"]).
    done.
  - apply (proj2 (getCols_names_or_error [Node_ResTarget "qty"; Node_Integer 1])). done.
Defined.

Lemma omap_shorter {A B} (f : A → option B) (l : list A) :
  (length (omap f l) ≤ length l)%nat.
Proof.
  induction l as [|x l IH]; [done|]. cbn [omap list_omap].
  destruct (f x); simpl; lia.
Qed.

(** X5.  [getRows] gives one row for every VALUES list of an INSERT, whatever
    the state: the row holds the texts of the list's string and integer
    constants in order; an entry that is no such constant is left out, which
    makes the row shorter than the list, and a node that is no list gives an
    empty row. *)
Theorem getRows_one_row_per_list conv vll :
  (getRows conv vll []).2 = map rowOf vll
  ∧ length (getRows conv vll []).2 = length vll
  ∧ Forall2 (λ row vl,
               match vl with
               | Node_List items => (length row ≤ length items)%nat
               | _ => row = []
               end)
      (getRows conv vll []).2 vll.
Proof.
  rewrite getRows_spec. cbn [app]. split; [done|]. split; [by rewrite length_map|].
  induction vll as [|vl vll IH]; [constructor|]. cbn [map]. constructor; [|exact IH].
  destruct vl; try done. cbn [rowOf]. apply omap_shorter.
Qed.

(** ** Extraction of types and constraints *)

Ltac writer_close :=
  intros; unfold Unexpected, ErrorInStatement;
  rewrite ?call_logCalls, ?logCalls_app, <- ?app_assoc; reflexivity.

Ltac problems_close :=
  repeat first
    [ assumption
    | apply Forall_nil_2
    | apply Forall_app; split
    | apply Forall_cons; split; [reflexivity|] ].

Lemma getTypeMods_logs t :
  ∃ cs v,
    (∀ conv l, getTypeMods conv t l = (logCalls cs conv, l ++ v))
    ∧ Forall (λ c, isProblem c = true) cs.
Proof.
  induction t as [|x t (cs & v & IH & Hprob)].
  - exists [], []. split; [|done]. intros. by rewrite logCalls_nil, app_nil_r.
  - destruct x as [?|?|val|?|?|? ?|?|?|?|?|?]; cbn [getTypeMods];
      try (eexists _, _; split; [intros; rewrite IH; writer_close|problems_close]).
    destruct val; eexists _, _;
      (split; [intros; rewrite IH; writer_close|problems_close]).
Qed.

Lemma getArrayBounds_logs t :
  ∃ cs v,
    (∀ conv l, getArrayBounds conv t l = (logCalls cs conv, l ++ v))
    ∧ Forall (λ c, isProblem c = true) cs.
Proof.
  induction t as [|x t (cs & v & IH & Hprob)].
  - exists [], []. split; [|done]. intros. by rewrite logCalls_nil, app_nil_r.
  - destruct x; cbn [getArrayBounds]; eexists _, _;
      (split; [intros; rewrite IH; writer_close|problems_close]).
Qed.

Lemma collectKeys_logs errType what attrs :
  ∃ cs,
    (∀ conv acc,
       collectKeys errType what conv attrs acc =
       (logCalls cs conv, acc ++ omap stringText attrs))
    ∧ Forall (λ c, isProblem c = true) cs
    ∧ (Forall (λ k, is_Some (stringText k)) attrs → cs = []).
Proof.
  induction attrs as [|attr attrs (cs & IH & Hprob & Hnil)].
  - exists []. split; [|done]. intros. by rewrite logCalls_nil, app_nil_r.
  - destruct attr; cbn [collectKeys getString omap list_omap stringText];
      eexists; (split; [intros; rewrite IH; writer_close|]);
      (split; [problems_close|]);
      intros [Hk Hkeys]%Forall_cons;
      first [by apply is_Some_None in Hk | by apply Hnil].
Qed.

Lemma extractConstraints_logs stmtType table l :
  ∃ r,
    (∀ conv cs0,
       extractConstraints conv stmtType table l cs0 =
       match r with
       | Some (cs, v) => Returns (logCalls cs conv, cs0 ++ v)
       | None => Panics
       end)
    ∧ match r with
      | Some (cs, v) =>
          (length v ≤ length l)%nat ∧ Forall (λ c, isProblem c = true) cs
      | None => True
      end.
Proof.
  induction l as [|i l (r & IH & Hlen)].
  - exists (Some ([], [])). split; [|done]. intros. by rewrite logCalls_nil, app_nil_r.
  - assert (Hkeys : ∀ c,
              ∃ ks fs ps,
                (∀ conv acc,
                   collectKeys (printNodeType_Node +:+ "." +:+ "Constraint") "Constraint"
                     conv (Keys c) acc = (logCalls ks conv, acc ++ omap stringText (Keys c)))
                ∧ (∀ conv acc,
                     collectKeys "Constraint" "Constraint" conv (FkAttrs c) acc =
                     (logCalls fs conv, acc ++ omap stringText (FkAttrs c)))
                ∧ (∀ conv acc,
                     collectKeys "Constraint" "Constraint" conv (PkAttrs c) acc =
                     (logCalls ps conv, acc ++ omap stringText (PkAttrs c)))
                ∧ Forall (λ c, isProblem c = true) ks
                ∧ Forall (λ c, isProblem c = true) fs
                ∧ Forall (λ c, isProblem c = true) ps).
    { intros c.
      destruct (collectKeys_logs (printNodeType_Node +:+ "." +:+ "Constraint")
                  "Constraint" (Keys c)) as (ks & Hks & ? & _).
      destruct (collectKeys_logs "Constraint" "Constraint" (FkAttrs c))
        as (fs & Hfs & ? & _).
      destruct (collectKeys_logs "Constraint" "Constraint" (PkAttrs c))
        as (ps & Hps & ? & _).
      by exists ks, fs, ps. }
    destruct i as [?|?|?|?|?|? ?|c|?|?|?|?]; cbn [extractConstraints];
      try (destruct (Hkeys c) as (ks & fs & ps & Hks & Hfs & Hps & Pks & Pfs & Pps);
           destruct (Contype c); try destruct (Pktable c) as [pk|];
           try destruct (getTableName pk));
      try (by exists None; split);
      (destruct r as [[cs v]|];
       [destruct Hlen as [Hlen Hprob]; eexists (Some (_, _)); split;
        [intros conv cs0; rewrite ?Hks, ?Hfs, ?Hps; cbn [app]; rewrite IH; writer_close
        |split; [simpl; lia|problems_close]]
       |exists None; split; [|done]; intros conv cs0; rewrite ?Hks, ?Hfs, ?Hps;
        cbn [app]; by rewrite IH]).
Qed.


Lemma extractConstraints_plain stmtType table cns :
  Forall (λ c, Contype c ≠ CONSTR_FOREIGN) cns →
  ∃ cs,
    (∀ conv cs0,
       extractConstraints conv stmtType table (map Node_Constraint cns) cs0 =
       Returns (logCalls cs conv, cs0 ++ map plainConstraint cns))
    ∧ (Forall (λ c, Forall (λ k, is_Some (stringText k)) (Keys c)) cns → cs = []).
Proof.
  induction 1 as [|c cns Hc _ (cs & IH & Hnil)].
  - exists []. split; [|done]. intros. by rewrite logCalls_nil, app_nil_r.
  - destruct (collectKeys_logs (printNodeType_Node +:+ "." +:+ "Constraint")
                "Constraint" (Keys c)) as (ks & Hks & _ & Hksnil).
    exists (ks ++ cs). split.
    + intros conv cs0. cbn [map extractConstraints].
      destruct (Contype c) eqn:Hty; try done;
        rewrite Hks; cbn [app]; rewrite IH, logCalls_app, <- app_assoc;
        unfold plainConstraint; by rewrite Hty.
    + intros [Hkeys Hrest]%Forall_cons. by rewrite Hksnil, Hnil.
Qed.

(** X6.  [extractConstraints] does nothing to the conversion state but add
    calls to its log: the schema, the mode and the earlier calls stay, and
    the constraints returned (at most one per node, a node of another kind
    giving none) are the same from whatever state the call starts.  For
    constraint nodes that are no foreign keys every node gives its
    constraint, made of the keys that are strings: a key that is no string
    is left out of the constraint, which is kept; nothing is logged when all
    keys are strings. *)
Theorem extractConstraints_only_logs stmtType table l :
  (∀ conv conv' cs,
     extractConstraints conv stmtType table l [] = Returns (conv', cs) →
     SrcSchema conv' = SrcSchema conv ∧ mode conv' = mode conv
     ∧ calls conv `prefix_of` calls conv'
     ∧ (length cs ≤ length l)%nat
     ∧ ∀ conv2, ∃ conv2',
         extractConstraints conv2 stmtType table l [] = Returns (conv2', cs))
  ∧ (∀ cns, l = map Node_Constraint cns →
       Forall (λ c, Contype c ≠ CONSTR_FOREIGN) cns →
       ∀ conv, ∃ conv',
         extractConstraints conv stmtType table l [] =
         Returns (conv', map plainConstraint cns)
         ∧ (Forall (λ c, Forall (λ k, is_Some (stringText k)) (Keys c)) cns →
            conv' = conv)).
Proof.
  split.
  - intros conv conv' cs Hrun.
    destruct (extractConstraints_logs stmtType table l) as (r & Hr & Hlen).
    rewrite Hr in Hrun. destruct r as [[log v]|]; [|done]. destruct Hlen as [Hlen _].
    injection Hrun as <- <-. cbn [app logCalls SrcSchema mode calls].
    split; [done|]. split; [done|]. split; [by apply prefix_app_r|]. split; [done|].
    intros conv2. eexists. by rewrite Hr.
  - intros cns -> Hplain conv.
    destruct (extractConstraints_plain stmtType table cns Hplain) as (cs & Hrun & Hnil).
    eexists. rewrite Hrun. split; [done|].
    intros Hkeys. by rewrite (Hnil Hkeys), logCalls_nil.
Qed.

Lemma extractConstraints_only_logs_witness :
  ∃ conv',
    extractConstraints Sample.conv0 "CreateStmt" "cart"
      [Node_Constraint
         (mkConstraintNode CONSTR_UNIQUE "u"
            [SampleBatch.str "id"; Node_Integer 3] [] [] None)] [] =
    Returns (conv', [mkConstraint CONSTR_UNIQUE ["id"] "u" [] EmptyString])
    ∧ (Forall (λ c, Forall (λ k, is_Some (stringText k)) (Keys c))
         [mkConstraintNode CONSTR_UNIQUE "u"
            [SampleBatch.str "id"; Node_Integer 3] [] [] None] →
       conv' = Sample.conv0).
Proof.
  apply (proj2 (extractConstraints_only_logs "CreateStmt" "cart" _)
           [mkConstraintNode CONSTR_UNIQUE "u"
              [SampleBatch.str "id"; Node_Integer 3] [] [] None]
           eq_refl).
  by repeat constructor.
Defined.

Lemma analyzeColDefConstraints_loop_spec extracted pgCol :
  ∃ us,
    (∀ conv cs0,
       analyzeColDefConstraints_loop conv extracted pgCol cs0 =
       (logCalls us conv,
        cs0 ++ map (λ c, mkConstraint (ct c) [pgCol] (name c) (referCols c)
                           (referTable c))
                 extracted))
    ∧ Forall (λ c, isProblem c = true) us.
Proof.
  induction extracted as [|c extracted (us & IH & Hprob)].
  - exists []. split; [|done]. intros. by rewrite logCalls_nil, app_nil_r.
  - cbn [analyzeColDefConstraints_loop map]. case_decide.
    + eexists. split; [intros; rewrite IH; writer_close|problems_close].
    + eexists. split; [intros; rewrite IH; writer_close|problems_close].
Qed.

(** X7.  The constraints that [analyzeColDefConstraints] returns for a
    column definition all apply to that column alone, whatever keys the
    parser gave them: one constraint for each constraint extracted, of the
    same kind and in the same order, a foreign key keeping its reference.
    The schema is not touched. *)
Theorem analyzeColDefConstraints_targets_column conv stmtType table l pgCol conv' cs :
  analyzeColDefConstraints conv stmtType table l pgCol = Returns (conv', cs) →
  Forall (λ c, cols c = [pgCol]) cs
  ∧ SrcSchema conv' = SrcSchema conv
  ∧ ∃ conv1 extracted,
      extractConstraints conv stmtType table l [] = Returns (conv1, extracted)
      ∧ map ct cs = map ct extracted
      ∧ map referTable cs = map referTable extracted
      ∧ map referCols cs = map referCols extracted.
Proof.
  unfold analyzeColDefConstraints. intros Hrun.
  destruct (extractConstraints_logs stmtType table l) as (r & Hr & _).
  rewrite Hr in Hrun |- *. destruct r as [[log extracted]|]; [|done].
  cbn [obind fst snd app] in Hrun.
  destruct (analyzeColDefConstraints_loop_spec extracted pgCol) as (us & Hloop & _).
  rewrite Hloop in Hrun. injection Hrun as <- <-. cbn [app].
  split; [by apply Forall_fmap, Forall_true|]. split; [done|].
  eexists _, extracted. split; [done|].
  rewrite !map_map. by repeat split.
Qed.

Lemma analyzeColDefConstraints_targets_column_witness :
  Forall (λ c, cols c = ["a"])
    [mkConstraint CONSTR_PRIMARY ["a"] EmptyString [] EmptyString;
     mkConstraint CONSTR_FOREIGN ["a"] "fk" ["id"] "other"].
Proof.
  apply (proj1 (analyzeColDefConstraints_targets_column
                  Sample.conv0 "ColumnDef" "cart" SampleNodes.colConstraints "a"
                  Sample.conv0
                  [mkConstraint CONSTR_PRIMARY ["a"] EmptyString [] EmptyString;
                   mkConstraint CONSTR_FOREIGN ["a"] "fk" ["id"] "other"]
                  eq_refl)).
Defined.


(** ** Constraint lists applied to a known table *)

Lemma updateSchema1_known conv table t m c stmtType :
  SrcSchema conv !! table = Some t →
  schema.ColDefs t = Some m →
  ∃ conv' m' diag,
    updateSchema1 table stmtType conv c = Returns conv'
    ∧ SrcSchema conv' =
        <[table :=
            schema.mkTable (schema.Name t) (schema.ColNames t) (Some m')
              (lastPrimaryKey (schema.PrimaryKeys t) [c])
              (schema.ForeignKeys t ++ map toForeignKeys (List.filter isForeign [c]))
              (schema.Indexes t ++ map uniqueIndex (List.filter isUnique [c]))]>
          (SrcSchema conv)
    ∧ (∀ k, m' !! k =
            if bool_decide (k ∈ touched c)
            then Some (applyConstr (markOf c) (default schema.zeroColumn (m !! k)))
            else m !! k)
    ∧ calls conv' = calls conv ++ diag
    ∧ Forall (λ d, d = secondPrimaryKey stmtType) diag
    ∧ (length diag ≤ if isPrimary c then 1 else 0)%nat
    ∧ mode conv' = mode conv
    ∧ Reparsed conv' = Reparsed conv.
Proof.
  intros Ht Hm. unfold updateSchema1. rewrite (srcTable_known _ _ _ Ht).
  destruct (updateCols_allocated (markOf c) (touched c) m) as (m' & Hrun & Hin & Hout).
  assert (Hm' : ∀ k, m' !! k =
            if bool_decide (k ∈ touched c)
            then Some (applyConstr (markOf c) (default schema.zeroColumn (m !! k)))
            else m !! k).
  { intros k. case_bool_decide; [by apply Hin|by apply Hout]. }
  destruct t as [nm cn cd pk fk ix]. simpl in Hm. subst cd.
  unfold touched, markOf in Hrun, Hm'.
  unfold touched, markOf, lastPrimaryKey, isPrimary, isForeign, isUnique.
  destruct (ct c) eqn:Hct;
    cbn [fold_left List.filter map app schema.ColDefs schema.setPrimaryKeys
         schema.setForeignKeys schema.setIndexes schema.PrimaryKeys
         schema.ForeignKeys schema.Indexes schema.Name schema.ColNames];
    rewrite ?Hct; cbn [List.filter map app];
    try (rewrite Hrun; cbn [obind]).
  all: try (exists (setSrcTable table
                      (schema.mkTable nm cn (Some m') pk fk ix) conv), m', [];
            rewrite ?app_nil_r; by repeat split).
  - exists (setSrcTable table
              (schema.mkTable nm cn (Some m') (toSchemaKeys (cols c)) fk ix)
              (checkEmpty conv pk stmtType)),
      m', (match pk with [] => [] | _ :: _ => [secondPrimaryKey stmtType] end).
    rewrite !app_nil_r. split; [done|]. cbn [setSrcTable SrcSchema calls mode Reparsed].
    rewrite checkEmpty_schema, checkEmpty_calls. split; [done|]. split; [done|].
    split; [done|]. unfold checkEmpty.
    destruct pk; simpl; repeat split; auto.
  - cbn [updateCols] in Hrun. injection Hrun as <-. eexists _, m, [].
    split; [reflexivity|]. rewrite !app_nil_r. by repeat split.
  - cbn [updateCols] in Hrun. injection Hrun as <-. eexists _, m, [].
    split; [reflexivity|]. rewrite !app_nil_r. by repeat split.
Qed.

Lemma markCol_cons cs c k col :
  markCol (c :: cs) k col =
  markCol cs k (if bool_decide (k ∈ touched c) then applyConstr (markOf c) col else col).
Proof. done. Qed.

Lemma lastPrimaryKey_cons pk c cs :
  lastPrimaryKey pk (c :: cs) =
  lastPrimaryKey (if isPrimary c then toSchemaKeys (cols c) else pk) cs.
Proof. done. Qed.

(** What [updateSchema] leaves of a known table whose column map is
    allocated, for any list of constraints. *)
Lemma updateSchema_known cs : ∀ conv table t m stmtType,
  SrcSchema conv !! table = Some t →
  schema.ColDefs t = Some m →
  ∃ conv' m' diag,
    updateSchema conv table cs stmtType = Returns conv'
    ∧ SrcSchema conv' =
        <[table :=
            schema.mkTable (schema.Name t) (schema.ColNames t) (Some m')
              (lastPrimaryKey (schema.PrimaryKeys t) cs)
              (schema.ForeignKeys t ++ map toForeignKeys (List.filter isForeign cs))
              (schema.Indexes t ++ map uniqueIndex (List.filter isUnique cs))]>
          (SrcSchema conv)
    ∧ (∀ k, schema.colDefAt (Some m') k = markCol cs k (schema.colDefAt (Some m) k))
    ∧ (∀ k, is_Some (m' !! k) ↔ is_Some (m !! k) ∨ ∃ c, c ∈ cs ∧ k ∈ touched c)
    ∧ calls conv' = calls conv ++ diag
    ∧ Forall (λ d, d = secondPrimaryKey stmtType) diag
    ∧ (length diag ≤ length (List.filter isPrimary cs))%nat
    ∧ mode conv' = mode conv
    ∧ Reparsed conv' = Reparsed conv.
Proof.
  induction cs as [|c cs IH]; intros conv table t m stmtType Ht Hm.
  - exists conv, m, []. cbn [updateSchema List.filter map lastPrimaryKey fold_left].
    rewrite !app_nil_r. split; [done|]. split.
    { destruct t; simpl in *; subst. by rewrite insert_id. }
    split; [done|]. split.
    { intros k. split; [by left|]. intros [?|(c & Hc & _)]; [done|].
      by apply elem_of_nil in Hc. }
    by repeat split.
  - destruct (updateSchema1_known conv table t m c stmtType Ht Hm)
      as (conv1 & m1 & d1 & Hrun1 & Hsch1 & Hm1 & Hcalls1 & Hd1 & Hlen1 & Hmode1 & Hre1).
    assert (Ht1 : SrcSchema conv1 !! table =
                  Some (schema.mkTable (schema.Name t) (schema.ColNames t) (Some m1)
                          (lastPrimaryKey (schema.PrimaryKeys t) [c])
                          (schema.ForeignKeys t ++
                             map toForeignKeys (List.filter isForeign [c]))
                          (schema.Indexes t ++
                             map uniqueIndex (List.filter isUnique [c]))))
      by (by rewrite Hsch1, lookup_insert_eq).
    destruct (IH conv1 table _ m1 stmtType Ht1 eq_refl)
      as (conv2 & m2 & d2 & Hrun2 & Hsch2 & Hm2 & Hdom2 & Hcalls2 & Hd2 & Hlen2
          & Hmode2 & Hre2).
    exists conv2, m2, (d1 ++ d2).
    rewrite updateSchema_cons, Hrun1. cbn [obind]. split; [exact Hrun2|].
    split.
    { rewrite Hsch2, Hsch1, insert_insert_eq.
      cbn [schema.Name schema.ColNames schema.PrimaryKeys schema.ForeignKeys
           schema.Indexes].
      rewrite lastPrimaryKey_cons. cbn [List.filter].
      destruct (isForeign c), (isUnique c); cbn [map app lastPrimaryKey fold_left];
        by rewrite <- ?app_assoc, ?app_nil_r. }
    split.
    { intros k. rewrite Hm2, markCol_cons. f_equal.
      cbn [schema.colDefAt]. rewrite Hm1. by case_bool_decide. }
    split.
    { intros k. rewrite Hdom2, Hm1. split.
      - intros [Hk|(c' & Hc' & Hk)].
        + case_bool_decide as Hin; [right; exists c; split; [left|done]|by left].
        + right. exists c'. split; [by right|done].
      - intros [Hk|(c' & Hc' & Hk)].
        + left. by case_bool_decide.
        + apply elem_of_cons in Hc' as [->|Hc'].
          * left. by rewrite bool_decide_eq_true_2.
          * right. by exists c'. }
    split; [by rewrite Hcalls2, Hcalls1, app_assoc|].
    split; [by apply Forall_app|].
    split; [|by rewrite Hmode2, Hre2].
    rewrite length_app. cbn [List.filter]. destruct (isPrimary c); simpl in *; lia.
Qed.


Lemma markCol_spec cs k : ∀ col,
  schema.ColName (markCol cs k col) = schema.ColName col
  ∧ schema.ColType (markCol cs k col) = schema.ColType col
  ∧ schema.NotNull (markCol cs k col) =
      schema.NotNull col || existsb (madeNotNull k) cs
  ∧ schema.IgnoredDefault (markCol cs k col) =
      schema.IgnoredDefault col || existsb (madeDefault k) cs.
Proof.
  induction cs as [|c cs IH]; intros col.
  - cbn [markCol fold_left existsb]. by rewrite !orb_false_r.
  - rewrite markCol_cons. cbn [existsb].
    destruct (IH (if bool_decide (k ∈ touched c)
                  then applyConstr (markOf c) col else col))
      as (-> & -> & -> & ->).
    unfold madeNotNull, madeDefault, touched, markOf.
    destruct col as [nm ty nn dflt].
    destruct (ct c); case_bool_decide as Hk;
      cbn [applyConstr schema.setNotNull schema.setIgnoredDefault schema.ColName
           schema.ColType schema.NotNull schema.IgnoredDefault andb orb];
      rewrite ?bool_decide_eq_true_2, ?bool_decide_eq_false_2 by done;
      cbn [andb orb]; rewrite ?orb_true_r, ?orb_false_r;
      try (by repeat split);
      try (apply elem_of_nil in Hk; done).
    all: case_bool_decide; cbn [andb orb]; by rewrite ?orb_true_r, ?orb_false_r.
Qed.

(** X8.  On a table of the source schema whose column map is allocated
    [updateSchema] never panics, whatever the constraints, and keeps the
    shape of the schema: the other tables, the table's name and its list of
    column names stay as they were, every column that had a definition keeps
    it with its name and type, its not-null and ignored-default flags are
    only ever switched on, and the mode and the reparse counter stay.  The
    only calls it adds are diagnostics about a second primary key, at most
    one for each primary-key constraint. *)
Theorem updateSchema_keeps_table_shape conv table t m cs stmtType :
  SrcSchema conv !! table = Some t →
  schema.ColDefs t = Some m →
  ∃ conv' t' m' diag,
    updateSchema conv table cs stmtType = Returns conv'
    ∧ SrcSchema conv' !! table = Some t'
    ∧ (∀ other, other ≠ table → SrcSchema conv' !! other = SrcSchema conv !! other)
    ∧ schema.Name t' = schema.Name t
    ∧ schema.ColNames t' = schema.ColNames t
    ∧ schema.ColDefs t' = Some m'
    ∧ (∀ k col, m !! k = Some col →
         ∃ col', m' !! k = Some col'
                 ∧ schema.ColName col' = schema.ColName col
                 ∧ schema.ColType col' = schema.ColType col
                 ∧ (schema.NotNull col = true → schema.NotNull col' = true)
                 ∧ (schema.IgnoredDefault col = true →
                    schema.IgnoredDefault col' = true))
    ∧ mode conv' = mode conv
    ∧ Reparsed conv' = Reparsed conv
    ∧ calls conv' = calls conv ++ diag
    ∧ Forall (λ d, d = secondPrimaryKey stmtType) diag
    ∧ (length diag ≤ length (List.filter isPrimary cs))%nat.
Proof.
  intros Ht Hm.
  destruct (updateSchema_known cs conv table t m stmtType Ht Hm)
    as (conv' & m' & diag & Hrun & Hsch & Hcol & Hdom & Hcalls & Hdiag & Hlen
        & Hmode & Hre).
  eexists conv', _, m', diag. split; [exact Hrun|].
  rewrite Hsch, lookup_insert_eq. split; [done|]. split.
  { intros other Hne. by rewrite lookup_insert_ne. }
  split; [done|]. split; [done|]. split; [done|]. split; [|done].
  intros k col Hk.
  assert (Hsome : is_Some (m' !! k)) by (apply Hdom; left; by rewrite Hk).
  destruct Hsome as [col' Hk']. exists col'. split; [done|].
  specialize (Hcol k). cbn [schema.colDefAt] in Hcol. rewrite Hk, Hk' in Hcol.
  cbn [from_option id] in Hcol. subst col'.
  destruct (markCol_spec cs k col) as (-> & -> & -> & ->).
  split; [done|]. split; [done|]. split; intros ->; done.
Qed.

Lemma updateSchema_keeps_table_shape_witness :
  ∃ conv' t' m' diag,
    updateSchema Sample.conv0 "cart" SampleConstraints.mixed "CREATE TABLE" =
      Returns conv'
    ∧ SrcSchema conv' !! "cart" = Some t'
    ∧ (∀ other, other ≠ "cart" →
         SrcSchema conv' !! other = SrcSchema Sample.conv0 !! other)
    ∧ schema.Name t' = "cart"
    ∧ schema.ColNames t' = ["id"; "qty"]
    ∧ schema.ColDefs t' = Some m'
    ∧ (∀ k col, Sample.cartCols !! k = Some col →
         ∃ col', m' !! k = Some col'
                 ∧ schema.ColName col' = schema.ColName col
                 ∧ schema.ColType col' = schema.ColType col
                 ∧ (schema.NotNull col = true → schema.NotNull col' = true)
                 ∧ (schema.IgnoredDefault col = true →
                    schema.IgnoredDefault col' = true))
    ∧ mode conv' = schemaOnly
    ∧ Reparsed conv' = 0
    ∧ calls conv' = [] ++ diag
    ∧ Forall (λ d, d = secondPrimaryKey "CREATE TABLE") diag
    ∧ (length diag ≤ 0)%nat.
Proof.
  apply (updateSchema_keeps_table_shape Sample.conv0 "cart" Sample.cart Sample.cartCols
           SampleConstraints.mixed "CREATE TABLE"); reflexivity.
Defined.

(** X9.  The keys that [updateSchema] leaves on such a table, for any list
    of constraints: the foreign keys and the unique indexes of the list are
    appended to the table's own in the order of the list, a foreign key
    being recorded as it is written (the table it refers to is not looked
    up), and the primary key is that of the last primary-key constraint of
    the list, or the table's own when the list has none.  A list without a
    primary-key constraint adds no call at all. *)
Theorem updateSchema_accumulates_keys conv table t m cs stmtType :
  SrcSchema conv !! table = Some t →
  schema.ColDefs t = Some m →
  ∃ conv' t',
    updateSchema conv table cs stmtType = Returns conv'
    ∧ SrcSchema conv' !! table = Some t'
    ∧ schema.ForeignKeys t' =
        schema.ForeignKeys t ++ map toForeignKeys (List.filter isForeign cs)
    ∧ schema.Indexes t' =
        schema.Indexes t ++ map uniqueIndex (List.filter isUnique cs)
    ∧ schema.PrimaryKeys t' = lastPrimaryKey (schema.PrimaryKeys t) cs
    ∧ (List.filter isPrimary cs = [] →
       calls conv' = calls conv
       ∧ schema.PrimaryKeys t' = schema.PrimaryKeys t).
Proof.
  intros Ht Hm.
  destruct (updateSchema_known cs conv table t m stmtType Ht Hm)
    as (conv' & m' & diag & Hrun & Hsch & _ & _ & Hcalls & _ & Hlen & _).
  eexists conv', _. split; [exact Hrun|].
  rewrite Hsch, lookup_insert_eq. split; [done|].
  cbn [schema.ForeignKeys schema.Indexes schema.PrimaryKeys].
  split; [done|]. split; [done|]. split; [done|].
  intros Hnone. rewrite Hnone in Hlen. split.
  - destruct diag; [by rewrite Hcalls, app_nil_r|simpl in Hlen; lia].
  - clear -Hnone. generalize (schema.PrimaryKeys t).
    induction cs as [|c cs IH]; intros pk; [done|].
    rewrite lastPrimaryKey_cons. cbn [List.filter] in Hnone.
    destruct (isPrimary c); [done|]. by apply IH.
Qed.

Lemma updateSchema_accumulates_keys_witness :
  ∃ conv' t',
    updateSchema Sample.conv0 "cart" SampleConstraints.mixed "CREATE TABLE" =
      Returns conv'
    ∧ SrcSchema conv' !! "cart" = Some t'
    ∧ schema.ForeignKeys t' =
        [schema.mkForeignKey "fk_nowhere" ["id"] "nowhere" ["key"]]
    ∧ schema.Indexes t' = [schema.mkIndex "" true [schema.mkKey "id" false]]
    ∧ schema.PrimaryKeys t' = [schema.mkKey "qty" false]
    ∧ (List.filter isPrimary SampleConstraints.mixed = [] →
       calls conv' = []
       ∧ schema.PrimaryKeys t' = [schema.mkKey "qty" false]).
Proof.
  apply (updateSchema_accumulates_keys Sample.conv0 "cart" Sample.cart Sample.cartCols
           SampleConstraints.mixed "CREATE TABLE"); reflexivity.
Defined.

(** X10.  The marks that [updateSchema] leaves on the columns of such a
    table: a column ends up not-null exactly when it was so before or a
    not-null or primary-key constraint of the list names it, and with an
    ignored default exactly when it had one before or a default constraint
    names it.  A name listed by a constraint other than a foreign key or a
    unique one gets a definition even when the table has no such column: a
    blank one, without name or type, while the table's list of column names
    is not extended; no other name gets a definition. *)
Theorem updateSchema_marks_listed_columns conv table t m cs stmtType :
  SrcSchema conv !! table = Some t →
  schema.ColDefs t = Some m →
  ∃ conv' t' m',
    updateSchema conv table cs stmtType = Returns conv'
    ∧ SrcSchema conv' !! table = Some t'
    ∧ schema.ColDefs t' = Some m'
    ∧ schema.ColNames t' = schema.ColNames t
    ∧ (∀ k, schema.NotNull (schema.colDefAt (Some m') k) =
            schema.NotNull (schema.colDefAt (Some m) k)
            || existsb (madeNotNull k) cs)
    ∧ (∀ k, schema.IgnoredDefault (schema.colDefAt (Some m') k) =
            schema.IgnoredDefault (schema.colDefAt (Some m) k)
            || existsb (madeDefault k) cs)
    ∧ (∀ k, m !! k = None →
         (∃ c, c ∈ cs ∧ k ∈ touched c) →
         ∃ col, m' !! k = Some col
                ∧ schema.ColName col = EmptyString
                ∧ schema.ColType col = schema.zeroType)
    ∧ (∀ k, m !! k = None → (∀ c, c ∈ cs → k ∉ touched c) → m' !! k = None).
Proof.
  intros Ht Hm.
  destruct (updateSchema_known cs conv table t m stmtType Ht Hm)
    as (conv' & m' & diag & Hrun & Hsch & Hcol & Hdom & _).
  eexists conv', _, m'. split; [exact Hrun|].
  rewrite Hsch, lookup_insert_eq. split; [done|]. split; [done|]. split; [done|].
  split.
  { intros k. rewrite Hcol. by destruct (markCol_spec cs k (schema.colDefAt (Some m) k))
      as (_ & _ & -> & _). }
  split.
  { intros k. rewrite Hcol. by destruct (markCol_spec cs k (schema.colDefAt (Some m) k))
      as (_ & _ & _ & ->). }
  split.
  - intros k Hk Hlisted.
    assert (Hsome : is_Some (m' !! k)) by (apply Hdom; by right).
    destruct Hsome as [col Hk']. exists col. split; [done|].
    specialize (Hcol k). cbn [schema.colDefAt] in Hcol. rewrite Hk, Hk' in Hcol.
    cbn [from_option id] in Hcol. subst col.
    by destruct (markCol_spec cs k schema.zeroColumn) as (-> & -> & _).
  - intros k Hk Hnot. apply eq_None_not_Some. rewrite Hdom.
    intros [Hsome|(c & Hc & Hin)].
    + rewrite Hk in Hsome. by apply is_Some_None in Hsome.
    + by apply (Hnot c Hc).
Qed.

Lemma updateSchema_marks_listed_columns_witness :
  ∃ conv' t' m',
    updateSchema Sample.conv0 "cart" SampleConstraints.mixed "CREATE TABLE" =
      Returns conv'
    ∧ SrcSchema conv' !! "cart" = Some t'
    ∧ schema.ColDefs t' = Some m'
    ∧ schema.ColNames t' = ["id"; "qty"]
    ∧ (∀ k, schema.NotNull (schema.colDefAt (Some m') k) =
            schema.NotNull (schema.colDefAt (Some Sample.cartCols) k)
            || existsb (madeNotNull k) SampleConstraints.mixed)
    ∧ (∀ k, schema.IgnoredDefault (schema.colDefAt (Some m') k) =
            schema.IgnoredDefault (schema.colDefAt (Some Sample.cartCols) k)
            || existsb (madeDefault k) SampleConstraints.mixed)
    ∧ (∀ k, Sample.cartCols !! k = None →
         (∃ c, c ∈ SampleConstraints.mixed ∧ k ∈ touched c) →
         ∃ col, m' !! k = Some col
                ∧ schema.ColName col = EmptyString
                ∧ schema.ColType col = schema.zeroType)
    ∧ (∀ k, Sample.cartCols !! k = None →
         (∀ c, c ∈ SampleConstraints.mixed → k ∉ touched c) → m' !! k = None).
Proof.
  apply (updateSchema_marks_listed_columns Sample.conv0 "cart" Sample.cart
           Sample.cartCols SampleConstraints.mixed "CREATE TABLE"); reflexivity.
Defined.


(** ** ALTER TABLE *)

Lemma problems_not_counted log :
  Forall (λ d, isProblem d = true) log → List.filter isSchemaOrSkip log = [].
Proof.
  induction 1 as [|d log Hd _ IH]; [done|]. cbn [List.filter]. by destruct d.
Qed.

Lemma updateSchema1_frame table stmtType conv c conv' :
  updateSchema1 table stmtType conv c = Returns conv' →
  ∃ diag,
    calls conv' = calls conv ++ diag
    ∧ Forall (λ d, isProblem d = true) diag
    ∧ mode conv' = mode conv
    ∧ (∀ other, other ≠ table → SrcSchema conv' !! other = SrcSchema conv !! other)
    ∧ is_Some (SrcSchema conv' !! table).
Proof.
  unfold updateSchema1. intros Hrun.
  assert (Hset : ∀ t base diag,
            calls base = calls conv ++ diag → Forall (λ d, isProblem d = true) diag →
            mode base = mode conv → SrcSchema base = SrcSchema conv →
            conv' = setSrcTable table t base →
            ∃ diag,
              calls conv' = calls conv ++ diag
              ∧ Forall (λ d, isProblem d = true) diag
              ∧ mode conv' = mode conv
              ∧ (∀ other, other ≠ table →
                   SrcSchema conv' !! other = SrcSchema conv !! other)
              ∧ is_Some (SrcSchema conv' !! table)).
  { intros t base diag Hcalls Hdiag Hmode Hsch ->. exists diag.
    cbn [setSrcTable calls mode SrcSchema]. rewrite Hsch.
    split; [done|]. split; [done|]. split; [done|]. split.
    - intros other Hne. by rewrite lookup_insert_ne.
    - rewrite lookup_insert_eq. by eexists. }
  assert (Hpk : ∃ diag,
            calls (checkEmpty conv (schema.PrimaryKeys (srcTable conv table)) stmtType) =
              calls conv ++ diag
            ∧ Forall (λ d, isProblem d = true) diag).
  { eexists. split; [apply checkEmpty_calls|].
    destruct (schema.PrimaryKeys _); problems_close. }
  destruct Hpk as (dpk & Hpk1 & Hpk2).
  destruct (ct c);
    try (destruct (updateCols _ _ _) as [cds|] eqn:Hcols; [|done]);
    cbn [obind] in Hrun; injection Hrun as <-;
    first
      [ by eapply (Hset _ conv []); rewrite ?app_nil_r
      | eapply (Hset _ _ dpk); try done; first [by unfold checkEmpty; case_decide
                                               |apply checkEmpty_schema] ].
Qed.

Lemma updateSchema_frame cs : ∀ table stmtType conv conv',
  updateSchema conv table cs stmtType = Returns conv' →
  ∃ diag,
    calls conv' = calls conv ++ diag
    ∧ Forall (λ d, isProblem d = true) diag
    ∧ mode conv' = mode conv
    ∧ (∀ other, other ≠ table → SrcSchema conv' !! other = SrcSchema conv !! other)
    ∧ (is_Some (SrcSchema conv !! table) → is_Some (SrcSchema conv' !! table)).
Proof.
  induction cs as [|c cs IH]; intros table stmtType conv conv' Hrun.
  - injection Hrun as <-. exists []. rewrite app_nil_r. by repeat split.
  - rewrite updateSchema_cons in Hrun.
    destruct (updateSchema1 table stmtType conv c) as [conv1|] eqn:Hrun1; [|done].
    cbn [obind] in Hrun.
    destruct (updateSchema1_frame _ _ _ _ _ Hrun1) as (d1 & Hc1 & Hd1 & Hm1 & Ho1 & Hs1).
    destruct (IH _ _ _ _ Hrun) as (d2 & Hc2 & Hd2 & Hm2 & Ho2 & Hs2).
    exists (d1 ++ d2). split; [by rewrite Hc2, Hc1, app_assoc|].
    split; [by apply Forall_app|]. split; [by rewrite Hm2|]. split.
    + intros other Hne. by rewrite Ho2, Ho1.
    + intros _. by apply Hs2.
Qed.

Lemma problems_no_rows log :
  Forall (λ d, isProblem d = true) log → Forall (λ c, isProcessDataRow c = false) log.
Proof. intros H. eapply Forall_impl; [exact H|]. by intros []. Qed.

Lemma processAlterTableCmd_frame conv table i conv' :
  processAlterTableCmd conv table i = Returns conv' →
  ∃ log,
    calls conv' = calls conv ++ log
    ∧ length (List.filter isSchemaOrSkip log) = 1%nat
    ∧ mode conv' = mode conv
    ∧ (∀ other, other ≠ table → SrcSchema conv' !! other = SrcSchema conv !! other)
    ∧ (is_Some (SrcSchema conv !! table) → is_Some (SrcSchema conv' !! table))
    ∧ Forall (λ c, isProcessDataRow c = false) log.
Proof.
  assert (Hskip : ∀ s, ∃ log,
            calls (SkipStatement s conv) = calls conv ++ log
            ∧ length (List.filter isSchemaOrSkip log) = 1%nat
            ∧ mode (SkipStatement s conv) = mode conv
            ∧ (∀ other, other ≠ table →
                 SrcSchema (SkipStatement s conv) !! other = SrcSchema conv !! other)
            ∧ (is_Some (SrcSchema conv !! table) →
               is_Some (SrcSchema (SkipStatement s conv) !! table))
            ∧ Forall (λ c, isProcessDataRow c = false) log).
  { intros s. exists [CallSkipStatement s]. repeat split; try done.
    by repeat constructor. }
  assert (Hupd : ∀ base cs s log0,
            calls base = calls conv ++ log0 → Forall (λ d, isProblem d = true) log0 →
            mode base = mode conv → SrcSchema base = SrcSchema conv →
            (conv1 <-! updateSchema base table cs "ALTER TABLE" ;;
             Returns (SchemaStatement s conv1)) = Returns conv' →
            ∃ log,
              calls conv' = calls conv ++ log
              ∧ length (List.filter isSchemaOrSkip log) = 1%nat
              ∧ mode conv' = mode conv
              ∧ (∀ other, other ≠ table →
                   SrcSchema conv' !! other = SrcSchema conv !! other)
              ∧ (is_Some (SrcSchema conv !! table) →
                 is_Some (SrcSchema conv' !! table))
              ∧ Forall (λ c, isProcessDataRow c = false) log).
  { intros base cs s log0 Hcalls Hlog0 Hmode Hsch Hrun.
    destruct (updateSchema base table cs "ALTER TABLE") as [conv1|] eqn:Hrun1; [|done].
    cbn [obind] in Hrun. injection Hrun as <-.
    destruct (updateSchema_frame _ _ _ _ _ Hrun1) as (d & Hc & Hd & Hm & Ho & Hs).
    exists (log0 ++ d ++ [CallSchemaStatement s]).
    unfold SchemaStatement. cbn [call calls mode SrcSchema].
    rewrite Hc, Hcalls, <- !app_assoc. split; [done|].
    rewrite !List.filter_app, (problems_not_counted _ Hlog0), (problems_not_counted _ Hd).
    split; [done|]. split; [by rewrite Hm|]. rewrite <- Hsch.
    split; [exact Ho|]. split; [exact Hs|].
    repeat (apply Forall_app; split); try by apply problems_no_rows.
    by repeat constructor. }
  intros Hrun. destruct i as [?|?|?|?|?|? ?|?|?|a|?|?]; cbn [processAlterTableCmd] in Hrun;
    try (injection Hrun as <-; by apply Hskip).
  destruct (Subtype a), (Def a) as [def|];
    try (injection Hrun as <-; by apply Hskip).
  - case_decide; [|injection Hrun as <-; by apply Hskip].
    eapply (Hupd conv _ _ []); [by rewrite app_nil_r|done|done|done|exact Hrun].
  - case_decide; [|injection Hrun as <-; by apply Hskip].
    eapply (Hupd conv _ _ []); [by rewrite app_nil_r|done|done|done|exact Hrun].
  - destruct def; try (injection Hrun as <-; by apply Hskip).
    destruct (extractConstraints_logs "AlterTableStmt" table [Node_Constraint c])
      as (r & Hr & Hfacts).
    rewrite Hr in Hrun. destruct r as [[log0 v]|]; [|done].
    destruct Hfacts as [_ Hlog0]. cbn [obind fst snd app] in Hrun.
    eapply (Hupd (logCalls log0 conv) _ _ log0); [done|done|done|done|exact Hrun].
Qed.

Lemma processAlterTableCmds_frame cmds : ∀ conv table conv',
  processAlterTableCmds conv table cmds = Returns conv' →
  ∃ log,
    calls conv' = calls conv ++ log
    ∧ length (List.filter isSchemaOrSkip log) = length cmds
    ∧ mode conv' = mode conv
    ∧ (∀ other, other ≠ table → SrcSchema conv' !! other = SrcSchema conv !! other)
    ∧ (is_Some (SrcSchema conv !! table) → is_Some (SrcSchema conv' !! table))
    ∧ Forall (λ c, isProcessDataRow c = false) log.
Proof.
  induction cmds as [|i cmds IH]; intros conv table conv' Hrun.
  - injection Hrun as <-. exists []. rewrite app_nil_r. by repeat split.
  - cbn [processAlterTableCmds] in Hrun.
    destruct (processAlterTableCmd conv table i) as [conv1|] eqn:Hrun1; [|done].
    cbn [obind] in Hrun.
    destruct (processAlterTableCmd_frame _ _ _ _ Hrun1)
      as (l1 & Hc1 & Hn1 & Hm1 & Ho1 & Hs1 & Hr1).
    destruct (IH _ _ _ Hrun) as (l2 & Hc2 & Hn2 & Hm2 & Ho2 & Hs2 & Hr2).
    exists (l1 ++ l2). split; [by rewrite Hc2, Hc1, app_assoc|].
    rewrite List.filter_app, length_app, Hn1, Hn2. split; [done|].
    split; [by rewrite Hm2|]. split.
    + intros other Hne. by rewrite Ho2, Ho1.
    + split; [|by apply Forall_app]. intros Hs. by apply Hs2, Hs1.
Qed.

(** X11.  An ALTER TABLE statement that [processAlterTableStmt] gets through
    is accounted for command by command: on a table of the source schema
    every sub-command adds exactly one [SchemaStatement] or [SkipStatement]
    call, whatever its kind, and the table stays in the schema; on a table
    the schema does not have the whole statement is skipped with one
    [SkipStatement] and the schema is left as it was; a statement whose
    table name cannot be had is an error in statement and counts as neither.
    In every case no table but the one named can change, and the mode
    stays. *)
Theorem processAlterTableStmt_counts_commands conv n conv' :
  processAlterTableStmt conv n = Returns conv' →
  ∃ log,
    calls conv' = calls conv ++ log
    ∧ mode conv' = mode conv
    ∧ match AlterRelation n with
      | None =>
          SrcSchema conv' = SrcSchema conv
          ∧ List.filter isSchemaOrSkip log = []
          ∧ List.filter isProblem log = log
      | Some rel =>
          match getTableName rel with
          | inr _ =>
              SrcSchema conv' = SrcSchema conv
              ∧ List.filter isSchemaOrSkip log = []
              ∧ List.filter isProblem log = log
          | inl table =>
              (∀ other, other ≠ table →
                 SrcSchema conv' !! other = SrcSchema conv !! other)
              ∧ match SrcSchema conv !! table with
                | Some _ =>
                    is_Some (SrcSchema conv' !! table)
                    ∧ length (List.filter isSchemaOrSkip log) = length (Cmds n)
                | None =>
                    SrcSchema conv' = SrcSchema conv
                    ∧ log = [CallSkipStatement "AlterTableStmt"]
                end
          end
      end.
Proof.
  unfold processAlterTableStmt. intros Hrun.
  destruct (AlterRelation n) as [rel|].
  - destruct (getTableName rel) as [table|err].
    + destruct (SrcSchema conv !! table) as [t|] eqn:Ht.
      * destruct (processAlterTableCmds_frame _ _ _ _ Hrun)
          as (log & Hc & Hn & Hm & Ho & Hs & _).
        exists log. split; [done|]. split; [done|]. split; [done|].
        split; [|done]. apply Hs. by rewrite Ht.
      * injection Hrun as <-. by exists [CallSkipStatement "AlterTableStmt"].
    + injection Hrun as <-. eexists [_; _].
      unfold logStmtError, ErrorInStatement, Unexpected. cbn [call calls mode SrcSchema].
      rewrite <- app_assoc. by repeat split.
  - injection Hrun as <-. eexists [_; _].
    unfold logStmtError, ErrorInStatement, Unexpected. cbn [call calls mode SrcSchema].
    rewrite <- app_assoc. by repeat split.
Qed.

Lemma processAlterTableStmt_counts_commands_witness :
  ∃ conv',
    processAlterTableStmt Sample.conv0 SampleAlter.addUnique = Returns conv'
    ∧ ∃ log,
        calls conv' = calls Sample.conv0 ++ log
        ∧ mode conv' = mode Sample.conv0
        ∧ (∀ other, other ≠ "cart" →
             SrcSchema conv' !! other = SrcSchema Sample.conv0 !! other)
        ∧ is_Some (SrcSchema conv' !! "cart")
        ∧ length (List.filter isSchemaOrSkip log) = 1%nat.
Proof.
  eexists. split; [reflexivity|].
  apply (processAlterTableStmt_counts_commands Sample.conv0 SampleAlter.addUnique).
  reflexivity.
Defined.


Lemma setNotNull_idem col : schema.setNotNull (schema.setNotNull col) = schema.setNotNull col.
Proof. by destruct col. Qed.

Lemma processAlterTableCmds_plain cmds : ∀ conv table t m,
  SrcSchema conv !! table = Some t →
  schema.ColDefs t = Some m →
  Forall (λ i, addsConstraint i = false) cmds →
  ∃ conv' m' log,
    processAlterTableCmds conv table cmds = Returns conv'
    ∧ SrcSchema conv' = <[table := schema.setColDefs t (Some m')]> (SrcSchema conv)
    ∧ (∀ k, schema.colDefAt (Some m') k =
            if existsb (setsNotNull k) cmds
            then schema.setNotNull (schema.colDefAt (Some m) k)
            else schema.colDefAt (Some m) k)
    ∧ (∀ k, is_Some (m' !! k) ↔
            is_Some (m !! k) ∨ existsb (setsNotNull k) cmds = true)
    ∧ calls conv' = calls conv ++ log
    ∧ Forall (λ c, isSchemaOrSkip c = true) log
    ∧ mode conv' = mode conv.
Proof.
  induction cmds as [|i cmds IH]; intros conv table t m Ht Hm Hplain.
  - exists conv, m, []. rewrite app_nil_r. split; [done|]. split.
    { destruct t; simpl in *; subst. by rewrite insert_id. }
    split; [done|]. split; [|done].
    intros k. split; [by left|]. by intros [?|?].
  - apply Forall_cons in Hplain as [Hi Hplain].
    assert (Hskip : ∀ s,
              processAlterTableCmd conv table i = Returns (SkipStatement s conv) →
              (∀ k, setsNotNull k i = false) →
              ∃ conv' m' log,
                processAlterTableCmds conv table (i :: cmds) = Returns conv'
                ∧ SrcSchema conv' =
                    <[table := schema.setColDefs t (Some m')]> (SrcSchema conv)
                ∧ (∀ k, schema.colDefAt (Some m') k =
                        if existsb (setsNotNull k) (i :: cmds)
                        then schema.setNotNull (schema.colDefAt (Some m) k)
                        else schema.colDefAt (Some m) k)
                ∧ (∀ k, is_Some (m' !! k) ↔
                        is_Some (m !! k) ∨ existsb (setsNotNull k) (i :: cmds) = true)
                ∧ calls conv' = calls conv ++ log
                ∧ Forall (λ c, isSchemaOrSkip c = true) log
                ∧ mode conv' = mode conv).
    { intros s Hrun Hno.
      destruct (IH (SkipStatement s conv) table t m Ht Hm Hplain)
        as (conv' & m' & log & Hrun' & Hsch & Hcol & Hdom & Hcalls & Hlog & Hmode).
      exists conv', m', (CallSkipStatement s :: log).
      cbn [processAlterTableCmds]. rewrite Hrun. cbn [obind existsb].
      split; [done|]. split; [done|]. split; [intros k; by rewrite Hno|].
      split; [intros k; by rewrite Hno|].
      unfold SkipStatement in Hcalls. cbn [call calls] in Hcalls.
      split; [by rewrite Hcalls, <- app_assoc|]. split; [|done].
      by apply Forall_cons. }
    destruct i as [?|?|?|?|?|? ?|?|?|a|?|?]; try (by eapply Hskip).
    cbn [addsConstraint] in Hi.
    destruct a as [sub nm def]. cbn [Subtype Def] in Hi.
    destruct sub as [| |code].
    + destruct (decide (nm = EmptyString)) as [->|Hnm].
      { eapply Hskip; [done|]. intros k. cbn [setsNotNull Subtype CmdName].
        apply bool_decide_eq_false_2. by intros [? _]. }
      set (m1 := <[nm := schema.setNotNull (schema.colDefAt (Some m) nm)]> m).
      set (conv1 := SchemaStatement "AlterTableStmt.AlterTableCmd"
                      (setSrcTable table (schema.setColDefs t (Some m1)) conv)).
      assert (Hrun1 : processAlterTableCmd conv table
                        (Node_AlterTableCmd (mkAlterTableCmd AT_SetNotNull nm def)) =
                      Returns conv1).
      { cbn [processAlterTableCmd Subtype Def CmdName]. destruct def;
          (rewrite decide_True by done); cbn [updateSchema].
        all: unfold updateSchema1; cbn [ct cols];
          rewrite (srcTable_known _ _ _ Ht), Hm; by cbn [updateCols obind]. }
      assert (Ht1 : SrcSchema conv1 !! table = Some (schema.setColDefs t (Some m1)))
        by (cbn; by rewrite lookup_insert_eq).
      destruct (IH conv1 table _ m1 Ht1 eq_refl Hplain)
        as (conv' & m' & log & Hrun' & Hsch & Hcol & Hdom & Hcalls & Hlog & Hmode).
      exists conv', m', (CallSchemaStatement "AlterTableStmt.AlterTableCmd" :: log).
      cbn [processAlterTableCmds]. rewrite Hrun1. cbn [obind existsb].
      split; [done|]. split.
      { rewrite Hsch. subst conv1. cbn [SchemaStatement call setSrcTable SrcSchema].
        by rewrite insert_insert_eq. }
      split.
      { intros k. rewrite Hcol. cbn [setsNotNull Subtype CmdName].
        subst m1. cbn [schema.colDefAt].
        destruct (decide (nm = k)) as [->|Hne].
        - rewrite lookup_insert_eq, bool_decide_eq_true_2 by done.
          cbn [orb from_option id]. rewrite setNotNull_idem. by destruct (existsb _ _).
        - rewrite lookup_insert_ne by done.
          rewrite bool_decide_eq_false_2; [done|]. by intros [_ ?]. }
      split.
      { intros k. rewrite Hdom. cbn [setsNotNull Subtype CmdName]. subst m1.
        destruct (decide (nm = k)) as [->|Hne].
        - rewrite lookup_insert_eq, bool_decide_eq_true_2 by done. cbn [orb].
          split; [by right|by left].
        - rewrite lookup_insert_ne by done.
          rewrite bool_decide_eq_false_2; [done|]. by intros [_ ?]. }
      split.
      { subst conv1. unfold SchemaStatement in Hcalls.
        cbn [call calls setSrcTable] in Hcalls. by rewrite Hcalls, <- app_assoc. }
      split; [by apply Forall_cons|done].
    + destruct def as [[]|]; try discriminate Hi; by eapply Hskip.
    + by eapply Hskip.
Qed.

(** X12.  An ALTER TABLE statement without ADD CONSTRAINT sub-commands, on a
    table of the source schema whose column map is allocated, never panics
    and changes nothing but not-null marks: a column's definition ends up
    marked exactly when a SET NOT NULL sub-command names it (by a name that
    is not empty) and is otherwise as before; the table's name, column
    names and keys, the other tables and the mode stay.  A name that is no
    column of the table is marked all the same: it gets an entry in the
    column map without any diagnostic.  Every call added is a
    [SchemaStatement] or a [SkipStatement]. *)
Theorem processAlterTableStmt_sets_not_null conv n rel table t m :
  AlterRelation n = Some rel →
  getTableName rel = inl table →
  SrcSchema conv !! table = Some t →
  schema.ColDefs t = Some m →
  Forall (λ i, addsConstraint i = false) (Cmds n) →
  ∃ conv' m' log,
    processAlterTableStmt conv n = Returns conv'
    ∧ SrcSchema conv' = <[table := schema.setColDefs t (Some m')]> (SrcSchema conv)
    ∧ (∀ k, schema.colDefAt (Some m') k =
            if existsb (setsNotNull k) (Cmds n)
            then schema.setNotNull (schema.colDefAt (Some m) k)
            else schema.colDefAt (Some m) k)
    ∧ (∀ k, is_Some (m' !! k) ↔
            is_Some (m !! k) ∨ existsb (setsNotNull k) (Cmds n) = true)
    ∧ calls conv' = calls conv ++ log
    ∧ Forall (λ c, isSchemaOrSkip c = true) log
    ∧ length log = length (Cmds n)
    ∧ mode conv' = mode conv.
Proof.
  intros Hrel Htable Ht Hm Hplain. unfold processAlterTableStmt.
  rewrite Hrel, Htable, Ht.
  destruct (processAlterTableCmds_plain (Cmds n) conv table t m Ht Hm Hplain)
    as (conv' & m' & log & Hrun & Hsch & Hcol & Hdom & Hcalls & Hlog & Hmode).
  exists conv', m', log. split; [done|]. split; [done|]. split; [done|].
  split; [done|]. split; [done|]. split; [done|]. split; [|done].
  destruct (processAlterTableCmds_frame _ _ _ _ Hrun) as (log' & Hcalls' & Hn & _).
  rewrite Hcalls in Hcalls'. apply app_inv_head in Hcalls'. subst log'.
  rewrite <- Hn. clear -Hlog. induction Hlog as [|c log Hc _ IH]; [done|].
  cbn [List.filter]. rewrite Hc. simpl. by rewrite IH.
Qed.

Lemma processAlterTableStmt_sets_not_null_witness :
  ∃ conv' m' log,
    processAlterTableStmt Sample.conv0 SampleAlter.alterCart = Returns conv'
    ∧ SrcSchema conv' =
        <["cart" := schema.setColDefs Sample.cart (Some m')]> (SrcSchema Sample.conv0)
    ∧ (∀ k, schema.colDefAt (Some m') k =
            if existsb (setsNotNull k) (Cmds SampleAlter.alterCart)
            then schema.setNotNull (schema.colDefAt (Some Sample.cartCols) k)
            else schema.colDefAt (Some Sample.cartCols) k)
    ∧ (∀ k, is_Some (m' !! k) ↔
            is_Some (Sample.cartCols !! k)
            ∨ existsb (setsNotNull k) (Cmds SampleAlter.alterCart) = true)
    ∧ calls conv' = calls Sample.conv0 ++ log
    ∧ Forall (λ c, isSchemaOrSkip c = true) log
    ∧ length log = 3%nat
    ∧ mode conv' = schemaOnly.
Proof.
  apply (processAlterTableStmt_sets_not_null Sample.conv0 SampleAlter.alterCart
           SampleBatch.cartRel "cart" Sample.cart Sample.cartCols);
    try reflexivity.
  by repeat constructor.
Defined.


(** ** CREATE INDEX *)

Lemma toIndexKeys_spec idxName s : ∀ conv l,
  toIndexKeys conv idxName s l =
  (logCalls
     (map (λ _, CallUnexpected ("Failed to process index " +:+ idxName +:+
                                ": empty index column name"))
        (List.filter unnamedElem s)) conv,
   l ++ omap indexKey s).
Proof.
  induction s as [|k s IH]; intros conv l.
  - cbn. by rewrite logCalls_nil, app_nil_r.
  - destruct k as [?|?|?|?|?|nm ord|?|?|?|?|?];
      cbn [toIndexKeys List.filter unnamedElem omap list_omap indexKey map];
      try apply IH.
    case_decide as Hnm.
    + rewrite bool_decide_eq_true_2 by done. cbn [map]. rewrite IH.
      unfold Unexpected. by rewrite call_logCalls, logCalls_app.
    + rewrite bool_decide_eq_false_2 by done. by rewrite IH, <- app_assoc.
Qed.

(** X13.  [processIndexStmt] on a statement whose table name can be had: when
    the table is in the source schema the index is appended to the table's
    indexes under the statement's name and uniqueness, its keys being the
    named elements in order, descending where the element says so; an
    element without a column name is left out of the keys with one
    diagnostic, and nothing else is logged, so that an index that is taken
    is counted neither as a schema statement nor as a skipped one.  When the
    table is not in the schema, the schema stays as it was and the statement
    is reported and skipped.  Nothing else of the table and no other table
    changes. *)
Theorem processIndexStmt_appends_index conv n rel tableName :
  IndexRelation n = Some rel →
  getTableName rel = inl tableName →
  mode (processIndexStmt conv n) = mode conv
  ∧ match SrcSchema conv !! tableName with
    | Some ctable =>
        SrcSchema (processIndexStmt conv n) =
          <[tableName :=
              schema.setIndexes ctable
                (schema.Indexes ctable ++
                 [schema.mkIndex (Idxname n) (IdxUnique n)
                    (omap indexKey (IndexParams n))])]> (SrcSchema conv)
        ∧ calls (processIndexStmt conv n) =
            calls conv ++
            map (λ _, CallUnexpected ("Failed to process index " +:+ Idxname n +:+
                                      ": empty index column name"))
              (List.filter unnamedElem (IndexParams n))
        ∧ (length (omap indexKey (IndexParams n))
           + length (List.filter unnamedElem (IndexParams n))
           ≤ length (IndexParams n))%nat
    | None =>
        SrcSchema (processIndexStmt conv n) = SrcSchema conv
        ∧ calls (processIndexStmt conv n) =
            calls conv ++
            [CallUnexpected ("Table " +:+ tableName +:+
                             " not found while processing index statement");
             CallSkipStatement "IndexStmt"]
    end.
Proof.
  intros Hrel Htable. unfold processIndexStmt. rewrite Hrel, Htable.
  destruct (SrcSchema conv !! tableName) as [ctable|] eqn:Ht.
  - rewrite toIndexKeys_spec. cbn [app setSrcTable logCalls mode SrcSchema calls].
    split; [done|]. split; [done|]. split; [done|].
    induction (IndexParams n) as [|k s IH]; [done|].
    destruct k as [?|?|?|?|?|nm ord|?|?|?|?|?];
      cbn [List.filter unnamedElem omap list_omap indexKey length]; try lia.
    case_decide as Hnm.
    + rewrite bool_decide_eq_true_2 by done. simpl. lia.
    + rewrite bool_decide_eq_false_2 by done. simpl. lia.
  - unfold SkipStatement, Unexpected. cbn [call mode SrcSchema calls].
    by rewrite <- app_assoc.
Qed.

Lemma processIndexStmt_appends_index_witness :
  mode (processIndexStmt Sample.conv0 SampleIndex.byQty) = schemaOnly
  ∧ SrcSchema (processIndexStmt Sample.conv0 SampleIndex.byQty) =
      <["cart" :=
          schema.setIndexes Sample.cart
            [schema.mkIndex "by_qty" true
               [schema.mkKey "qty" true; schema.mkKey "id" false]]]>
        (SrcSchema Sample.conv0)
  ∧ calls (processIndexStmt Sample.conv0 SampleIndex.byQty) =
      [CallUnexpected "Failed to process index by_qty: empty index column name"]
  ∧ (2 + 1 ≤ 3)%nat.
Proof.
  apply (processIndexStmt_appends_index Sample.conv0 SampleIndex.byQty
           SampleBatch.cartRel "cart"); reflexivity.
Defined.


(** ** CREATE TABLE *)

Lemma analyzeColDefConstraints_logs stmtType table l pgCol :
  ∃ r,
    (∀ conv, analyzeColDefConstraints conv stmtType table l pgCol = logged r conv)
    ∧ match r with
      | Some (cs, v) =>
          Forall (λ c, isProblem c = true) cs ∧ Forall (λ c, cols c = [pgCol]) v
      | None => True
      end.
Proof.
  unfold analyzeColDefConstraints.
  destruct (extractConstraints_logs stmtType table l) as (r & Hr & Hfacts).
  destruct r as [[log extracted]|].
  - destruct Hfacts as [_ Hlog].
    destruct (analyzeColDefConstraints_loop_spec extracted pgCol) as (us & Hloop & Hus).
    exists (Some (log ++ us,
                  map (λ c, mkConstraint (ct c) [pgCol] (name c) (referCols c)
                              (referTable c)) extracted)).
    split.
    + intros conv. rewrite Hr. cbn [obind fst snd app logged].
      by rewrite Hloop, logCalls_app.
    + split; [by apply Forall_app|]. by apply Forall_fmap, Forall_true.
  - exists None. split; [|done]. intros conv. by rewrite Hr.
Qed.

Lemma processColumn_logs n table :
  ∃ r,
    (∀ conv, processColumn conv n table = logged r conv)
    ∧ match r with
      | None => True
      | Some (cs, res) =>
          Forall (λ c, isProblem c = true) cs
          ∧ match res with
            | inl (name, col, cns) =>
                wellFormed n = true
                ∧ name = Colname n
                ∧ schema.ColName col = Colname n
                ∧ schema.NotNull col = false
                ∧ schema.IgnoredDefault col = false
                ∧ Forall (λ c, cols c = [Colname n]) cns
                ∧ ∃ tn, ColTypeName n = Some tn
                        ∧ getTypeID (Names tn) = inl (schema.TypeName (schema.ColType col))
            | inr _ => wellFormed n = false
            end
      end.
Proof.
  unfold processColumn, wellFormed. destruct (ColTypeName n) as [tn|].
  2: { by exists None. }
  destruct (getTypeMods_logs (Typmods tn)) as (ms & mods & Hmods & Pmods).
  destruct (getArrayBounds_logs (ArrayBounds tn)) as (bs & bounds & Hbounds & Pbounds).
  destruct (analyzeColDefConstraints_logs "ColumnDef" table (Constraints n) (Colname n))
    as (r & Hr & Hfacts).
  case_decide as Hname.
  - eexists (Some (ms, inr _)). split.
    + intros conv. by rewrite Hmods.
    + split; [done|]. by rewrite bool_decide_eq_false_2 by (by intros ?).
  - rewrite bool_decide_eq_true_2 by done. cbn [andb].
    destruct (getTypeID (Names tn)) as [tid|err] eqn:Htid.
    + destruct r as [[cs cns]|].
      * destruct Hfacts as [Pcs Pcns].
        eexists (Some (ms ++ bs ++ cs, inl (_, _, _))). split.
        -- intros conv. rewrite Hmods, Hbounds, Hr. cbn [logged obind fst snd app].
           by rewrite !logCalls_app, ?app_assoc.
        -- split; [problems_close|]. cbn. repeat split; try done. by exists tn.
      * exists None. split; [|done]. intros conv. by rewrite Hmods, Hbounds, Hr.
    + eexists (Some (ms, inr _)). split; [|done].
      intros conv. by rewrite Hmods.
Qed.


Lemma processCreateStmt_elts_logs table elts :
  ∃ r,
    (∀ conv colNames colDef constraints,
       processCreateStmt_elts conv table elts colNames colDef constraints =
       match r with
       | None => Panics
       | Some (cs, None) => Returns (logCalls cs conv, None)
       | Some (cs, Some (defs, cns)) =>
           Returns (logCalls cs conv,
                    Some (colNames ++ map fst defs, storeColumns defs colDef,
                          constraints ++ cns))
       end)
    ∧ match r with
      | None => True
      | Some (cs, res) =>
          Forall (λ c, isProblem c = true) cs
          ∧ match res with
            | None =>
                forallb wellFormed (columnDefs elts) = false
                ∧ ∃ log0 u,
                    cs = log0 ++ [CallUnexpected u; CallErrorInStatement "CreateStmt"]
            | Some (defs, cns) =>
                forallb wellFormed (columnDefs elts) = true
                ∧ map fst defs = map Colname (columnDefs elts)
                ∧ Forall (λ d, schema.ColName d.2 = d.1) defs
            end
      end.
Proof.
  induction elts as [|te elts (r & IH & Hfacts)].
  - exists (Some ([], Some ([], []))). split; [|done]. intros.
    cbn. by rewrite logCalls_nil, !app_nil_r.
  - assert (Hother : ∀ u,
              (∀ conv colNames colDef constraints,
                 processCreateStmt_elts conv table (te :: elts) colNames colDef
                   constraints =
                 processCreateStmt_elts (Unexpected u conv) table elts colNames colDef
                   constraints) →
              columnDefs (te :: elts) = columnDefs elts →
              ∃ r,
                (∀ conv colNames colDef constraints,
                   processCreateStmt_elts conv table (te :: elts) colNames colDef
                     constraints =
                   match r with
                   | None => Panics
                   | Some (cs, None) => Returns (logCalls cs conv, None)
                   | Some (cs, Some (defs, cns)) =>
                       Returns (logCalls cs conv,
                                Some (colNames ++ map fst defs, storeColumns defs colDef,
                                      constraints ++ cns))
                   end)
                ∧ match r with
                  | None => True
                  | Some (cs, res) =>
                      Forall (λ c, isProblem c = true) cs
                      ∧ match res with
                        | None =>
                            forallb wellFormed (columnDefs (te :: elts)) = false
                            ∧ ∃ log0 u,
                                cs = log0 ++ [CallUnexpected u;
                                              CallErrorInStatement "CreateStmt"]
                        | Some (defs, cns) =>
                            forallb wellFormed (columnDefs (te :: elts)) = true
                            ∧ map fst defs = map Colname (columnDefs (te :: elts))
                            ∧ Forall (λ d, schema.ColName d.2 = d.1) defs
                        end
                  end).
    { intros u Hstep Hdefs. rewrite Hdefs.
      destruct r as [[cs [[defs cns]|]]|].
      - exists (Some (CallUnexpected u :: cs, Some (defs, cns))). split.
        + intros. rewrite Hstep, IH. unfold Unexpected.
          by rewrite call_logCalls, logCalls_app.
        + destruct Hfacts as [? ?]. split; [problems_close|done].
      - exists (Some (CallUnexpected u :: cs, None)). split.
        + intros. rewrite Hstep, IH. unfold Unexpected.
          by rewrite call_logCalls, logCalls_app.
        + destruct Hfacts as (? & ? & log0 & u0 & ->). split; [problems_close|].
          split; [done|]. by exists (CallUnexpected u :: log0), u0.
      - exists None. split; [|done]. intros. by rewrite Hstep, IH. }
    destruct te as [?|?|?|?|?|? ?|c|cd|?|?|?]; try (by eapply Hother).
    + destruct (extractConstraints_logs "CreateStmt" table [Node_Constraint c])
        as (r0 & Hr0 & Hf0).
      destruct r0 as [[cs0 v]|].
      2: { exists None. split; [|done]. intros. cbn [processCreateStmt_elts].
           by rewrite Hr0. }
      destruct Hf0 as [_ Pcs0].
      change (columnDefs (Node_Constraint c :: elts)) with (columnDefs elts).
      destruct r as [[cs [[defs cns]|]]|].
      * exists (Some (cs0 ++ cs, Some (defs, v ++ cns))). split.
        -- intros. cbn [processCreateStmt_elts]. rewrite Hr0.
           cbn [obind fst snd app]. by rewrite IH, logCalls_app, <- app_assoc.
        -- destruct Hfacts as [? ?]. split; [problems_close|done].
      * exists (Some (cs0 ++ cs, None)). split.
        -- intros. cbn [processCreateStmt_elts]. rewrite Hr0.
           cbn [obind fst snd app]. by rewrite IH, logCalls_app.
        -- destruct Hfacts as (? & ? & log0 & u0 & ->). split; [problems_close|].
           split; [done|]. exists (cs0 ++ log0), u0. by rewrite <- app_assoc.
      * exists None. split; [|done]. intros. cbn [processCreateStmt_elts].
        rewrite Hr0. cbn [obind fst snd app]. by rewrite IH.
    + destruct (processColumn_logs cd table) as (rc & Hrc & Hfc).
      change (columnDefs (Node_ColumnDef cd :: elts)) with (cd :: columnDefs elts).
      cbn [forallb map].
      destruct rc as [[cs0 [[[nm col] cns0]|err]]|].
      * destruct Hfc as (Pcs0 & Hwf & -> & Hcol & _ & _ & _).
        rewrite Hwf. cbn [andb].
        destruct r as [[cs [[defs cns]|]]|].
        -- exists (Some (cs0 ++ cs, Some ((Colname cd, col) :: defs, cns0 ++ cns))).
           split.
           ++ intros. cbn [processCreateStmt_elts]. rewrite Hrc.
              cbn [logged obind fst snd]. rewrite IH, logCalls_app.
              cbn [map fst storeColumns fold_left snd].
              by rewrite <- !app_assoc.
           ++ destruct Hfacts as (? & ? & Hnames & ?). split; [problems_close|].
              split; [done|]. cbn [map fst]. rewrite Hnames. split; [done|].
              by apply Forall_cons.
        -- exists (Some (cs0 ++ cs, None)). split.
           ++ intros. cbn [processCreateStmt_elts]. rewrite Hrc.
              cbn [logged obind fst snd]. by rewrite IH, logCalls_app.
           ++ destruct Hfacts as (? & ? & log0 & u0 & ->). split; [problems_close|].
              split; [done|]. exists (cs0 ++ log0), u0. by rewrite <- app_assoc.
        -- exists None. split; [|done]. intros. cbn [processCreateStmt_elts].
           rewrite Hrc. cbn [logged obind fst snd]. by rewrite IH.
      * destruct Hfc as (Pcs0 & Hwf). rewrite Hwf. cbn [andb].
        eexists (Some (cs0 ++ [_; _], None)). split.
        -- intros. cbn [processCreateStmt_elts]. rewrite Hrc.
           cbn [logged obind fst snd]. unfold logStmtError, ErrorInStatement, Unexpected.
           by rewrite !call_logCalls, !logCalls_app.
        -- split; [problems_close|]. split; [done|]. by eexists cs0, _.
      * exists None. split; [|done]. intros. cbn [processCreateStmt_elts].
        by rewrite Hrc.
Qed.


Lemma storeColumns_spec defs : ∀ m,
  (∀ k, is_Some (storeColumns defs m !! k) ↔ is_Some (m !! k) ∨ k ∈ map fst defs)
  ∧ ((∀ k col, m !! k = Some col → schema.ColName col = k) →
     Forall (λ d, schema.ColName d.2 = d.1) defs →
     ∀ k col, storeColumns defs m !! k = Some col → schema.ColName col = k).
Proof.
  induction defs as [|[nm c] defs IH]; intros m.
  - split; [|done]. intros k. split; [by left|]. intros [?|Hk]; [done|].
    by apply elem_of_nil in Hk.
  - cbn [storeColumns fold_left fst snd map].
    destruct (IH (<[nm := c]> m)) as [Hdom Hname]. split.
    + intros k. unfold storeColumns in Hdom. rewrite Hdom, elem_of_cons.
      destruct (decide (nm = k)) as [->|Hne].
      * rewrite lookup_insert_eq. split; [intros _; right; by left|by left].
      * rewrite lookup_insert_ne by done. split; [tauto|].
        intros [?|[?|?]]; [by left|done|by right].
    + intros Hm [Hc Hdefs]%Forall_cons. apply Hname; [|done].
      intros k col. destruct (decide (nm = k)) as [->|Hne].
      * rewrite lookup_insert_eq. by intros [= <-].
      * rewrite lookup_insert_ne by done. apply Hm.
Qed.



(** ** What each mode keeps *)

Lemma keepsSchema_refl conv : keepsSchema conv conv.
Proof. done. Qed.

Lemma keepsSchema_trans c1 c2 c3 :
  keepsSchema c1 c2 → keepsSchema c2 c3 → keepsSchema c1 c3.
Proof. intros [? ?] [? ?]. split; congruence. Qed.

Lemma convertsNoRow_refl conv : convertsNoRow conv conv.
Proof. split; [done|]. exists []. by rewrite app_nil_r. Qed.

Lemma convertsNoRow_trans c1 c2 c3 :
  convertsNoRow c1 c2 → convertsNoRow c2 c3 → convertsNoRow c1 c3.
Proof.
  intros (Hm1 & l1 & Hc1 & Hl1) (Hm2 & l2 & Hc2 & Hl2). split; [congruence|].
  exists (l1 ++ l2). split; [by rewrite Hc2, Hc1, app_assoc|by apply Forall_app].
Qed.

Lemma diagnostics_no_rows log :
  diagnosticsOnly log → Forall (λ c, isProcessDataRow c = false) log.
Proof. intros H. eapply Forall_impl; [exact H|]. by intros []. Qed.

Ltac no_rows :=
  repeat first
    [ assumption
    | apply Forall_nil_2
    | apply Forall_app; split
    | apply Forall_cons; split; [reflexivity|]
    | apply problems_no_rows; assumption
    | apply diagnostics_no_rows; assumption ].

Ltac unfold_calls :=
  unfold logStmtError, ErrorInStatement, Unexpected, SkipStatement, SchemaStatement,
    DataStatement, StatsAddRow, StatsAddBadRow, SetLocation, copyNotLast;
  cbn [calls call logCalls VerbosePrintf setSrcTable mode SrcSchema].

Ltac converts_close :=
  split; [reflexivity|];
  eexists; split;
  [ unfold_calls; rewrite <- ?app_assoc;
    first [reflexivity | symmetry; apply app_nil_r]
  | no_rows ].

Lemma getRows_run conv vll rows0 :
  ∃ us, diagnosticsOnly us ∧ getRows conv vll rows0 = (logCalls us conv, (getRows conv vll rows0).2).
Proof.
  destruct (getRows_logs conv vll rows0) as (us & Hus & Hrun). exists us.
  split; [done|]. rewrite <- Hrun. by destruct (getRows conv vll rows0).
Qed.

Lemma processCopyStmt_attlist_run conv attlist cols0 :
  ∃ us, diagnosticsOnly us
      ∧ processCopyStmt_attlist conv attlist cols0 =
        (logCalls us conv, (processCopyStmt_attlist conv attlist cols0).2).
Proof.
  destruct (processCopyStmt_attlist_logs conv attlist cols0) as (us & Hus & Hrun).
  exists us. split; [done|]. rewrite <- Hrun.
  by destruct (processCopyStmt_attlist conv attlist cols0).
Qed.

Lemma processInsertStmt_modes conv n conv' ci :
  processInsertStmt conv n = Returns (conv', ci) →
  keepsSchema conv conv'
  ∧ convertsNoRow conv conv'
  ∧ (mode conv = schemaOnly → ci = None)
  ∧ (∀ c, ci = Some c → stmt c = insert).
Proof.
  unfold processInsertStmt. intros Hrun.
  destruct (InsertRelation n) as [rel|]; [destruct (getTableName rel) as [table|err]|];
    [destruct (SrcSchema conv !! table) as [t|]| |];
    try (injection Hrun as <- <-; split; [done|]; split; [converts_close|done]).
  destruct (getCols (Cols n) []) as [colNames|err];
    try (injection Hrun as <- <-; split; [done|]; split; [converts_close|done]).
  destruct (SelectStmt n) as [sel|]; [|done].
  destruct sel; try (injection Hrun as <- <-; split; [done|]; split; [converts_close|done]).
  destruct (getRows_run (StatsAddRow table (SchemaMode conv) conv) ValuesLists [])
    as (us & Hus & Hrows).
  rewrite Hrows in Hrun. unfold DataMode in Hrun. cbn in Hrun.
  destruct (mode conv) eqn:Hmode; injection Hrun as <- <-;
    (split; [done|]); (split; [converts_close|]); split; try done.
  by intros c [= <-].
Qed.

Lemma processCopyStmt_modes conv n :
  keepsSchema conv (processCopyStmt conv n).1
  ∧ convertsNoRow conv (processCopyStmt conv n).1
  ∧ stmt (processCopyStmt conv n).2 = copyFrom.
Proof.
  unfold processCopyStmt.
  destruct (CopyRelation n) as [rel|]; [destruct (getTableName rel) as [table|err]|].
  - destruct (SrcSchema conv !! table) as [t|] eqn:Ht.
    + destruct (processCopyStmt_attlist_run conv (Attlist n) []) as (us & Hus & ->).
      cbn [fst snd stmt]. split; [done|]. split; [converts_close|done].
    + cbn [fst snd stmt]. split; [done|]. split; [converts_close|done].
  - change (SrcSchema (Unexpected _ conv)) with (SrcSchema conv).
    destruct (SrcSchema conv !! EmptyString) as [t|] eqn:Ht.
    + destruct (processCopyStmt_attlist_run
                  (Unexpected ("Processing CopyStmt statement: " +:+ err) conv)
                  (Attlist n) []) as (us & Hus & ->).
      cbn [fst snd stmt]. split; [done|]. split; [converts_close|done].
    + cbn [fst snd stmt]. split; [done|]. split; [converts_close|done].
  - change (SrcSchema (logStmtError _ _ conv)) with (SrcSchema conv).
    destruct (SrcSchema conv !! "BOGUS_COPY_FROM_TABLE") as [t|] eqn:Ht.
    + destruct (processCopyStmt_attlist_run
                  (logStmtError "CopyStmt" "relation is nil" conv)
                  (Attlist n) []) as (us & Hus & ->).
      cbn [fst snd stmt]. split; [done|]. split; [converts_close|done].
    + cbn [fst snd stmt]. split; [done|]. split; [converts_close|done].
Qed.


Lemma processAlterTableStmt_convertsNoRow conv n conv' :
  processAlterTableStmt conv n = Returns conv' → convertsNoRow conv conv'.
Proof.
  unfold processAlterTableStmt. intros Hrun.
  destruct (AlterRelation n) as [rel|]; [destruct (getTableName rel) as [table|err]|];
    [destruct (SrcSchema conv !! table) as [t|]| |];
    try (injection Hrun as <-; converts_close).
  destruct (processAlterTableCmds_frame _ _ _ _ Hrun) as (log & Hc & _ & Hm & _ & _ & Hr).
  split; [done|]. by exists log.
Qed.

Lemma processCreateStmt_convertsNoRow conv n conv' :
  processCreateStmt conv n = Returns conv' → convertsNoRow conv conv'.
Proof.
  unfold processCreateStmt. intros Hrun.
  destruct (CreateRelation n) as [rel|]; [destruct (getTableName rel) as [table|err]|];
    try (injection Hrun as <-; converts_close).
  case_decide; [injection Hrun as <-; converts_close|].
  destruct (processCreateStmt_elts_logs table (TableElts n)) as (r & Hr & Hfacts).
  rewrite Hr in Hrun. destruct r as [[cs [[defs cns]|]]|]; [| |done].
  - destruct Hfacts as (Pcs & _). cbn [obind fst snd] in Hrun.
    destruct (updateSchema_frame _ _ _ _ _ Hrun) as (d & Hc & Hd & Hm & _).
    split; [by rewrite Hm|].
    exists (cs ++ [CallSchemaStatement "CreateStmt"] ++ d). split.
    + rewrite Hc. unfold_calls. by rewrite <- !app_assoc.
    + no_rows.
  - destruct Hfacts as (Pcs & _). cbn [obind fst snd] in Hrun.
    injection Hrun as <-. converts_close.
Qed.

Lemma processIndexStmt_convertsNoRow conv n :
  convertsNoRow conv (processIndexStmt conv n).
Proof.
  unfold processIndexStmt.
  destruct (IndexRelation n) as [rel|]; [destruct (getTableName rel) as [table|err]|];
    [destruct (SrcSchema conv !! table) as [t|]| |]; try converts_close.
  rewrite toIndexKeys_spec. split; [done|]. eexists. split; [reflexivity|].
  apply Forall_fmap, Forall_true. done.
Qed.

Section Modes.

Variable LoadLocation : string -> errorOr Location.
Variable Parse : string -> option (list RawStmt).

Lemma processVariableSetStmt_convertsNoRow conv n :
  convertsNoRow conv (processVariableSetStmt LoadLocation conv n).
Proof.
  unfold processVariableSetStmt. case_decide; [|apply convertsNoRow_refl].
  destruct (Args n) as [|arg [|? ?]]; try apply convertsNoRow_refl.
  destruct arg as [?|?|val|?|?|? ?|?|?|?|?|?]; try converts_close.
  destruct (getString val) as [tz|err]; [|converts_close].
  destruct (LoadLocation tz); converts_close.
Qed.

Lemma schemaMode_true conv : mode conv = schemaOnly → SchemaMode conv = true.
Proof. unfold SchemaMode. by intros ->. Qed.

Lemma schemaMode_false conv : mode conv = dataOnly → SchemaMode conv = false.
Proof. unfold SchemaMode. by intros ->. Qed.

(** In schema mode a batch hands no row to the converter, and what it
    returns for the driver is a COPY if anything. *)
Lemma processStatements_schema_mode stmts : ∀ conv conv' ci,
  mode conv = schemaOnly →
  processStatements LoadLocation conv stmts = Returns (conv', ci) →
  convertsNoRow conv conv' ∧ (∀ c, ci = Some c → stmt c = copyFrom).
Proof.
  induction stmts as [|s rest IH]; intros conv conv' ci Hmode Hrun.
  - injection Hrun as <- <-. split; [apply convertsNoRow_refl|done].
  - assert (Hnext : ∀ conv1,
              convertsNoRow conv conv1 →
              processStatements LoadLocation conv1 rest = Returns (conv', ci) →
              convertsNoRow conv conv' ∧ (∀ c, ci = Some c → stmt c = copyFrom)).
    { intros conv1 Hstep Hrest.
      destruct (IH conv1 conv' ci) as [Hconv Hci]; [|done|].
      - destruct Hstep as [-> _]. done.
      - split; [by eapply convertsNoRow_trans|done]. }
    destruct s as [n|n|n|n|n|n|ty]; cbn [processStatements] in Hrun;
      rewrite ?(schemaMode_true _ Hmode) in Hrun.
    + destruct (processAlterTableStmt conv n) as [conv1|] eqn:Hstep; [|done].
      eapply Hnext; [by eapply processAlterTableStmt_convertsNoRow|done].
    + destruct (processCopyStmt_modes
                  match rest with
                  | [] => conv
                  | _ :: _ =>
                      ErrorInStatement "CopyStmt"
                        (Unexpected ("CopyFrom is not the last statement in batch: " +:+
                                     "ignoring following statements") conv)
                  end n) as (_ & Hconv & Hstmt).
      destruct (processCopyStmt _ n) as [conv1 ci1]. injection Hrun as <- <-.
      split; [|by intros c [= <-]].
      eapply convertsNoRow_trans; [|exact Hconv].
      destruct rest; [apply convertsNoRow_refl|converts_close].
    + destruct (processCreateStmt conv n) as [conv1|] eqn:Hstep; [|done].
      eapply Hnext; [by eapply processCreateStmt_convertsNoRow|done].
    + destruct (processInsertStmt_modes _ _ _ _ Hrun) as (_ & Hconv & Hnone & _).
      split; [done|]. rewrite (Hnone Hmode). done.
    + eapply Hnext; [apply processVariableSetStmt_convertsNoRow|done].
    + eapply Hnext; [apply processIndexStmt_convertsNoRow|done].
    + eapply Hnext; [|done]. converts_close.
Qed.

(** In data mode a batch leaves the source schema as it was. *)
Lemma processStatements_data_mode stmts : ∀ conv conv' ci,
  mode conv = dataOnly →
  processStatements LoadLocation conv stmts = Returns (conv', ci) →
  keepsSchema conv conv'.
Proof.
  induction stmts as [|s rest IH]; intros conv conv' ci Hmode Hrun.
  - by injection Hrun as <- <-.
  - destruct s as [n|n|n|n|n|n|ty]; cbn [processStatements] in Hrun;
      rewrite ?(schemaMode_false _ Hmode) in Hrun; try (by eapply IH).
    + destruct (processCopyStmt_modes
                  match rest with
                  | [] => conv
                  | _ :: _ =>
                      ErrorInStatement "CopyStmt"
                        (Unexpected ("CopyFrom is not the last statement in batch: " +:+
                                     "ignoring following statements") conv)
                  end n) as (Hkeep & _).
      destruct (processCopyStmt _ n) as [conv1 ci1]. injection Hrun as <- <-.
      eapply keepsSchema_trans; [|exact Hkeep]. by destruct rest.
    + by destruct (processInsertStmt_modes _ _ _ _ Hrun) as (Hkeep & _).
    + eapply keepsSchema_trans; [|by eapply (IH (SkipStatement ty conv))]. done.
Qed.

Lemma processCopyBlock_loop_modes fuel : ∀ conv t cs r conv' r',
  processCopyBlock_loop fuel conv t cs r = Some (conv', r') →
  keepsSchema conv conv' ∧ (mode conv = schemaOnly → convertsNoRow conv conv').
Proof.
  induction fuel as [|fuel IH]; intros conv t cs r conv' r' Hrun; [done|].
  cbn [processCopyBlock_loop] in Hrun. destruct (ReadLine r) as [b r1].
  destruct (endOfCopy b).
  { injection Hrun as <- <-. split; [done|]. intros _. converts_close. }
  destruct (EOF r1).
  { injection Hrun as <- <-. split; [done|]. intros _. converts_close. }
  unfold DataMode in Hrun. cbn [StatsAddRow call mode] in Hrun.
  destruct (mode conv) eqn:Hmode; cbn [negb] in Hrun;
    destruct (IH _ _ _ _ _ _ Hrun) as [Hkeep Hrows].
  - split; [by eapply keepsSchema_trans|]. intros _.
    eapply convertsNoRow_trans; [|by apply Hrows]. converts_close.
  - split; [by eapply keepsSchema_trans|]. done.
Qed.

Lemma processCopyOrInsert_modes conv ci r conv' r' :
  processCopyOrInsert conv ci r = Some (conv', r') →
  keepsSchema conv conv'
  ∧ (mode conv = schemaOnly → (∀ c, ci = Some c → stmt c = copyFrom) →
     convertsNoRow conv conv').
Proof.
  unfold processCopyOrInsert. intros Hrun. destruct ci as [ci|].
  2: { injection Hrun as <- <-. split; [done|]. intros _ _. apply convertsNoRow_refl. }
  destruct (stmt ci) eqn:Hstmt.
  - unfold processCopyBlock in Hrun.
    destruct (processCopyBlock_loop_modes _ _ _ _ _ _ _ Hrun) as [Hkeep Hrows].
    split; [done|]. intros Hmode _.
    eapply convertsNoRow_trans; [|by apply Hrows]. converts_close.
  - injection Hrun as <- <-. rewrite processInsertRows_calls. split; [done|].
    intros _ Hcopy. specialize (Hcopy ci eq_refl). congruence.
Qed.

Lemma readAndParseChunk_modes conv r conv' r' res :
  readAndParseChunk Parse conv r = Some (conv', r', res) →
  keepsSchema conv conv' ∧ convertsNoRow conv conv'.
Proof.
  unfold readAndParseChunk. intros Hrun.
  destruct (readAndParseChunk_loop_spec Parse (S (length (pending r))) conv r [])
    as (conv1 & r1 & res1 & n & reads & Hrun1 & _ & _ & Hcalls & Hsch & Hmode & _); [lia|].
  rewrite Hrun1 in Hrun. injection Hrun as <- <- <-.
  split; [done|]. split; [done|]. exists []. by rewrite app_nil_r.
Qed.

Lemma processPgDump_loop_modes fuel : ∀ conv r res,
  processPgDump_loop LoadLocation Parse fuel conv r = Some res →
  match res with
  | Finished conv' _ | Failed conv' _ _ =>
      mode conv' = mode conv
      ∧ (mode conv = dataOnly → SrcSchema conv' = SrcSchema conv)
      ∧ (mode conv = schemaOnly → convertsNoRow conv conv')
  | Crashed => True
  end.
Proof.
  induction fuel as [|fuel IH]; intros conv r res Hrun; [done|].
  cbn [processPgDump_loop] in Hrun.
  destruct (readAndParseChunk Parse conv r) as [[[conv1 r1] ch]|] eqn:Hchunk; [|done].
  destruct (readAndParseChunk_modes _ _ _ _ _ Hchunk) as [[Hs1 Hm1] Hr1].
  destruct ch as [b stmts|err].
  2: { injection Hrun as <-. split; [done|]. split; [done|]. done. }
  destruct (processStatements LoadLocation conv1 stmts) as [[conv2 ci]|] eqn:Hstmts.
  2: { by injection Hrun as <-. }
  match type of Hrun with
  | context [processCopyOrInsert ?c ci r1] => set (conv3 := c) in Hrun
  end.
  destruct (processCopyOrInsert conv3 ci r1) as [[conv4 r4]|] eqn:Hci; [|done].
  destruct (processCopyOrInsert_modes _ _ _ _ _ Hci) as [[Hs4 Hm4] Hr4].
  assert (Hm2 : mode conv2 = mode conv1).
  { destruct (mode conv1) eqn:Hmode.
    - by destruct (processStatements_schema_mode _ _ _ _ Hmode Hstmts) as [[-> _] _].
    - by destruct (processStatements_data_mode _ _ _ _ Hmode Hstmts) as [_ ->]. }
  assert (Hstep : mode conv4 = mode conv
                  ∧ (mode conv = dataOnly → SrcSchema conv4 = SrcSchema conv)
                  ∧ (mode conv = schemaOnly → convertsNoRow conv conv4)).
  { split; [subst conv3; cbn in Hm4; congruence|]. split.
    - intros Hmode. rewrite Hs4. subst conv3. cbn [VerbosePrintf SrcSchema].
      destruct (processStatements_data_mode stmts conv1 conv2 ci) as [-> _];
        [congruence|done|done].
    - intros Hmode.
      destruct (processStatements_schema_mode stmts conv1 conv2 ci) as [Hr2 Hcopy];
        [congruence|done|].
      eapply convertsNoRow_trans; [exact Hr1|].
      eapply convertsNoRow_trans; [exact Hr2|].
      eapply convertsNoRow_trans; [|apply Hr4; [subst conv3; cbn; congruence|done]].
      subst conv3. converts_close. }
  destruct (EOF r4); [by injection Hrun as <-|].
  specialize (IH _ _ _ Hrun). destruct Hstep as (Hm & Hd & Hs).
  destruct res as [conv5 r5|conv5 r5 err|]; [| |done];
    destruct IH as (Hm5 & Hd5 & Hs5);
    (split; [congruence|]); split.
  - intros Hmode. rewrite Hd5 by congruence. by apply Hd.
  - intros Hmode. eapply convertsNoRow_trans; [by apply Hs|]. apply Hs5. congruence.
  - intros Hmode. rewrite Hd5 by congruence. by apply Hd.
  - intros Hmode. eapply convertsNoRow_trans; [by apply Hs|]. apply Hs5. congruence.
Qed.

End Modes.


Section ModeTheorems.

Variable LoadLocation : string -> errorOr Location.
Variable Parse : string -> option (list RawStmt).

(** X15.  In data mode [processStatements] leaves the source schema and the
    mode as they were, whatever the batch.  On a batch without COPY and
    INSERT it never panics and returns nothing for the driver; the CREATE
    TABLE, ALTER TABLE, CREATE INDEX and SET statements of the batch are
    passed over without a trace, and every statement of another kind adds
    one [SkipStatement] record with its type name, in the order of the
    batch. *)
Theorem processStatements_data_mode_ignores_schema conv stmts :
  mode conv = dataOnly →
  (∀ conv' ci,
     processStatements LoadLocation conv stmts = Returns (conv', ci) →
     SrcSchema conv' = SrcSchema conv ∧ mode conv' = dataOnly)
  ∧ (Forall (λ s, isCopyOrInsert s = false) stmts →
     processStatements LoadLocation conv stmts =
     Returns (logCalls (omap skipOf stmts) conv, None)).
Proof.
  intros Hmode. split.
  - intros conv' ci Hrun.
    destruct (processStatements_data_mode LoadLocation stmts conv conv' ci Hmode Hrun)
      as [Hsch Hm].
    split; [done|congruence].
  - intros Hplain. revert conv Hmode.
    induction Hplain as [|s rest Hs _ IH]; intros conv Hmode.
    + cbn. by rewrite logCalls_nil.
    + destruct s as [n|n|n|n|n|n|ty]; try discriminate Hs;
        cbn [processStatements omap list_omap skipOf];
        rewrite ?(schemaMode_false _ Hmode); try by apply IH.
      rewrite (IH (SkipStatement ty conv)) by done.
      unfold SkipStatement. by rewrite call_logCalls, logCalls_app.
Qed.

(** X16.  A run of [processPgDump] always ends, and keeps to its mode: the
    mode is the same at the end, whether the run finishes or stops at a
    parse error; a run in data mode leaves the source schema exactly as it
    found it; and a run in schema mode hands no row to the row converter,
    whatever COPY blocks and INSERT statements the dump holds. *)
Theorem processPgDump_keeps_to_its_mode conv r :
  ∃ res,
    processPgDump LoadLocation Parse conv r = Some res
    ∧ match res with
      | Finished conv' _ | Failed conv' _ _ =>
          mode conv' = mode conv
          ∧ (mode conv = dataOnly → SrcSchema conv' = SrcSchema conv)
          ∧ (mode conv = schemaOnly →
             rowsConverted (calls conv') = rowsConverted (calls conv))
      | Crashed => True
      end.
Proof.
  destruct (processPgDump_total LoadLocation Parse conv r) as [res Hrun].
  exists res. split; [done|].
  pose proof (processPgDump_loop_modes LoadLocation Parse _ _ _ _ Hrun) as Hmodes.
  assert (Hrows : ∀ conv', convertsNoRow conv conv' →
            rowsConverted (calls conv') = rowsConverted (calls conv)).
  { intros conv' (_ & log & -> & Hlog). unfold rowsConverted.
    rewrite List.filter_app.
    assert (List.filter isProcessDataRow log = []) as ->; [|by rewrite app_nil_r].
    clear -Hlog. induction Hlog as [|c log Hc _ IH]; [done|].
    cbn [List.filter]. by rewrite Hc. }
  destruct res as [conv' r'|conv' r' err|]; [| |done];
    destruct Hmodes as (Hm & Hd & Hs); (split; [done|]); (split; [done|]);
    intros Hmode; by apply Hrows, Hs.
Qed.

End ModeTheorems.

Lemma processStatements_data_mode_ignores_schema_witness :
  processStatements SampleBatch.noZone SampleBatch.dataConv
    [Node_CreateStmt SampleCreate.createCart; Stmt_other "CommentStmt";
     Node_AlterTableStmt SampleAlter.alterCart; Stmt_other "SelectStmt"] =
  Returns (logCalls [CallSkipStatement "CommentStmt"; CallSkipStatement "SelectStmt"]
             SampleBatch.dataConv, None).
Proof.
  apply (proj2 (processStatements_data_mode_ignores_schema SampleBatch.noZone
                  SampleBatch.dataConv
                  [Node_CreateStmt SampleCreate.createCart; Stmt_other "CommentStmt";
                   Node_AlterTableStmt SampleAlter.alterCart; Stmt_other "SelectStmt"]
                  eq_refl)).
  by repeat constructor.
Defined.


(** ** The values of a copy-block line *)

Lemma Split_nonempty s sep : gostrings.Split s sep ≠ [].
Proof.
  destruct s as [|c rest]; [done|]. cbn [gostrings.Split].
  case_decide; [done|]. by destruct (gostrings.Split rest sep).
Qed.

Lemma Split_length s sep : length (gostrings.Split s sep) = S (countByte s sep).
Proof.
  induction s as [|c rest IH]; [done|]. cbn [gostrings.Split countByte].
  case_decide.
  - simpl. by rewrite IH.
  - pose proof (Split_nonempty rest sep).
    destruct (gostrings.Split rest sep); [done|]. simpl in *. lia.
Qed.

Lemma Split_avoids s sep : Forall (λ f, avoids f [sep] = true) (gostrings.Split s sep).
Proof.
  induction s as [|c rest IH]; [by repeat constructor|]. cbn [gostrings.Split].
  case_decide as Hc.
  - by constructor.
  - pose proof (Split_nonempty rest sep).
    destruct (gostrings.Split rest sep) as [|h t]; [done|].
    apply Forall_cons in IH as [Hh Ht]. constructor; [|done].
    cbn [avoids]. rewrite Hh, bool_decide_eq_false_2; [done|].
    by intros ->%list_elem_of_singleton.
Qed.

Lemma Join_Split s sep :
  gostrings.Join (gostrings.Split s sep) (String sep EmptyString) = s.
Proof.
  induction s as [|c rest IH]; [done|]. cbn [gostrings.Split].
  pose proof (Split_nonempty rest sep).
  destruct (gostrings.Split rest sep) as [|h t] eqn:Hsplit; [done|].
  case_decide as Hc.
  - subst c. rewrite Join_cons2, IH. done.
  - destruct t as [|h' t].
    + cbn [gostrings.Join] in *. by rewrite IH.
    + rewrite Join_cons2 in *. rewrite append_cons. by rewrite IH.
Qed.

Lemma TrimLeft_onlyOf s cut : onlyOf s cut = true → gostrings.TrimLeft s cut = EmptyString.
Proof.
  induction s as [|c rest IH]; [done|]. cbn [onlyOf gostrings.TrimLeft].
  intros [Hc Hrest]%andb_true_iff. apply bool_decide_eq_true in Hc.
  rewrite decide_True by done. by apply IH.
Qed.

(** X17.  The values that [copyBlockValues] makes of a line, whatever the
    line: there is always at least one value, one more than the line has
    tabs once its doubled backslashes are collapsed and the carriage returns
    and line feeds at its ends are cut; no value holds a tab; and joined by
    tabs the values give back that text, so that nothing of the line but
    its ends is lost or altered by the split.  A line made only of carriage
    returns and line feeds, an empty line of the block, gives one empty
    value and not an empty row. *)
Theorem copyBlockValues_splits_at_tabs b :
  copyBlockValues b ≠ []
  ∧ length (copyBlockValues b) =
      S (countByte
           (gostrings.Trim
              (gostrings.ReplaceAll b backslash backslash (String backslash EmptyString))
              [CR; LF]) TAB)
  ∧ Forall (λ v, avoids v [TAB] = true) (copyBlockValues b)
  ∧ gostrings.Join (copyBlockValues b) (String TAB EmptyString) =
      gostrings.Trim
        (gostrings.ReplaceAll b backslash backslash (String backslash EmptyString))
        [CR; LF]
  ∧ (onlyOf b [CR; LF] = true → copyBlockValues b = [EmptyString]).
Proof.
  unfold copyBlockValues.
  split; [apply Split_nonempty|]. split; [apply Split_length|].
  split; [apply Split_avoids|]. split; [apply Join_Split|].
  intros Honly.
  assert (Hplain : avoids b [backslash] = true).
  { clear -Honly. induction b as [|c rest IH]; [done|]. cbn [onlyOf avoids] in *.
    apply andb_true_iff in Honly as [Hc Hrest]. rewrite (IH Hrest), andb_true_r.
    apply bool_decide_eq_true in Hc. apply negb_true_iff, bool_decide_eq_false_2.
    intros ->%list_elem_of_singleton.
    by repeat (apply elem_of_cons in Hc as [Hc|Hc]; [done|]); apply elem_of_nil in Hc. }
  rewrite ReplaceAll_plain by done. unfold gostrings.Trim.
  by rewrite TrimLeft_onlyOf.
Qed.


(** ** COPY statements *)

Lemma processCopyStmt_attlist_spec attlist : ∀ conv cols0,
  ∃ us,
    processCopyStmt_attlist conv attlist cols0 =
      (logCalls us conv, cols0 ++ map copyColumn attlist)
    ∧ diagnosticsOnly us
    ∧ (length us ≤ length attlist)%nat.
Proof.
  induction attlist as [|a attlist IH]; intros conv cols0.
  - exists []. cbn [processCopyStmt_attlist map]. rewrite logCalls_nil, app_nil_r.
    split; [done|]. split; [constructor|done].
  - cbn [processCopyStmt_attlist map].
    change (copyColumn a)
      with (match getString a with inl s => s | inr _ => "BOGUS_COPY_FROM_COLUMN" end).
    destruct (getString a) as [s|err].
    + destruct (IH conv (cols0 ++ [s])) as (us & -> & Hus & Hlen).
      exists us. rewrite <- app_assoc. split; [done|]. split; [done|]. simpl. lia.
    + destruct (IH (Unexpected ("Processing CopyStmt statement Attlist: " +:+ err) conv)
                  (cols0 ++ ["BOGUS_COPY_FROM_COLUMN"])) as (us & -> & Hus & Hlen).
      eexists (_ :: us). unfold Unexpected.
      rewrite call_logCalls, logCalls_app, <- app_assoc. split; [done|].
      split; [by constructor|]. simpl. lia.
Qed.

(** X18.  [processCopyStmt] returns a COPY for the driver whatever the
    statement, so that the block after it is always read: the table is the
    name of the relation (a placeholder when the statement has no relation,
    the empty name when the relation has none), and there are no rows.  When
    that table is in the source schema the columns are the entries of the
    column list in order, one for each entry, an entry that is no string
    being replaced by a placeholder column with a diagnostic, and the
    statement is recorded last as a data statement; when it is not, the
    column list is dropped and the statement is recorded as skipped.  The
    schema and the mode stay as they were. *)
Theorem processCopyStmt_always_copies conv n :
  stmt (processCopyStmt conv n).2 = copyFrom
  ∧ table (processCopyStmt conv n).2 = copyTable n
  ∧ rows (processCopyStmt conv n).2 = []
  ∧ SrcSchema (processCopyStmt conv n).1 = SrcSchema conv
  ∧ mode (processCopyStmt conv n).1 = mode conv
  ∧ match SrcSchema conv !! copyTable n with
    | Some _ =>
        ci_cols (processCopyStmt conv n).2 = map copyColumn (Attlist n)
        ∧ length (ci_cols (processCopyStmt conv n).2) = length (Attlist n)
        ∧ last (calls (processCopyStmt conv n).1) = Some (CallDataStatement "CopyStmt")
    | None =>
        ci_cols (processCopyStmt conv n).2 = []
        ∧ last (calls (processCopyStmt conv n).1) = Some (CallSkipStatement "CopyStmt")
    end.
Proof.
  unfold processCopyStmt, copyTable.
  assert (Hgo : ∀ base tbl,
            SrcSchema base = SrcSchema conv → mode base = mode conv →
            let res :=
              match SrcSchema base !! tbl with
              | None =>
                  (VerbosePrintf ("Processing CopyStmt statement: table " +:+ tbl +:+
                                  " not found") (SkipStatement "CopyStmt" base),
                   mkCopyOrInsert copyFrom tbl [] [])
              | Some _ =>
                  let '(conv1, cols) := processCopyStmt_attlist base (Attlist n) [] in
                  (DataStatement "CopyStmt" conv1, mkCopyOrInsert copyFrom tbl cols [])
              end in
            stmt res.2 = copyFrom ∧ table res.2 = tbl ∧ rows res.2 = []
            ∧ SrcSchema res.1 = SrcSchema conv ∧ mode res.1 = mode conv
            ∧ match SrcSchema conv !! tbl with
              | Some _ =>
                  ci_cols res.2 = map copyColumn (Attlist n)
                  ∧ length (ci_cols res.2) = length (Attlist n)
                  ∧ last (calls res.1) = Some (CallDataStatement "CopyStmt")
              | None =>
                  ci_cols res.2 = []
                  ∧ last (calls res.1) = Some (CallSkipStatement "CopyStmt")
              end).
  { intros base tbl Hsch Hmode. rewrite Hsch.
    destruct (SrcSchema conv !! tbl) as [t|].
    - destruct (processCopyStmt_attlist_spec (Attlist n) base []) as (us & -> & _ & _).
      cbn [fst snd stmt table rows ci_cols app]. rewrite length_map.
      repeat split; try done. unfold DataStatement. cbn [call calls].
      by rewrite last_snoc.
    - cbn [fst snd stmt table rows ci_cols]. repeat split; try done.
      unfold SkipStatement. cbn [VerbosePrintf call calls]. by rewrite last_snoc. }
  destruct (CopyRelation n) as [rel|]; [destruct (getTableName rel) as [tbl|err]|].
  - by apply (Hgo conv tbl).
  - by apply (Hgo (Unexpected ("Processing CopyStmt statement: " +:+ err) conv)
                EmptyString).
  - by apply (Hgo (logStmtError "CopyStmt" "relation is nil" conv)
                "BOGUS_COPY_FROM_TABLE").
Qed.

Section CopyUnknown.

Variable LoadLocation : string -> errorOr Location.

(** X19.  A COPY into a table that the source schema does not have is
    recorded as skipped, and its block is processed all the same: every line
    before the end marker is counted for that table, and in data mode handed
    to the row converter with the table's name and an empty list of columns.
    The lines after the marker stay in the reader, and the schema stays as
    it was. *)
Theorem copy_into_unknown_table_reads_block conv n rel tbl r lines marker rest :
  CopyRelation n = Some rel →
  getTableName rel = inl tbl →
  SrcSchema conv !! tbl = None →
  EOF r = false →
  pending r = lines ++ marker :: rest →
  Forall (λ b, endOfCopy b = false) lines →
  endOfCopy marker = true →
  ∃ conv1 ci conv2 r2,
    processStatements LoadLocation conv [Node_CopyStmt n] = Returns (conv1, Some ci)
    ∧ processCopyOrInsert conv1 (Some ci) r = Some (conv2, r2)
    ∧ pending r2 = rest
    ∧ SrcSchema conv2 = SrcSchema conv
    ∧ calls conv2 =
        calls conv ++ [CallSkipStatement "CopyStmt"] ++ copyBlockCalls conv tbl [] lines
    ∧ rowsCounted tbl (calls conv2) = (rowsCounted tbl (calls conv) + length lines)%nat
    ∧ rowsConverted (calls conv2) =
        rowsConverted (calls conv) ++
        (if DataMode conv
         then map (λ b, CallProcessDataRow tbl [] (copyBlockValues b)) lines
         else []).
Proof.
  intros Hrel Htbl Hunknown Heof Hp Hlines Hmarker.
  cbn [processStatements]. unfold processCopyStmt. rewrite Hrel, Htbl, Hunknown.
  set (conv1 := VerbosePrintf _ (SkipStatement "CopyStmt" conv)).
  destruct (processCopyBlock_to_marker conv1 tbl [] r lines marker rest
              Heof Hlines Hp Hmarker)
    as (conv2 & r2 & Hrun & Hp2 & _ & Hcalls & Hsch & _).
  eexists conv1, _, conv2, r2. split; [reflexivity|].
  unfold processCopyOrInsert. cbn [stmt table ci_cols].
  split; [exact Hrun|]. split; [done|]. split; [by rewrite Hsch|].
  assert (Hcalls2 : calls conv2 =
            calls conv ++ [CallSkipStatement "CopyStmt"] ++ copyBlockCalls conv tbl [] lines).
  { rewrite Hcalls. subst conv1. unfold SkipStatement.
    cbn [VerbosePrintf call calls]. by rewrite <- app_assoc. }
  split; [exact Hcalls2|]. rewrite Hcalls2. split.
  - rewrite !rowsCounted_app, rowsCounted_copyBlockCalls. simpl. lia.
  - by rewrite !rowsConverted_app, rowsConverted_copyBlockCalls.
Qed.

End CopyUnknown.

Lemma copy_into_unknown_table_reads_block_witness :
  ∃ conv1 ci conv2 r2,
    processStatements SampleBatch.noZone SampleLines.dataConv
      [Node_CopyStmt SampleBatch.copyCart] = Returns (conv1, Some ci)
    ∧ processCopyOrInsert conv1 (Some ci) SampleLines.block = Some (conv2, r2)
    ∧ pending r2 = ["COMMIT;"]
    ∧ SrcSchema conv2 = SrcSchema SampleLines.dataConv
    ∧ calls conv2 =
        calls SampleLines.dataConv ++ [CallSkipStatement "CopyStmt"] ++
        copyBlockCalls SampleLines.dataConv "cart" []
          [SampleLines.line; SampleLines.crLine]
    ∧ rowsCounted "cart" (calls conv2) =
        (rowsCounted "cart" (calls SampleLines.dataConv) + 2)%nat
    ∧ rowsConverted (calls conv2) =
        rowsConverted (calls SampleLines.dataConv) ++
        map (λ b, CallProcessDataRow "cart" [] (copyBlockValues b))
          [SampleLines.line; SampleLines.crLine].
Proof.
  apply (copy_into_unknown_table_reads_block SampleBatch.noZone SampleLines.dataConv
           SampleBatch.copyCart SampleBatch.cartRel "cart" SampleLines.block
           [SampleLines.line; SampleLines.crLine] ("\." +:+ String LF EmptyString)
           ["COMMIT;"]); try reflexivity.
  by repeat constructor.
Defined.


(** ** INSERT statements *)

Lemma diagnosticsOnly_badRows t us : diagnosticsOnly us → badRowsCounted t us = 0%nat.
Proof.
  unfold badRowsCounted. induction 1 as [|c us Hc _ IH]; [done|].
  cbn [List.filter]. by destruct c.
Qed.

Lemma badRowsCounted_app t cs1 cs2 :
  badRowsCounted t (cs1 ++ cs2) = (badRowsCounted t cs1 + badRowsCounted t cs2)%nat.
Proof. unfold badRowsCounted. by rewrite List.filter_app, length_app. Qed.

(** X20.  An INSERT into a table of the source schema is tallied before
    anything of it is looked at: whenever [processInsertStmt] returns, it has
    counted exactly one row for the table, in both modes, also when the
    statement turns out to have a column list it cannot read or no VALUES
    part.  A bad row is counted exactly when the column list cannot be read.
    Rows are returned for the driver only in data mode and only for a
    statement with a readable column list and a VALUES part; they are then
    the rows of the VALUES lists in order.  The call panics exactly when the
    column list can be read and the statement has no SELECT part at all.  The
    schema is never changed. *)
Theorem processInsertStmt_tallies_every_insert conv n rel tbl t :
  InsertRelation n = Some rel →
  getTableName rel = inl tbl →
  SrcSchema conv !! tbl = Some t →
  (processInsertStmt conv n = Panics ↔
   (∃ names, getCols (Cols n) [] = inl names) ∧ SelectStmt n = None)
  ∧ (∀ conv' ci,
       processInsertStmt conv n = Returns (conv', ci) →
       SrcSchema conv' = SrcSchema conv
       ∧ rowsCounted tbl (calls conv') = S (rowsCounted tbl (calls conv))
       ∧ badRowsCounted tbl (calls conv') =
           (badRowsCounted tbl (calls conv)
            + match getCols (Cols n) [] with inr _ => 1 | inl _ => 0 end)%nat
       ∧ ci = match getCols (Cols n) [], SelectStmt n with
              | inl names, Some (Node_SelectStmt vls) =>
                  if DataMode conv
                  then Some (mkCopyOrInsert insert tbl names (map rowOf vls))
                  else None
              | _, _ => None
              end).
Proof.
  intros Hrel Htbl Ht. unfold processInsertStmt. rewrite Hrel, Htbl, Ht.
  assert (Hrow : rowsCounted tbl [CallStatsAddRow tbl (SchemaMode conv)] = 1%nat).
  { unfold rowsCounted. cbn. by rewrite bool_decide_eq_true_2. }
  assert (Hbad : badRowsCounted tbl [CallStatsAddBadRow tbl (SchemaMode conv)] = 1%nat).
  { unfold badRowsCounted. cbn. by rewrite bool_decide_eq_true_2. }
  assert (Htally : ∀ conv' log k,
            calls conv' = (calls conv ++ [CallStatsAddRow tbl (SchemaMode conv)]) ++ log →
            rowsCounted tbl log = 0%nat → badRowsCounted tbl log = k →
            rowsCounted tbl (calls conv') = S (rowsCounted tbl (calls conv))
            ∧ badRowsCounted tbl (calls conv') = (badRowsCounted tbl (calls conv) + k)%nat).
  { intros conv' log k -> Hr Hb.
    rewrite !rowsCounted_app, !badRowsCounted_app, Hrow, Hr, Hb.
    change (badRowsCounted tbl [CallStatsAddRow tbl (SchemaMode conv)]) with 0%nat.
    lia. }
  destruct (getCols (Cols n) []) as [names|err].
  - destruct (SelectStmt n) as [sel|].
    2: { split; [|done]. split; [intros _; split; [by eexists|done]|done]. }
    split; [split; [by destruct sel; try destruct (getRows _ _ _); try destruct (DataMode _)
                   |by intros [_ ?]]|].
    intros conv' ci.
    destruct sel as [?|?|?|?|?|? ?|?|?|?|vls|?];
      try (intros [= <- <-]; split; [done|];
           match goal with
           | |- rowsCounted _ (calls (Unexpected ?u ?c)) = _ ∧ _ =>
               destruct (Htally (Unexpected u c) [CallUnexpected u] 0%nat
                           eq_refl eq_refl eq_refl) as [Hr Hb]
           end;
           done).
    destruct (getRows_run (StatsAddRow tbl (SchemaMode conv) conv) vls [])
      as (us & Hus & Hrows).
    rewrite Hrows, getRows_spec. cbn [app].
    change (DataMode (DataStatement ?s (logCalls ?us (StatsAddRow ?t ?b ?c))))
      with (DataMode c).
    intros Hrun.
    assert (Hconv : conv' = DataStatement "SelectStmt"
                              (logCalls us (StatsAddRow tbl (SchemaMode conv) conv))
                    ∧ ci = if DataMode conv
                           then Some (mkCopyOrInsert insert tbl names (map rowOf vls))
                           else None).
    { by destruct (DataMode conv); injection Hrun as <- <-. }
    destruct Hconv as [-> ->]. split; [done|].
    destruct (Htally (DataStatement "SelectStmt"
                        (logCalls us (StatsAddRow tbl (SchemaMode conv) conv)))
                (us ++ [CallDataStatement "SelectStmt"]) 0%nat) as [Hr Hb].
    + unfold_calls. by rewrite <- !app_assoc.
    + by rewrite rowsCounted_app, (diagnosticsOnly_rowsCounted _ _ Hus).
    + by rewrite badRowsCounted_app, (diagnosticsOnly_badRows _ _ Hus).
    + done.
  - split; [split; [done|by intros [[? ?] _]]|].
    intros conv' ci [= <- <-]. split; [done|].
    destruct (Htally (StatsAddBadRow tbl (SchemaMode conv)
                        (logStmtError "InsertStmt" ("can't get col name: " +:+ err)
                           (StatsAddRow tbl (SchemaMode conv) conv)))
                [CallUnexpected ("Processing " +:+ "InsertStmt" +:+ " statement: " +:+
                                 ("can't get col name: " +:+ err));
                 CallErrorInStatement "InsertStmt";
                 CallStatsAddBadRow tbl (SchemaMode conv)] 1%nat) as [Hr Hb].
    + unfold_calls. by rewrite <- !app_assoc.
    + done.
    + unfold badRowsCounted. cbn. by rewrite bool_decide_eq_true_2.
    + done.
Qed.

Lemma processInsertStmt_tallies_every_insert_witness :
  processInsertStmt Sample.conv0 SampleInsert.defaultValues = Panics
  ∧ ∃ conv',
      processInsertStmt Sample.conv0 SampleInsert.badColumns = Returns (conv', None)
      ∧ rowsCounted "cart" (calls conv') = 1%nat
      ∧ badRowsCounted "cart" (calls conv') = 1%nat.
Proof.
  split.
  - apply (proj1 (processInsertStmt_tallies_every_insert Sample.conv0
                    SampleInsert.defaultValues SampleBatch.cartRel "cart" Sample.cart
                    eq_refl eq_refl eq_refl)).
    split; [by eexists|done].
  - eexists. split; [reflexivity|].
    destruct (proj2 (processInsertStmt_tallies_every_insert Sample.conv0
                       SampleInsert.badColumns SampleBatch.cartRel "cart" Sample.cart
                       eq_refl eq_refl eq_refl) _ _ eq_refl) as (_ & Hrows & Hbad & _).
    split; [exact Hrows|exact Hbad].
Defined.


(** ** Well-formed schemas and complete parse trees *)

Lemma wellFormedSchema_keeps conv conv' :
  SrcSchema conv' = SrcSchema conv → wellFormedSchema conv → wellFormedSchema conv'.
Proof. unfold wellFormedSchema. by intros ->. Qed.

Lemma wellFormedSchema_insert conv conv' table t :
  SrcSchema conv' = <[table := t]> (SrcSchema conv) →
  wellFormedTable table t → wellFormedSchema conv → wellFormedSchema conv'.
Proof.
  unfold wellFormedSchema. intros -> Ht Hwf k t'.
  destruct (decide (table = k)) as [->|Hne].
  - rewrite lookup_insert_eq. by intros [= <-].
  - rewrite lookup_insert_ne by done. apply Hwf.
Qed.

Lemma extractConstraints_complete stmtType table l : ∀ conv cs0,
  forallb completeConstraint l = true →
  extractConstraints conv stmtType table l cs0 ≠ Panics.
Proof.
  induction l as [|i l IH]; intros conv cs0; [done|].
  cbn [forallb]. intros [Hi Hl]%andb_true_iff.
  destruct i as [?|?|?|?|?|? ?|c|?|?|?|?]; cbn [extractConstraints]; try by apply IH.
  cbn [completeConstraint] in Hi.
  destruct (Contype c);
    try (destruct (collectKeys _ _ _ (Keys c) _); by apply IH).
  destruct (Pktable c) as [pk|]; [|done].
  destruct (getTableName pk); [|by apply IH].
  destruct (collectKeys _ _ _ (FkAttrs c) _).
  destruct (collectKeys _ _ _ (PkAttrs c) _). by apply IH.
Qed.

Lemma extractConstraints_returns stmtType table l :
  forallb completeConstraint l = true →
  ∃ cs v,
    (∀ conv cs0,
       extractConstraints conv stmtType table l cs0 = Returns (logCalls cs conv, cs0 ++ v))
    ∧ Forall (λ c, isProblem c = true) cs.
Proof.
  intros Hl. destruct (extractConstraints_logs stmtType table l) as (r & Hr & Hfacts).
  destruct r as [[cs v]|].
  - exists cs, v. by destruct Hfacts.
  - by destruct (extractConstraints_complete stmtType table l (emptyConv schemaOnly) []
                   Hl (Hr _ _)).
Qed.

Lemma processColumn_complete conv cd table :
  completeColumn cd = true → processColumn conv cd table ≠ Panics.
Proof.
  unfold completeColumn, processColumn. intros [Hty Hcs]%andb_true_iff.
  destruct (ColTypeName cd) as [tn|]; [|done].
  destruct (getTypeMods _ _ _). case_decide; [done|].
  destruct (getTypeID _); [|done]. destruct (getArrayBounds _ _ _).
  unfold analyzeColDefConstraints.
  destruct (extractConstraints_returns "ColumnDef" table (Constraints cd) Hcs)
    as (cs & v & -> & _).
  done.
Qed.

Lemma processCreateStmt_elts_complete table elts :
  forallb completeElt elts = true →
  ∀ conv colNames colDef constraints,
    processCreateStmt_elts conv table elts colNames colDef constraints ≠ Panics.
Proof.
  induction elts as [|te elts IH]; [done|].
  cbn [forallb]. intros [Hte Helts]%andb_true_iff conv colNames colDef constraints.
  specialize (IH Helts).
  destruct te as [?|?|?|?|?|? ?|c|cd|?|?|?]; cbn [processCreateStmt_elts]; try apply IH.
  - destruct (extractConstraints_returns "CreateStmt" table [Node_Constraint c])
      as (cs & v & -> & _).
    + cbn [forallb]. cbn [completeElt] in Hte. by rewrite Hte.
    + cbn [obind]. apply IH.
  - pose proof (processColumn_complete conv cd table Hte) as Hcol.
    destruct (processColumn conv cd table) as [[conv1 res]|]; [|done].
    cbn [obind fst snd]. destruct res as [[[nm col] cns]|err]; [apply IH|done].
Qed.

(** On a well-formed schema [updateSchema] returns, and the schema stays
    well formed. *)
Lemma updateSchema_wellFormed conv table t cs stmtType :
  wellFormedSchema conv →
  SrcSchema conv !! table = Some t →
  ∃ conv',
    updateSchema conv table cs stmtType = Returns conv' ∧ wellFormedSchema conv'.
Proof.
  intros Hwf Ht. destruct (Hwf _ _ Ht) as (Hname & m & Hm & Hcols).
  destruct (updateSchema_known cs conv table t m stmtType Ht Hm)
    as (conv' & m' & diag & Hrun & Hsch & Hcol & Hdom & _).
  exists conv'. split; [done|].
  eapply wellFormedSchema_insert; [exact Hsch| |exact Hwf].
  split; [done|]. exists m'. split; [done|]. cbn [schema.ColNames].
  intros c Hc. destruct (Hcols c Hc) as (col & Hk & Hcn).
  assert (Hsome : is_Some (m' !! c)) by (apply Hdom; left; by rewrite Hk).
  destruct Hsome as [col' Hk']. exists col'. split; [done|].
  specialize (Hcol c). cbn [schema.colDefAt] in Hcol. rewrite Hk, Hk' in Hcol.
  cbn [from_option id] in Hcol. subst col'.
  by destruct (markCol_spec cs c col) as (-> & _).
Qed.

Lemma processAlterTableCmds_wellFormed cmds : ∀ conv table,
  wellFormedSchema conv →
  is_Some (SrcSchema conv !! table) →
  forallb completeCmd cmds = true →
  ∃ conv',
    processAlterTableCmds conv table cmds = Returns conv' ∧ wellFormedSchema conv'.
Proof.
  induction cmds as [|i cmds IH]; intros conv table Hwf Hknown; [by exists conv|].
  cbn [forallb]. intros [Hi Hcmds]%andb_true_iff.
  assert (Hstep : ∃ conv1,
            processAlterTableCmd conv table i = Returns conv1
            ∧ wellFormedSchema conv1 ∧ is_Some (SrcSchema conv1 !! table)).
  { assert (Hskip : ∀ s, ∃ conv1,
              Returns (SkipStatement s conv) = Returns conv1
              ∧ wellFormedSchema conv1 ∧ is_Some (SrcSchema conv1 !! table))
      by (intros s; by eexists).
    assert (Hupd : ∀ base cs s,
              SrcSchema base = SrcSchema conv →
              ∃ conv1,
                (c <-! updateSchema base table cs "ALTER TABLE" ;;
                 Returns (SchemaStatement s c)) = Returns conv1
                ∧ wellFormedSchema conv1 ∧ is_Some (SrcSchema conv1 !! table)).
    { intros base cs s Hbase. destruct Hknown as [t Ht].
      destruct (updateSchema_wellFormed base table t cs "ALTER TABLE")
        as (conv1 & Hrun & Hwf1).
      - by eapply wellFormedSchema_keeps.
      - by rewrite Hbase.
      - rewrite Hrun. cbn [obind]. eexists. split; [done|]. split; [done|].
        destruct (updateSchema_frame _ _ _ _ _ Hrun) as (_ & _ & _ & _ & _ & Hs).
        apply Hs. rewrite Hbase, Ht. by eexists. }
    destruct i as [?|?|?|?|?|? ?|?|?|a|?|?]; cbn [processAlterTableCmd];
      try apply Hskip.
    cbn [completeCmd] in Hi.
    destruct (Subtype a), (Def a) as [def|]; try apply Hskip.
    - case_decide; [by apply Hupd|apply Hskip].
    - case_decide; [by apply Hupd|apply Hskip].
    - destruct def; try apply Hskip.
      destruct (extractConstraints_returns "AlterTableStmt" table [Node_Constraint c])
        as (cs & v & -> & _).
      + cbn [forallb]. by rewrite Hi.
      + cbn [obind fst snd]. by apply Hupd. }
  destruct Hstep as (conv1 & Hrun1 & Hwf1 & Hknown1).
  destruct (IH conv1 table Hwf1 Hknown1 Hcmds) as (conv' & Hrun & Hwf').
  exists conv'. cbn [processAlterTableCmds]. rewrite Hrun1. by cbn [obind].
Qed.

Lemma processAlterTableStmt_wellFormed conv n :
  wellFormedSchema conv →
  forallb completeCmd (Cmds n) = true →
  ∃ conv', processAlterTableStmt conv n = Returns conv' ∧ wellFormedSchema conv'.
Proof.
  intros Hwf Hcmds. unfold processAlterTableStmt.
  destruct (AlterRelation n) as [rel|]; [destruct (getTableName rel) as [table|err]|];
    [destruct (SrcSchema conv !! table) as [t|] eqn:Ht| |]; try (by eexists).
  apply processAlterTableCmds_wellFormed; [done| |done]. rewrite Ht. by eexists.
Qed.

Lemma processCreateStmt_wellFormed conv n :
  wellFormedSchema conv →
  forallb completeElt (TableElts n) = true →
  ∃ conv', processCreateStmt conv n = Returns conv' ∧ wellFormedSchema conv'.
Proof.
  intros Hwf Helts. unfold processCreateStmt.
  destruct (CreateRelation n) as [rel|]; [destruct (getTableName rel) as [table|err]|];
    try (by eexists).
  case_decide; [by eexists|].
  destruct (processCreateStmt_elts_logs table (TableElts n)) as (r & Hr & Hfacts).
  pose proof (processCreateStmt_elts_complete table (TableElts n) Helts conv [] ∅ [])
    as Hreturns.
  rewrite Hr in Hreturns |- *. destruct r as [[cs [[defs cns]|]]|]; [| |done].
  - destruct Hfacts as (_ & _ & Hnames & Hdefs). cbn [obind fst snd app].
    eapply updateSchema_wellFormed.
    + eapply wellFormedSchema_insert; [reflexivity| |exact Hwf].
      split; [done|]. eexists. split; [reflexivity|]. cbn [schema.ColNames].
      intros c Hc. destruct (storeColumns_spec defs ∅) as [Hdom Hname].
      assert (Hsome : is_Some (storeColumns defs ∅ !! c)) by (apply Hdom; by right).
      destruct Hsome as [col Hk]. exists col. split; [done|].
      apply (Hname ltac:(by intros ? ? ?%lookup_empty_Some) Hdefs c col Hk).
    + cbn. by rewrite lookup_insert_eq.
  - cbn [obind fst snd]. by eexists.
Qed.

Lemma processIndexStmt_wellFormed conv n :
  wellFormedSchema conv → wellFormedSchema (processIndexStmt conv n).
Proof.
  intros Hwf. unfold processIndexStmt.
  destruct (IndexRelation n) as [rel|]; [destruct (getTableName rel) as [table|err]|];
    [destruct (SrcSchema conv !! table) as [t|] eqn:Ht| |]; try done.
  rewrite toIndexKeys_spec.
  eapply wellFormedSchema_insert; [reflexivity| |exact Hwf].
  destruct (Hwf _ _ Ht) as (Hname & m & Hm & Hcols). split; [done|]. by exists m.
Qed.

Section Robustness.

Variable LoadLocation : string -> errorOr Location.
Variable Parse : string -> option (list RawStmt).

Lemma processVariableSetStmt_keeps conv n :
  SrcSchema (processVariableSetStmt LoadLocation conv n) = SrcSchema conv.
Proof.
  unfold processVariableSetStmt. case_decide; [|done].
  destruct (Args n) as [|arg [|? ?]]; try done.
  destruct arg as [?|?|val|?|?|? ?|?|?|?|?|?]; try done.
  destruct (getString val) as [tz|err]; [|done]. by destruct (LoadLocation tz).
Qed.

Lemma processStatements_wellFormed stmts : ∀ conv,
  wellFormedSchema conv →
  forallb completeStmt stmts = true →
  ∃ conv' ci,
    processStatements LoadLocation conv stmts = Returns (conv', ci)
    ∧ wellFormedSchema conv'.
Proof.
  induction stmts as [|s rest IH]; intros conv Hwf; [by eexists _, _|].
  cbn [forallb]. intros [Hs Hrest]%andb_true_iff.
  destruct s as [n|n|n|n|n|n|ty]; cbn [processStatements completeStmt] in *.
  - destruct (SchemaMode conv); [|by apply IH].
    destruct (processAlterTableStmt_wellFormed conv n Hwf Hs) as (conv1 & -> & Hwf1).
    cbn [obind]. by apply IH.
  - destruct (processCopyStmt_modes
                match rest with
                | [] => conv
                | _ :: _ =>
                    ErrorInStatement "CopyStmt"
                      (Unexpected ("CopyFrom is not the last statement in batch: " +:+
                                   "ignoring following statements") conv)
                end n) as ([Hsch _] & _).
    destruct (processCopyStmt _ n) as [conv1 ci1]. eexists _, _. split; [done|].
    eapply wellFormedSchema_keeps; [|exact Hwf]. cbn [fst] in Hsch. rewrite Hsch.
    by destruct rest.
  - destruct (SchemaMode conv); [|by apply IH].
    destruct (processCreateStmt_wellFormed conv n Hwf Hs) as (conv1 & -> & Hwf1).
    cbn [obind]. by apply IH.
  - assert (Hsel : SelectStmt n ≠ None) by (by destruct (SelectStmt n)).
    pose proof (processInsertStmt_complete conv n Hsel) as Hret.
    destruct (processInsertStmt conv n) as [[conv1 ci1]|] eqn:Hrun; [|done].
    eexists _, _. split; [done|].
    destruct (processInsertStmt_modes _ _ _ _ Hrun) as ([Hsch _] & _).
    by eapply wellFormedSchema_keeps.
  - destruct (SchemaMode conv); [|by apply IH]. apply IH; [|done].
    eapply wellFormedSchema_keeps; [apply processVariableSetStmt_keeps|done].
  - destruct (SchemaMode conv); [|by apply IH]. apply IH; [|done].
    by apply processIndexStmt_wellFormed.
  - by apply IH.
Qed.

Lemma processPgDump_loop_wellFormed fuel : ∀ conv r res,
  (∀ s stmts, Parse s = Some stmts → forallb completeStmt stmts = true) →
  wellFormedSchema conv →
  processPgDump_loop LoadLocation Parse fuel conv r = Some res →
  match res with
  | Finished conv' _ | Failed conv' _ _ => wellFormedSchema conv'
  | Crashed => False
  end.
Proof.
  induction fuel as [|fuel IH]; intros conv r res Hparse Hwf Hrun; [done|].
  cbn [processPgDump_loop] in Hrun.
  destruct (readAndParseChunk_loop_spec Parse (S (length (pending r))) conv r [])
    as (conv1 & r1 & ch & k & reads & Hchunk & _ & _ & _ & Hsch1 & _ & Hch); [lia|].
  unfold readAndParseChunk in Hrun. rewrite Hchunk in Hrun.
  assert (Hwf1 : wellFormedSchema conv1) by (by eapply wellFormedSchema_keeps).
  destruct ch as [b stmts|err]; [|by injection Hrun as <-].
  destruct Hch as [_ Hstmts].
  destruct (processStatements_wellFormed stmts conv1 Hwf1 (Hparse _ _ Hstmts))
    as (conv2 & ci & Hrun2 & Hwf2).
  rewrite Hrun2 in Hrun.
  match type of Hrun with
  | context [processCopyOrInsert ?c ci r1] => set (conv3 := c) in Hrun
  end.
  destruct (processCopyOrInsert conv3 ci r1) as [[conv4 r4]|] eqn:Hci; [|done].
  destruct (processCopyOrInsert_modes _ _ _ _ _ Hci) as [[Hsch4 _] _].
  assert (Hwf4 : wellFormedSchema conv4).
  { eapply wellFormedSchema_keeps; [|exact Hwf2]. by rewrite Hsch4. }
  destruct (EOF r4); [by injection Hrun as <-|]. by eapply IH.
Qed.

(** X21.  Well-formedness of the source schema is an invariant of the
    processor, and on a well-formed schema the processor panics only on a
    parse tree that lacks a part.  A schema is well formed when every table
    is stored under its own name, with an allocated column map in which
    every listed column has a definition of its own name; a tree is complete
    when every foreign key has its referenced table, every column definition
    its type and every INSERT its SELECT part (the entries of its node lists
    being nodes, never nil).  From a well-formed schema,
    the empty one in particular, a batch of complete statements is processed
    without panic and leaves the schema well formed; and a run of
    [processPgDump] over a dump whose statements all parse to complete trees
    ends finished or at a parse error, never in a panic, with a well-formed
    schema. *)
Theorem processPgDump_keeps_schema_well_formed conv :
  wellFormedSchema conv →
  (∀ stmts, forallb completeStmt stmts = true →
     ∃ conv' ci,
       processStatements LoadLocation conv stmts = Returns (conv', ci)
       ∧ wellFormedSchema conv')
  ∧ ((∀ s stmts, Parse s = Some stmts → forallb completeStmt stmts = true) →
     ∀ r, ∃ res,
       processPgDump LoadLocation Parse conv r = Some res
       ∧ match res with
         | Finished conv' _ | Failed conv' _ _ => wellFormedSchema conv'
         | Crashed => False
         end).
Proof.
  intros Hwf. split.
  - intros stmts Hstmts. by apply processStatements_wellFormed.
  - intros Hparse r.
    destruct (processPgDump_total LoadLocation Parse conv r) as [res Hrun].
    exists res. split; [done|].
    by apply (processPgDump_loop_wellFormed _ _ _ _ Hparse Hwf Hrun).
Qed.

End Robustness.

Lemma processPgDump_keeps_schema_well_formed_witness :
  ∃ conv' ci,
    processStatements SampleBatch.noZone (emptyConv schemaOnly)
      [Node_CreateStmt SampleCreate.createCart;
       Node_AlterTableStmt SampleAlter.alterCart;
       Node_IndexStmt SampleIndex.byQty] = Returns (conv', ci)
    ∧ wellFormedSchema conv'.
Proof.
  apply (proj1 (processPgDump_keeps_schema_well_formed SampleBatch.noZone
                  SampleDump.parse (emptyConv schemaOnly)
                  ltac:(intros k t H; destruct (lookup_empty_Some k t H)))
           [Node_CreateStmt SampleCreate.createCart;
            Node_AlterTableStmt SampleAlter.alterCart;
            Node_IndexStmt SampleIndex.byQty]).
  reflexivity.
Defined.


(** ** Column definitions *)

Lemma getTypeMods_values t : ∀ conv l,
  ∃ us,
    getTypeMods conv t l = (logCalls us conv, l ++ omap typeMod t)
    ∧ diagnosticsOnly us
    ∧ (length us + length (omap typeMod t) = length t)%nat.
Proof.
  induction t as [|x t IH]; intros conv l.
  - exists []. cbn [getTypeMods omap list_omap]. rewrite logCalls_nil, app_nil_r.
    split; [done|]. split; [constructor|done].
  - assert (Hdrop : ∀ u,
              typeMod x = None →
              getTypeMods conv (x :: t) l = getTypeMods (Unexpected u conv) t l →
              ∃ us,
                getTypeMods conv (x :: t) l = (logCalls us conv, l ++ omap typeMod (x :: t))
                ∧ diagnosticsOnly us
                ∧ (length us + length (omap typeMod (x :: t)) = length (x :: t))%nat).
    { intros u Hx ->. destruct (IH (Unexpected u conv) l) as (us & -> & Hus & Hlen).
      exists (CallUnexpected u :: us). cbn [omap list_omap]. rewrite Hx.
      unfold Unexpected. rewrite call_logCalls, logCalls_app.
      split; [done|]. split; [by constructor|]. simpl in *. lia. }
    destruct x as [?|?|val|?|?|? ?|?|?|?|?|?]; try (by eapply Hdrop).
    destruct val as [?|i|?|?|?|? ?|?|?|?|?|?]; try (by eapply Hdrop).
    cbn [getTypeMods omap list_omap typeMod].
    destruct (IH conv (l ++ [i])) as (us & -> & Hus & Hlen).
    exists us. rewrite <- app_assoc. split; [done|]. split; [done|]. simpl in *. lia.
Qed.

Lemma getArrayBounds_values t : ∀ conv l,
  ∃ us,
    getArrayBounds conv t l = (logCalls us conv, l ++ omap arrayBound t)
    ∧ diagnosticsOnly us
    ∧ (length us + length (omap arrayBound t) = length t)%nat.
Proof.
  induction t as [|x t IH]; intros conv l.
  - exists []. cbn [getArrayBounds omap list_omap]. rewrite logCalls_nil, app_nil_r.
    split; [done|]. split; [constructor|done].
  - destruct x as [?|i|?|?|?|? ?|?|?|?|?|?]; cbn [getArrayBounds omap list_omap arrayBound];
      try (destruct (IH (Unexpected ("Found " +:+ printNodeType_Node +:+
                                     " node while processing ArrayBounds") conv) l)
             as (us & -> & Hus & Hlen);
           eexists (_ :: us); unfold Unexpected; rewrite call_logCalls, logCalls_app;
           split; [done|]; split; [by constructor|]; simpl in *; lia).
    destruct (IH conv (l ++ [i])) as (us & -> & Hus & Hlen).
    exists us. rewrite <- app_assoc. split; [done|]. split; [done|]. simpl in *. lia.
Qed.

(** X22.  What [processColumn] makes of a column definition that has a type,
    whenever it returns: the schema is not touched; the definition is
    refused exactly when its name is empty or its type has no id; otherwise
    the column carries the definition's name, the type id, the integer
    constants among the type modifiers and the integers among the array
    bounds, each in order (what else stands there is left out), and it is
    neither marked not-null nor given an ignored default, whatever the
    constraints in the definition: these are returned beside it, each for
    this column alone. *)
Theorem processColumn_builds_column conv n table tn conv' res :
  ColTypeName n = Some tn →
  processColumn conv n table = Returns (conv', res) →
  SrcSchema conv' = SrcSchema conv
  ∧ match res with
    | inl (name, col, cns) =>
        Colname n ≠ EmptyString
        ∧ name = Colname n
        ∧ (∃ tid,
             getTypeID (Names tn) = inl tid
             ∧ col = schema.mkColumn (Colname n)
                       (schema.mkType tid (omap typeMod (Typmods tn))
                          (omap arrayBound (ArrayBounds tn)))
                       false false)
        ∧ Forall (λ c, cols c = [Colname n]) cns
    | inr _ =>
        Colname n = EmptyString ∨ ∃ err, getTypeID (Names tn) = inr err
    end.
Proof.
  intros Htn. unfold processColumn. rewrite Htn.
  destruct (getTypeMods_values (Typmods tn) conv []) as (ms & -> & _ & _).
  case_decide as Hname.
  { intros [= <- <-]. split; [done|by left]. }
  destruct (getTypeID (Names tn)) as [tid|err] eqn:Htid.
  2: { intros [= <- <-]. split; [done|]. right. by exists err. }
  destruct (getArrayBounds_values (ArrayBounds tn) (logCalls ms conv) [])
    as (bs & -> & _ & _).
  destruct (analyzeColDefConstraints_logs "ColumnDef" table (Constraints n) (Colname n))
    as (r & Hr & Hfacts).
  rewrite Hr. destruct r as [[cs cns]|]; [|done].
  destruct Hfacts as [_ Hcns]. cbn [logged obind fst snd app].
  intros [= <- <-]. split; [done|]. split; [done|]. split; [done|].
  split; [by exists tid|done].
Qed.

Lemma processColumn_builds_column_witness :
  ∃ conv' cns,
    processColumn Sample.conv0 SampleColumn.price "cart" =
    Returns (conv',
             inl ("price",
                  schema.mkColumn "price" (schema.mkType "numeric" [10; 2] [3])
                    false false,
                  cns))
    ∧ SrcSchema conv' = SrcSchema Sample.conv0
    ∧ Forall (λ c, cols c = ["price"]) cns.
Proof.
  eexists _, _. split; [reflexivity|].
  destruct (processColumn_builds_column Sample.conv0 SampleColumn.price "cart" _ _ _
              eq_refl eq_refl) as (Hsch & _ & _ & _ & Hcns).
  split; [exact Hsch|exact Hcns].
Defined.

(** ** SET statements *)

Section VariableSet.

Variable LoadLocation : string -> errorOr Location.

(** X23.  [processVariableSetStmt] hands to [SetLocation] the location that
    [time.LoadLocation] returns for the zone name of the statement, so that
    an empty name sets what the loader makes of it; it does so exactly when
    the statement sets [timezone] to a single string constant whose zone
    loads.  A statement on another variable, or with no or several
    arguments, leaves the state untouched, and no other statement does: it
    is not even counted.  In every other case exactly one diagnostic and one
    error in statement are recorded: under [AConst], with the loader's
    error, when the zone does not load, and with the node's type when the
    constant is no string; under [Node] when the argument is no constant.
    The schema and the mode are never changed. *)
Theorem processVariableSetStmt_sets_location conv n :
  SrcSchema (processVariableSetStmt LoadLocation conv n) = SrcSchema conv
  ∧ mode (processVariableSetStmt LoadLocation conv n) = mode conv
  ∧ ∃ log,
      calls (processVariableSetStmt LoadLocation conv n) = calls conv ++ log
      ∧ (∀ loc, CallSetLocation loc ∈ log ↔
                VarName n = "timezone"
                ∧ ∃ s, Args n = [Node_AConst (Node_String_ s)]
                       ∧ LoadLocation (trimString s) = inl loc)
      ∧ (log = [] ↔ VarName n ≠ "timezone" ∨ length (Args n) ≠ 1%nat)
      ∧ (VarName n = "timezone" → ∀ arg, Args n = [arg] →
         log =
         match arg with
         | Node_AConst (Node_String_ s) =>
             match LoadLocation (trimString s) with
             | inl loc => [CallSetLocation loc]
             | inr err =>
                 [CallUnexpected ("Processing AConst statement: " +:+ err);
                  CallErrorInStatement "AConst"]
             end
         | Node_AConst val =>
             [CallUnexpected ("Processing AConst statement: can't get Arg: node " +:+
                              printNodeType val +:+ " is a not String node");
              CallErrorInStatement "AConst"]
         | c =>
             [CallUnexpected ("Processing Node statement: found " +:+
                              printNodeType c +:+ " node in Arg");
              CallErrorInStatement "Node"]
         end).
Proof.
  split; [apply processVariableSetStmt_keeps|].
  split; [apply processVariableSetStmt_convertsNoRow|].
  unfold processVariableSetStmt.
  assert (Hnone : ∀ loc, CallSetLocation loc ∈ @nil Call ↔ False)
    by (intros loc; split; [by intros ?%elem_of_nil|done]).
  assert (Hproblem : ∀ loc u ty,
            CallSetLocation loc ∈ [CallUnexpected u; CallErrorInStatement ty] ↔ False).
  { intros loc u ty. split; [|done].
    intros [?|[?|?%elem_of_nil]%elem_of_cons]%elem_of_cons; done. }
  case_decide as Hvar.
  2: { exists []. rewrite app_nil_r. split; [done|]. split.
       - intros loc. rewrite Hnone. split; [done|]. by intros [? _].
       - split; [split; [by left|done]|done]. }
  destruct (Args n) as [|arg [|arg2 args]] eqn:Hargs.
  - exists []. rewrite app_nil_r. split; [done|]. split.
    + intros loc. rewrite Hnone. split; [done|]. by intros (_ & s & ? & _).
    + split; [split; [by right|done]|done].
  - assert (Hbad : ∀ u ty,
              (∀ s, arg ≠ Node_AConst (Node_String_ s)) →
              ∃ log,
                calls (logStmtError ty u conv) = calls conv ++ log
                ∧ log = [CallUnexpected ("Processing " +:+ ty +:+ " statement: " +:+ u);
                         CallErrorInStatement ty]
                ∧ (∀ loc, CallSetLocation loc ∈ log ↔
                          VarName n = "timezone"
                          ∧ ∃ s, [arg] = [Node_AConst (Node_String_ s)]
                                 ∧ LoadLocation (trimString s) = inl loc)
                ∧ (log = [] ↔ VarName n ≠ "timezone" ∨ length [arg] ≠ 1%nat)).
    { intros u ty Harg. eexists [_; _]. unfold_calls. rewrite <- app_assoc.
      split; [done|]. split; [done|]. split.
      - intros loc. rewrite Hproblem. split; [done|].
        intros (_ & s & [= ->] & _). by destruct (Harg s).
      - split; [done|]. by intros [?|?]. }
    destruct arg as [?|?|val|?|?|? ?|?|?|?|?|?];
      try (match goal with
           | |- context [logStmtError ?ty ?u conv] =>
               destruct (Hbad u ty ltac:(done)) as (log & Hcalls & -> & Hset & Hnil)
           end;
           eexists; split; [exact Hcalls|]; split; [exact Hset|]; split; [exact Hnil|];
           by intros _ arg' [= <-]).
    destruct val as [s|?|?|?|?|? ?|?|?|?|?|?]; cbn [getString];
      try (match goal with
           | |- context [logStmtError ?ty ?u conv] =>
               destruct (Hbad u ty ltac:(done)) as (log & Hcalls & -> & Hset & Hnil)
           end;
           eexists; split; [exact Hcalls|]; split; [exact Hset|]; split; [exact Hnil|];
           by intros _ arg' [= <-]).
    cbn [getString]. destruct (LoadLocation (trimString s)) as [loc|err] eqn:Hzone.
    + exists [CallSetLocation loc]. split; [done|]. split; [|split].
      * intros loc'. rewrite list_elem_of_singleton. split.
        -- intros [= ->]. split; [done|]. by exists s.
        -- intros (_ & s' & [= <-] & Hload). congruence.
      * split; [done|]. by intros [?|?].
      * intros _ arg' [= <-]. by rewrite Hzone.
    + eexists [_; _]. unfold_calls. rewrite <- app_assoc. split; [done|].
      split; [|split].
      * intros loc. rewrite Hproblem. split; [done|].
        intros (_ & s' & [= <-] & Hload). congruence.
      * split; [done|]. by intros [?|?].
      * intros _ arg' [= <-]. by rewrite Hzone.
  - exists []. rewrite app_nil_r. split; [done|]. split.
    + intros loc. rewrite Hnone. split; [done|]. by intros (_ & s & ? & _).
    + split; [split; [by right|done]|done].
Qed.

End VariableSet.

Lemma processVariableSetStmt_sets_location_witness :
  calls (processVariableSetStmt SampleBatch.noZone Sample.conv0 SampleColumn.setEmptyZone) =
    [CallSetLocation "UTC"]
  ∧ calls (processVariableSetStmt SampleBatch.noZone Sample.conv0
             SampleColumn.setUnknownZone) =
    [CallUnexpected "Processing AConst statement: unknown time zone Mars/Olympus";
     CallErrorInStatement "AConst"].
Proof.
  split.
  - destruct (processVariableSetStmt_sets_location SampleBatch.noZone Sample.conv0
                SampleColumn.setEmptyZone) as (_ & _ & log & Hcalls & _ & _ & Hlog).
    rewrite Hcalls, (Hlog eq_refl _ eq_refl). reflexivity.
  - destruct (processVariableSetStmt_sets_location SampleBatch.noZone Sample.conv0
                SampleColumn.setUnknownZone) as (_ & _ & log & Hcalls & _ & _ & Hlog).
    rewrite Hcalls, (Hlog eq_refl _ eq_refl). reflexivity.
Defined.


(** ** The table that a CREATE TABLE statement stores *)

Lemma collectKeys_values errType what attrs : ∀ conv acc,
  (collectKeys errType what conv attrs acc).2 = acc ++ omap stringText attrs.
Proof.
  intros conv acc. destruct (collectKeys_logs errType what attrs) as (cs & Hrun & _).
  by rewrite Hrun.
Qed.

Lemma extractConstraints_values stmtType table l : ∀ conv cs0 conv' v,
  extractConstraints conv stmtType table l cs0 = Returns (conv', v) →
  v = cs0 ++ omap constraintOf l.
Proof.
  induction l as [|i l IH]; intros conv cs0 conv' v Hrun.
  - injection Hrun as _ <-. by rewrite app_nil_r.
  - destruct i as [?|?|?|?|?|? ?|c|?|?|?|?];
      cbn [extractConstraints omap list_omap constraintOf] in *;
      try (by apply IH in Hrun).
    unfold plainConstraint.
    destruct (Contype c) eqn:Hty;
      try (pose proof (collectKeys_values
                         (printNodeType_Node +:+ "." +:+ "Constraint") "Constraint"
                         (Keys c) conv []) as Hks;
           destruct (collectKeys _ _ conv (Keys c) []) as [conv1 ks];
           cbn [snd app] in Hks; subst ks;
           apply IH in Hrun; by rewrite Hrun, <- app_assoc).
    destruct (Pktable c) as [pk|]; [|done].
    destruct (getTableName pk) as [t|err]; [|by apply IH in Hrun].
    pose proof (collectKeys_values "Constraint" "Constraint" (FkAttrs c) conv [])
      as Hfs.
    destruct (collectKeys _ _ conv (FkAttrs c) []) as [conv1 fs].
    pose proof (collectKeys_values "Constraint" "Constraint" (PkAttrs c) conv1 [])
      as Hps.
    destruct (collectKeys _ _ conv1 (PkAttrs c) []) as [conv2 ps].
    cbn [snd app] in Hfs, Hps. subst fs ps.
    apply IH in Hrun. by rewrite Hrun, <- app_assoc.
Qed.

Lemma processColumn_value conv cd table conv' nm col cns :
  processColumn conv cd table = Returns (conv', inl (nm, col, cns)) →
  nm = Colname cd ∧ col = columnOf cd ∧ cns = columnConstraints cd.
Proof.
  unfold processColumn, columnOf, columnConstraints.
  destruct (ColTypeName cd) as [tn|]; [|done].
  destruct (getTypeMods_values (Typmods tn) conv []) as (ms & -> & _ & _).
  case_decide as Hname; [done|].
  destruct (getTypeID (Names tn)) as [tid|err] eqn:Htid; [|done].
  destruct (getArrayBounds_values (ArrayBounds tn) (logCalls ms conv) [])
    as (bs & -> & _ & _).
  unfold analyzeColDefConstraints.
  destruct (extractConstraints _ "ColumnDef" table (Constraints cd) [])
    as [[conv1 extracted]|] eqn:Hext; [|done].
  apply extractConstraints_values in Hext. cbn [app] in Hext. subst extracted.
  cbn [obind fst snd].
  destruct (analyzeColDefConstraints_loop_spec (omap constraintOf (Constraints cd))
              (Colname cd)) as (us & -> & _).
  cbn [fst snd app]. by intros [= _ <- <- <-].
Qed.

Lemma processCreateStmt_elts_values table elts :
  ∀ conv colNames colDef constraints conv' names defs cns,
    processCreateStmt_elts conv table elts colNames colDef constraints =
      Returns (conv', Some (names, defs, cns)) →
    names = colNames ++ map Colname (columnDefs elts)
    ∧ defs = storeColumns (tableColumns elts) colDef
    ∧ cns = constraints ++ tableConstraints elts.
Proof.
  induction elts as [|te elts IH];
    intros conv colNames colDef constraints conv' names defs cns Hrun.
  - injection Hrun as _ <- <- <-. by rewrite !app_nil_r.
  - destruct te as [?|?|?|?|?|? ?|c|cd|?|?|?]; cbn [processCreateStmt_elts] in Hrun;
      try (apply IH in Hrun as (-> & -> & ->); by repeat split).
    + destruct (extractConstraints conv "CreateStmt" table [Node_Constraint c] [])
        as [[conv1 v]|] eqn:Hext; [|done].
      apply extractConstraints_values in Hext. cbn [app omap list_omap] in Hext.
      cbn [obind fst snd] in Hrun. apply IH in Hrun as (-> & -> & ->).
      split; [done|]. split; [done|].
      unfold tableConstraints. cbn [flat_map]. by rewrite Hext, <- app_assoc.
    + destruct (processColumn conv cd table) as [[conv1 res]|] eqn:Hcol; [|done].
      cbn [obind fst snd] in Hrun. destruct res as [[[nm col] cns0]|err]; [|done].
      apply processColumn_value in Hcol as (-> & -> & ->).
      apply IH in Hrun as (-> & -> & ->).
      unfold tableColumns, tableConstraints.
      change (columnDefs (Node_ColumnDef cd :: elts)) with (cd :: columnDefs elts).
      cbn [map flat_map storeColumns fold_left fst snd].
      by rewrite <- !app_assoc.
Qed.

Lemma updateSchema_entries cs (m m' : gmap string schema.Column) :
  (∀ k, schema.colDefAt (Some m') k = markCol cs k (schema.colDefAt (Some m) k)) →
  (∀ k, is_Some (m' !! k) ↔ is_Some (m !! k) ∨ ∃ c, c ∈ cs ∧ k ∈ touched c) →
  ∀ k, m' !! k = markedEntry cs m k.
Proof.
  intros Hcol Hdom k. unfold markedEntry. specialize (Hcol k). specialize (Hdom k).
  cbn [schema.colDefAt] in Hcol.
  destruct (m !! k) as [col|] eqn:Hk.
  - assert (Hsome : is_Some (m' !! k)) by (apply Hdom; by left).
    destruct Hsome as [col' Hk']. rewrite Hk' in Hcol |- *.
    cbn [from_option id] in Hcol. by subst col'.
  - destruct (existsb _ cs) eqn:Hex.
    + apply existsb_exists in Hex as (c & Hc & Hin).
      apply bool_decide_eq_true in Hin.
      assert (Hsome : is_Some (m' !! k)).
      { apply Hdom. right. exists c. split; [by apply list_elem_of_In|done]. }
      destruct Hsome as [col' Hk']. rewrite Hk' in Hcol |- *.
      cbn [from_option id] in Hcol. by subst col'.
    + apply eq_None_not_Some. rewrite Hdom. intros [Hsome|(c & Hc & Hin)].
      * by apply is_Some_None in Hsome.
      * assert (Hex' : existsb (λ c, bool_decide (k ∈ touched c)) cs = true).
        { apply existsb_exists. exists c. split; [by apply list_elem_of_In|].
          by apply bool_decide_eq_true. }
        congruence.
Qed.

(** X14.  A CREATE TABLE statement (with a table name and without inherited
    tables) that [processCreateStmt] gets through either stores the table or
    leaves the schema as it was.  It stores the table when every column
    definition has a name and a type id, and the table stored is the one
    the statement describes and nothing else: under the table's name, with
    the columns of the statement in the order of their definitions; with
    the keys that the constraints of the statement give, those of the
    column definitions and those of the table in the order written (the
    last primary key, the foreign keys, the unique constraints as indexes);
    and with a column map that holds, for every name, the last definition of
    that name in the statement marked by these constraints, a blank marked
    entry for a name that only a constraint lists, and no entry otherwise.
    So nothing of an earlier table of the same name is left.  The statement
    is counted as one schema statement.  Otherwise the statement is
    abandoned at the first column that cannot be taken: the schema is
    unchanged, the log ends with the diagnostic and the error in statement,
    and the statement is counted neither as schema statement nor as
    skipped.  No other table changes, and the mode stays. *)
Theorem processCreateStmt_stores_columns conv n rel table conv' :
  CreateRelation n = Some rel →
  getTableName rel = inl table →
  InhRelations n = [] →
  processCreateStmt conv n = Returns conv' →
  ∃ log,
    calls conv' = calls conv ++ log
    ∧ mode conv' = mode conv
    ∧ if forallb wellFormed (columnDefs (TableElts n))
      then
        ∃ m,
          SrcSchema conv' =
            <[table :=
                schema.mkTable table (map Colname (columnDefs (TableElts n))) (Some m)
                  (lastPrimaryKey [] (tableConstraints (TableElts n)))
                  (map toForeignKeys
                     (List.filter isForeign (tableConstraints (TableElts n))))
                  (map uniqueIndex
                     (List.filter isUnique (tableConstraints (TableElts n))))]>
              (SrcSchema conv)
          ∧ (∀ k, m !! k =
                  markedEntry (tableConstraints (TableElts n))
                    (storeColumns (tableColumns (TableElts n)) ∅) k)
          ∧ (∀ k, k ∈ map Colname (columnDefs (TableElts n)) →
               ∃ col, m !! k = Some col ∧ schema.ColName col = k)
          ∧ List.filter isSchemaOrSkip log = [CallSchemaStatement "CreateStmt"]
      else
        SrcSchema conv' = SrcSchema conv
        ∧ List.filter isSchemaOrSkip log = []
        ∧ ∃ log0 u,
            log = log0 ++ [CallUnexpected u; CallErrorInStatement "CreateStmt"].
Proof.
  intros Hrel Htable Hinh. unfold processCreateStmt.
  rewrite Hrel, Htable, Hinh. cbn [length]. rewrite decide_False by lia.
  destruct (processCreateStmt_elts_logs table (TableElts n)) as (r & Hr & Hfacts).
  pose proof (processCreateStmt_elts_values table (TableElts n) conv [] ∅ []) as Hvalues.
  rewrite Hr in Hvalues |- *. destruct r as [[cs [[defs cns]|]]|]; [| |done].
  - destruct Hfacts as (Pcs & -> & Hnames & Hdefs).
    destruct (Hvalues _ _ _ _ eq_refl) as (Hnames' & Hstore & Hcns).
    cbn [app] in Hnames', Hcns, Hstore.
    cbn [obind fst snd app]. rewrite Hnames', Hcns, Hstore.
    set (cns' := tableConstraints (TableElts n)).
    set (m0 := storeColumns (tableColumns (TableElts n)) ∅).
    set (t0 := schema.mkTable table (map Colname (columnDefs (TableElts n))) (Some m0)
                 [] [] []).
    set (conv0 := setSrcTable table t0 (SchemaStatement "CreateStmt" (logCalls cs conv))).
    assert (Ht0 : SrcSchema conv0 !! table = Some t0)
      by (subst conv0; cbn; by rewrite lookup_insert_eq).
    destruct (updateSchema_known cns' conv0 table t0 m0 "CREATE TABLE" Ht0 eq_refl)
      as (conv1 & m1 & diag & Hrun & Hsch & Hcol & Hdom & Hcalls & Hdiag & _ & Hmode & _).
    rewrite Hrun. intros [= <-].
    exists (cs ++ [CallSchemaStatement "CreateStmt"] ++ diag).
    split.
    { rewrite Hcalls. subst conv0. unfold SchemaStatement.
      cbn [setSrcTable call logCalls calls]. by rewrite <- !app_assoc. }
    split; [by rewrite Hmode|].
    pose proof (updateSchema_entries cns' m0 m1 Hcol Hdom) as Hentries.
    exists m1. split.
    { rewrite Hsch. subst conv0 t0. unfold SchemaStatement.
      cbn [setSrcTable call logCalls SrcSchema schema.Name schema.ColNames
           schema.PrimaryKeys schema.ForeignKeys schema.Indexes app].
      by rewrite insert_insert_eq. }
    split; [exact Hentries|]. split.
    { intros k Hk. destruct (storeColumns_spec defs ∅) as [Hdom0 Hname0].
      assert (Hsome0 : is_Some (m0 !! k)).
      { subst m0. rewrite <- Hstore. apply Hdom0. right. by rewrite Hnames. }
      destruct Hsome0 as [col0 Hk0]. rewrite Hentries. unfold markedEntry.
      rewrite Hk0. eexists. split; [done|].
      destruct (markCol_spec cns' k col0) as (-> & _).
      subst m0. rewrite <- Hstore in Hk0.
      apply (Hname0 ltac:(by intros ? ? ?%lookup_empty_Some) Hdefs k col0 Hk0). }
    rewrite !List.filter_app, (problems_not_counted _ Pcs).
    rewrite (problems_not_counted diag); [done|].
    eapply Forall_impl; [exact Hdiag|]. by intros ? ->.
  - destruct Hfacts as (Pcs & -> & log0 & u & ->).
    cbn [obind fst snd]. intros [= <-]. eexists. split; [done|]. split; [done|].
    split; [done|]. split; [by apply problems_not_counted|]. by exists log0, u.
Qed.

Lemma processCreateStmt_stores_columns_witness :
  ∃ conv' m,
    processCreateStmt Sample.conv0 SampleCreate.createCart = Returns conv'
    ∧ SrcSchema conv' =
        <["cart" :=
            schema.mkTable "cart" ["sku"; "note"] (Some m)
              [schema.mkKey "sku" false] []
              [schema.mkIndex "u_note" true [schema.mkKey "note" false]]]>
          (SrcSchema Sample.conv0)
    ∧ m !! "sku" =
        Some (schema.mkColumn "sku" (schema.mkType "text" [] []) true false)
    ∧ m !! "note" =
        Some (schema.mkColumn "note" (schema.mkType "text" [] []) false false)
    ∧ m !! "id" = None
    ∧ m !! "qty" = None.
Proof.
  destruct (processCreateStmt_stores_columns Sample.conv0 SampleCreate.createCart
              SampleBatch.cartRel "cart" _ eq_refl eq_refl eq_refl eq_refl)
    as (log & _ & _ & m & Hsch & Hm & _).
  eexists _, m. split; [reflexivity|]. split; [exact Hsch|].
  rewrite !Hm. by vm_compute.
Defined.
